(** * Extended-range floating point (efp64): a shallow embedding

    The development follows the two C headers of the extended-fp
    directory:

    - [fp.h]: bit-level access to IEEE-754 binary64 values;
    - [efp64-c.h]: the extended value, a double [fp] that keeps the low
      six bits of the exponent together with an [int64_t] [exp] that keeps
      the remaining exponent, scaled.

    A double is modelled by its 64-bit pattern (a [Z] in [0, 2^64)), which
    is what [fp64_get_bits] and [fp64_from_bits] expose.  Arithmetic on
    doubles (the C operators, [fma], [sqrt], the integer conversions) is
    IEEE-754 binary64 arithmetic in round-to-nearest-even, taken from the
    executable specification [SpecFloat] of the Standard Library.  Values of
    type [int64_t] and [uint64_t] are integers with their wrap-around
    written out. *)

From Stdlib Require Import ZArith Lia Bool List PArith Arith.
From Stdlib Require Import Floats.SpecFloat.
Import ListNotations.

Local Open Scope Z_scope.

(** ** Machine integers *)

Module Int64.

Definition modulus : Z := 2 ^ 64.
Definition half_modulus : Z := 2 ^ 63.
Definition INT64_MIN : Z := - 2 ^ 63.
Definition INT64_MAX : Z := 2 ^ 63 - 1.

(** Conversion to [uint64_t]. *)
Definition unsigned (z : Z) : Z := z mod modulus.

(** Conversion to [int64_t] (two's complement wrap-around). *)
Definition signed (z : Z) : Z := (z + half_modulus) mod modulus - half_modulus.

Definition in_range (z : Z) : Prop := INT64_MIN <= z <= INT64_MAX.

Definition add (x y : Z) : Z := signed (x + y).
Definition sub (x y : Z) : Z := signed (x - y).
Definition neg (x : Z) : Z := signed (- x).

End Int64.

(** ** IEEE-754 binary64 *)

Module IEEE.

Definition prec : Z := 53.
Definition emax : Z := 1024.

(** The value denoted by a bit pattern. *)
Definition of_bits (bx : Z) : spec_float :=
  let s := Z.testbit bx 63 in
  let be := Z.land (Z.shiftr bx 52) 2047 in
  let f := Z.land bx (Z.ones 52) in
  if be =? 0 then
    match f with
    | Zpos m => S754_finite s m (-1074)
    | _ => S754_zero s
    end
  else if be =? 2047 then
    (if f =? 0 then S754_infinity s else S754_nan)
  else
    match f + 2 ^ 52 with
    | Zpos m => S754_finite s m (be - 1075)
    | _ => S754_nan
    end.

Definition sign_bit (s : bool) : Z := if s then 2 ^ 63 else 0.

(** The bit pattern of a value.  [SpecFloat] has a single NaN; it is
    encoded as the positive quiet NaN with an empty payload. *)
Definition to_bits (x : spec_float) : Z :=
  match x with
  | S754_zero s => sign_bit s
  | S754_infinity s => sign_bit s + 2047 * 2 ^ 52
  | S754_nan => 2047 * 2 ^ 52 + 2 ^ 51
  | S754_finite s m e =>
      if Zpos m <? 2 ^ 52 then sign_bit s + Zpos m
      else sign_bit s + (e + 1075) * 2 ^ 52 + (Zpos m - 2 ^ 52)
  end.

(** The exact product of two values, before any rounding. *)
Variant product :=
  | P_nan
  | P_infinity (s : bool)
  | P_zero (s : bool)
  | P_finite (s : bool) (m : positive) (e : Z).

Definition exact_mul (x y : spec_float) : product :=
  match x, y with
  | S754_nan, _ | _, S754_nan => P_nan
  | S754_infinity _, S754_zero _ | S754_zero _, S754_infinity _ => P_nan
  | S754_infinity sx, S754_infinity sy
  | S754_infinity sx, S754_finite sy _ _
  | S754_finite sx _ _, S754_infinity sy => P_infinity (xorb sx sy)
  | S754_zero sx, S754_zero sy
  | S754_zero sx, S754_finite sy _ _
  | S754_finite sx _ _, S754_zero sy => P_zero (xorb sx sy)
  | S754_finite sx mx ex, S754_finite sy my ey =>
      P_finite (xorb sx sy) (mx * my) (ex + ey)
  end.

(** Fused multiply-add: [x * y + z] with a single rounding. *)
Definition SFfma (x y z : spec_float) : spec_float :=
  match exact_mul x y, z with
  | P_nan, _ | _, S754_nan => S754_nan
  | P_infinity s, S754_infinity sz =>
      if Bool.eqb s sz then S754_infinity s else S754_nan
  | P_infinity s, _ => S754_infinity s
  | _, S754_infinity sz => S754_infinity sz
  | P_zero s, S754_zero sz =>
      S754_zero (if Bool.eqb s sz then s else false)
  | P_zero _, S754_finite _ _ _ => z
  | P_finite s m e, S754_zero _ => binary_round prec emax s m e
  | P_finite s m e, S754_finite sz mz ez =>
      let e' := Z.min e ez in
      binary_normalize prec emax
        (cond_Zopp s (Zpos (fst (shl_align m e e')))
         + cond_Zopp sz (Zpos (fst (shl_align mz ez e'))))
        e' false
  end.

Definition mul (x y : Z) : Z := to_bits (SFmul prec emax (of_bits x) (of_bits y)).
Definition div (x y : Z) : Z := to_bits (SFdiv prec emax (of_bits x) (of_bits y)).
Definition sub (x y : Z) : Z := to_bits (SFsub prec emax (of_bits x) (of_bits y)).
Definition sqrt (x : Z) : Z := to_bits (SFsqrt prec emax (of_bits x)).
Definition fma (x y z : Z) : Z := to_bits (SFfma (of_bits x) (of_bits y) (of_bits z)).

(** Sign operations act on the sign bit alone. *)
Definition fabs (x : Z) : Z := Z.land x (Z.ones 63).
Definition neg (x : Z) : Z := Z.lxor x (2 ^ 63).

Definition eqb (x y : Z) : bool := SFeqb (of_bits x) (of_bits y).
Definition ltb (x y : Z) : bool := SFltb (of_bits x) (of_bits y).
Definition leb (x y : Z) : bool := SFleb (of_bits x) (of_bits y).
Definition gtb (x y : Z) : bool := ltb y x.
Definition geb (x y : Z) : bool := leb y x.

Definition isnan (x : Z) : bool :=
  match of_bits x with S754_nan => true | _ => false end.
Definition isinf (x : Z) : bool :=
  match of_bits x with S754_infinity _ => true | _ => false end.

(** Conversion of an integer ([int64_t] or [uint64_t]) to double. *)
Definition of_Z (z : Z) : Z := to_bits (binary_normalize prec emax z 0 false).

(** Literals of the source. *)
Definition zero : Z := 0.                                                 (* 0.0 *)
Definition one : Z := Eval vm_compute in 1023 * 2 ^ 52.                   (* 1.0 *)
Definition two : Z := Eval vm_compute in 1024 * 2 ^ 52.                   (* 2.0 *)
Definition half : Z := Eval vm_compute in 1022 * 2 ^ 52.                  (* 0.5 *)
Definition minus_one : Z := Eval vm_compute in 2 ^ 63 + 1023 * 2 ^ 52.    (* -1.0 *)

End IEEE.

(** ** fp.h: double properties *)

Definition fp64_t := Z.

Definition FP64_EXP_OFFSET : Z := 52.
Definition FP64_SIGN_OFFSET : Z := 63.
Definition FP64_EXP_MASK : Z := 2047.
Definition FP64_BIAS : Z := 1023.
Definition FP64_MAX_EXPONENT : Z := Int64.unsigned (FP64_EXP_MASK - FP64_BIAS - 1).

Definition fp64_get_bits (x : fp64_t) : Z := x.
Definition fp64_from_bits (bx : Z) : fp64_t := bx.

Definition fp64_get_biased_exponent (x : fp64_t) : Z :=
  let bx := fp64_get_bits x in
  Z.land (Z.shiftr bx FP64_EXP_OFFSET) FP64_EXP_MASK.

Definition fp64_get_exponent (x : fp64_t) : Z :=
  let bexp := Int64.signed (fp64_get_biased_exponent x) in
  Int64.sub bexp FP64_BIAS.

Definition fp64_get_sign (x : fp64_t) : Z :=
  let bx := fp64_get_bits x in
  Z.land (Z.shiftr bx FP64_SIGN_OFFSET) 1.

Definition fp64_get_fraction (x : fp64_t) : Z :=
  let bx := fp64_get_bits x in
  let umask := Int64.unsigned (Int64.sub (Z.shiftl 1 FP64_EXP_OFFSET) 1) in
  Z.land bx umask.

Definition fp64_exponent_below (exp : Z) : bool := exp <=? - FP64_BIAS.

Definition fp64_exponent_above (exp : Z) : bool :=
  exp >=? Int64.signed FP64_EXP_MASK - FP64_BIAS.

Definition fp64_assemble (sign exp frac : Z) : fp64_t :=
  let bexp := Int64.add exp FP64_BIAS in
  let bx := frac in
  let bx := Int64.unsigned (bx + Int64.unsigned (Z.shiftl bexp FP64_EXP_OFFSET)) in
  let bx := Int64.unsigned (bx + Int64.unsigned (Z.shiftl sign FP64_SIGN_OFFSET)) in
  fp64_from_bits bx.

(** The mask [~(FP64_EXP_MASK << FP64_EXP_OFFSET)] on 64 bits. *)
Definition fp64_exp_clear_mask : Z :=
  Int64.unsigned (Z.lnot (Z.shiftl FP64_EXP_MASK FP64_EXP_OFFSET)).

Definition fp64_replace_exponent (x : fp64_t) (exp : Z) : fp64_t :=
  let bexp := Int64.unsigned (Int64.add exp FP64_BIAS) in
  let bexp := Int64.unsigned (Z.shiftl bexp FP64_EXP_OFFSET) in
  let bx := fp64_get_bits x in
  let mask := fp64_exp_clear_mask in
  let bx := Z.land bx mask in
  let bx := Int64.unsigned (bx + bexp) in
  fp64_from_bits bx.

Definition fp64_zero_exponent (x : fp64_t) : fp64_t :=
  let bexp := Int64.unsigned (Z.shiftl FP64_BIAS FP64_EXP_OFFSET) in
  let bx := fp64_get_bits x in
  let mask := fp64_exp_clear_mask in
  let bx := Z.land bx mask in
  let bx := Int64.unsigned (bx + bexp) in
  fp64_from_bits bx.

Definition fp64_infinity (sign : Z) : fp64_t :=
  fp64_assemble sign (Int64.unsigned (FP64_EXP_MASK - FP64_BIAS)) 0.

Definition fp64_power2 (p : Z) : fp64_t :=
  if p <=? - FP64_BIAS then IEEE.zero
  else fp64_assemble 0 p 0.

(** ** efp64-c.h: the extended value *)

Record efp64_t : Type := efp64_collect { fp : fp64_t; exp : Z }.

Definition hi_part (x bits : Z) : Z :=
  let mask := Z.shiftl (Z.lnot 0) bits in
  Z.land x mask.

Definition lo_part (x bits : Z) : Z :=
  let mask := Z.shiftl 1 bits - 1 in
  Z.land x mask.

Definition EXP_BITS : Z := 6.
Definition EXP_MODULUS : Z := Z.shiftl 1 EXP_BITS.

Definition ZEXP : Z := hi_part (Z.quot Int64.INT64_MIN 2) EXP_BITS.

Definition EFP64_MAX_MUL : Z :=
  Int64.unsigned (Z.quot FP64_MAX_EXPONENT EXP_MODULUS - 2).

Definition efp64_is_zero (a : efp64_t) : bool := IEEE.eqb (fp a) IEEE.zero.

Definition efp64_zero : efp64_t := {| fp := IEEE.zero; exp := ZEXP |}.

Definition efp64_is_valid (a : efp64_t) : bool :=
  negb (IEEE.isnan (fp a)) && negb (IEEE.isinf (fp a)).

Definition efp64_full_exponent (val : efp64_t) : Z :=
  Int64.add (exp val) (fp64_get_exponent (fp val)).

Definition efp64_zeroed_fraction (val : efp64_t) : fp64_t :=
  fp64_zero_exponent (fp val).

Definition efp64_canonicalize (a : efp64_t) : efp64_t :=
  if efp64_is_zero a then efp64_zero
  else
    let nexp := efp64_full_exponent a in
    {| exp := hi_part nexp EXP_BITS;
       fp := fp64_replace_exponent (fp a) (lo_part nexp EXP_BITS) |}.

Definition efp64_quick_canonicalize (a : efp64_t) : efp64_t :=
  let nval := a in
  let low := fp64_power2 (- EXP_MODULUS) in
  let high := fp64_power2 EXP_MODULUS in
  if IEEE.ltb (IEEE.fabs (fp nval)) IEEE.one then
    {| fp := IEEE.mul (fp nval) high; exp := Int64.sub (exp nval) EXP_MODULUS |}
  else if IEEE.geb (IEEE.fabs (fp nval)) high then
    {| fp := IEEE.mul (fp nval) low; exp := Int64.add (exp nval) EXP_MODULUS |}
  else nval.

Definition efp64_quick_down_canonicalize (a : efp64_t) : efp64_t :=
  let nval := a in
  let low := fp64_power2 (- EXP_MODULUS) in
  let high := fp64_power2 EXP_MODULUS in
  if IEEE.geb (IEEE.fabs (fp nval)) high then
    {| fp := IEEE.mul (fp nval) low; exp := Int64.add (exp nval) EXP_MODULUS |}
  else nval.

Definition efp64_quick_up_canonicalize (a : efp64_t) : efp64_t :=
  let nval := a in
  let high := fp64_power2 EXP_MODULUS in
  if IEEE.ltb (IEEE.fabs (fp nval)) IEEE.one then
    {| fp := IEEE.mul (fp nval) high; exp := Int64.sub (exp nval) EXP_MODULUS |}
  else nval.

Definition efp64_from_fp64 (dval : fp64_t) : efp64_t :=
  efp64_canonicalize {| exp := 0; fp := dval |}.

Definition efp64_to_fp64 (eval : efp64_t) : fp64_t :=
  if efp64_is_zero eval then IEEE.zero
  else
    let full_exp := efp64_full_exponent eval in
    if fp64_exponent_below full_exp then IEEE.zero
    else if fp64_exponent_above full_exp then
      let sign := fp64_get_sign (fp eval) in
      fp64_infinity sign
    else fp64_replace_exponent (fp eval) full_exp.

Definition efp64_is_equal (a b : efp64_t) : bool :=
  if efp64_is_zero a then efp64_is_zero b
  else IEEE.eqb (fp a) (fp b) && (exp a =? exp b).

Definition efp64_negate (a : efp64_t) : efp64_t :=
  if efp64_is_zero a then a
  else {| exp := exp a; fp := IEEE.neg (fp a) |}.

Definition efp64_add (a b : efp64_t) : efp64_t :=
  let nval :=
    if exp a >? exp b then
      {| exp := exp a;
         fp := IEEE.fma (fp b) (fp64_power2 (Int64.sub (exp b) (exp a))) (fp a) |}
    else
      {| exp := exp b;
         fp := IEEE.fma (fp a) (fp64_power2 (Int64.sub (exp a) (exp b))) (fp b) |} in
  efp64_quick_canonicalize nval.

Definition efp64_quick_mul (a b : efp64_t) : efp64_t :=
  {| exp := Int64.add (exp a) (exp b); fp := IEEE.mul (fp a) (fp b) |}.

Definition efp64_mul (a b : efp64_t) : efp64_t :=
  efp64_quick_down_canonicalize (efp64_quick_mul a b).

Definition efp64_fma (a b c : efp64_t) : efp64_t :=
  efp64_add (efp64_mul a b) c.

Definition efp64_div (a b : efp64_t) : efp64_t :=
  efp64_quick_up_canonicalize
    {| fp := IEEE.div (fp a) (fp b); exp := Int64.sub (exp a) (exp b) |}.

Definition efp64_cmp (a b : efp64_t) : Z :=
  let sa := IEEE.ltb (fp a) IEEE.zero in
  let sb := IEEE.ltb (fp b) IEEE.zero in
  if sa && negb sb then -1
  else if negb sa && sb then 1
  else
    let flip := if sa then -1 else 1 in
    if exp a >? exp b then flip
    else if exp a <? exp b then - flip
    else if IEEE.ltb (fp a) (fp b) then -1
    else if IEEE.gtb (fp a) (fp b) then 1
    else 0.

Definition efp64_sqrt (a : efp64_t) : efp64_t :=
  if efp64_is_zero a || IEEE.ltb (fp a) IEEE.zero then efp64_zero
  else
    efp64_canonicalize
      {| fp := IEEE.sqrt (fp a); exp := Z.quot (exp a) 2 |}.

Definition efp64_scale_power2 (val : efp64_t) (power : Z) : efp64_t :=
  {| fp := fp val; exp := Int64.add (exp val) power |}.

(** *** Products of sequences

    The array [val] of length [len] is a list; the loops over its indices
    are recursions over the list.  [efp64_mul_seq_x4] reads [val[0..3]]
    whatever [len] is (the source assumes [len >= 4]): on a shorter list
    it has no defined result, [None]. *)

Definition efp64_mul_seq_slow (val : list efp64_t) : efp64_t :=
  fold_left efp64_mul val (efp64_from_fp64 IEEE.one).

(** One round of the loop of [efp64_mul_seq_x1], on [(result, count)]. *)
Definition mul_seq_x1_step (st : efp64_t * Z) (arg : efp64_t) : efp64_t * Z :=
  let '(result, count) := st in
  let result := efp64_quick_mul result arg in
  let count := count + 1 in
  if count >? EFP64_MAX_MUL then (efp64_canonicalize result, 0)
  else (result, count).

(** The values of [result] in the loop of [efp64_mul_seq_x1], each taken
    right after the quick multiplication. *)
Fixpoint mul_seq_x1_products (rest : list efp64_t) (st : efp64_t * Z)
  : list efp64_t :=
  match rest with
  | [] => []
  | arg :: rest' =>
      efp64_quick_mul (fst st) arg :: mul_seq_x1_products rest' (mul_seq_x1_step st arg)
  end.

(** The accumulator of [efp64_mul_seq_x1] when its loop ends. *)
Definition efp64_mul_seq_x1_acc (v0 : efp64_t) (rest : list efp64_t) : efp64_t :=
  fst (fold_left mul_seq_x1_step rest (v0, 1)).

Definition efp64_mul_seq_x1 (val : list efp64_t) : efp64_t :=
  match val with
  | [] => efp64_from_fp64 IEEE.one
  | v0 :: rest => efp64_canonicalize (efp64_mul_seq_x1_acc v0 rest)
  end.

Definition prod4 : Type := efp64_t * efp64_t * efp64_t * efp64_t.

Definition prod4_canonicalize (prod : prod4) : prod4 :=
  let '(p0, p1, p2, p3) := prod in
  (efp64_canonicalize p0, efp64_canonicalize p1,
   efp64_canonicalize p2, efp64_canonicalize p3).

(** The main loop of [efp64_mul_seq_x4]: four elements a round, as long as
    four are left; it returns the accumulators, the counter and the
    elements it has not read. *)
Fixpoint mul_seq_x4_loop (vs : list efp64_t) (prod : prod4) (count : Z)
  : prod4 * Z * list efp64_t :=
  match vs with
  | v0 :: v1 :: v2 :: v3 :: rest =>
      let '(p0, p1, p2, p3) := prod in
      let prod := (efp64_quick_mul p0 v0, efp64_quick_mul p1 v1,
                   efp64_quick_mul p2 v2, efp64_quick_mul p3 v3) in
      let count := count + 1 in
      if count >? EFP64_MAX_MUL then mul_seq_x4_loop rest (prod4_canonicalize prod) 0
      else mul_seq_x4_loop rest prod count
  | _ => (prod, count, vs)
  end.

(** The value of [result] in [efp64_mul_seq_x4] before the last
    canonicalization. *)
Definition efp64_mul_seq_x4_acc (val : list efp64_t) : option efp64_t :=
  match val with
  | v0 :: v1 :: v2 :: v3 :: rest =>
      let '(prod, count, tail) := mul_seq_x4_loop rest (v0, v1, v2, v3) 0 in
      let prod := if count * 4 >? EFP64_MAX_MUL then prod4_canonicalize prod else prod in
      let '(p0, p1, p2, p3) := prod in
      let result := p0 in
      let result := fold_left efp64_quick_mul [p1; p2; p3] result in
      let result := fold_left efp64_quick_mul tail result in
      Some result
  | _ => None
  end.

Definition efp64_mul_seq_x4 (val : list efp64_t) : option efp64_t :=
  option_map efp64_canonicalize (efp64_mul_seq_x4_acc val).

Definition efp64_mul_seq (val : list efp64_t) : option efp64_t :=
  if Z.of_nat (length val) <? 8 then Some (efp64_mul_seq_x1 val)
  else efp64_mul_seq_x4 val.

(** *** Logarithms

    [log2] of the C library is not part of the repository: it is a
    parameter of the model. *)

Section Logarithm.

Variable libm_log2 : fp64_t -> fp64_t.

Record log2_state : Type :=
  { log_val : Z; dlog : fp64_t; log_weight : fp64_t }.

(** The body of the loop of [efp64_log2d]. *)
Definition log2_step (st : log2_state) : log2_state :=
  let lv := Int64.unsigned (log_val st * 2) in
  let dl := IEEE.mul (dlog st) IEEE.two in
  let '(lv, dl) :=
    if IEEE.geb dl IEEE.one then (Int64.unsigned (lv + 1), IEEE.sub dl IEEE.one)
    else (lv, dl) in
  {| log_val := lv; dlog := dl; log_weight := IEEE.mul (log_weight st) IEEE.half |}.

(** [while ((log_val >> 63) == 0)]: a non-zero [log_val] leaves the loop
    within 63 rounds. *)
Fixpoint log2_loop (fuel : nat) (st : log2_state) : log2_state :=
  match fuel with
  | O => st
  | S fuel' =>
      if Z.shiftr (log_val st) 63 =? 0 then log2_loop fuel' (log2_step st)
      else st
  end.

Definition efp64_log2d (a : efp64_t) : fp64_t :=
  let d := efp64_zeroed_fraction a in
  if IEEE.leb d IEEE.zero then IEEE.zero
  else
    let e := efp64_full_exponent a in
    if IEEE.eqb d IEEE.one then IEEE.of_Z e
    else if negb (fp64_exponent_below e) && negb (fp64_exponent_above e) then
      libm_log2 (efp64_to_fp64 a)
    else
      let '(lw, dl, e) :=
        if e <? 0 then
          (IEEE.minus_one, IEEE.neg (libm_log2 (IEEE.div d IEEE.two)),
           Int64.neg (Int64.add e 1))
        else (IEEE.one, libm_log2 d, e) in
      let uflow := IEEE.eqb dl IEEE.zero in
      let st := log2_loop 64 {| log_val := Int64.unsigned e; dlog := dl; log_weight := lw |} in
      let lv :=
        if uflow || negb (IEEE.eqb (dlog st) IEEE.zero) then Z.lor (log_val st) 1
        else log_val st in
      IEEE.mul (IEEE.of_Z lv) (log_weight st).

Definition efp64_log2 (a : efp64_t) : efp64_t :=
  efp64_from_fp64 (efp64_log2d a).

End Logarithm.

(** ** Predicates of the specification *)

(** A pattern assembled from its three fields. *)
Definition fp64_pack (s be f : Z) : Z := s * 2 ^ 63 + be * 2 ^ 52 + f.

Definition fp64_fields (s be f : Z) : Prop :=
  0 <= s < 2 /\ 0 <= be < 2048 /\ 0 <= f < 2 ^ 52.

(** The values of the C types: a double is a 64-bit pattern, an exponent
    an [int64_t]. *)
Definition fp64_wf (x : fp64_t) : Prop := 0 <= x < 2 ^ 64.

Definition efp64_wf (a : efp64_t) : Prop :=
  fp64_wf (fp a) /\ Int64.in_range (exp a).

(** The canonical form of a non-zero value: the exponent of [fp] lies in
    the window [0, EXP_MODULUS) and [exp] is a multiple of [EXP_MODULUS]. *)
Definition efp64_canonical (a : efp64_t) : Prop :=
  0 <= fp64_get_exponent (fp a) < EXP_MODULUS /\ exp a mod EXP_MODULUS = 0.

(** The value of the pattern assembled from three fields (what
    [IEEE.of_bits] computes, by fields). *)
Definition of_fields (s be f : Z) : spec_float :=
  if be =? 0 then
    match f with
    | Zpos m => S754_finite (s =? 1) m (-1074)
    | _ => S754_zero (s =? 1)
    end
  else if be =? 2047 then
    (if f =? 0 then S754_infinity (s =? 1) else S754_nan)
  else
    match f + 2 ^ 52 with
    | Zpos m => S754_finite (s =? 1) m (be - 1075)
    | _ => S754_nan
    end.

(** A double that is neither zero nor normal nor infinite nor NaN. *)
Definition fp64_is_subnormal (x : fp64_t) : bool :=
  (fp64_get_biased_exponent x =? 0) && negb (fp64_get_fraction x =? 0).

(** The first stage of [binary_round]: the mantissa aligned on the
    exponent of the result, with the bits that were shifted out. *)
Definition first_shift (m : positive) (e : Z) : shr_record * Z :=
  let '(mz, ez) := shl_align m e (fexp IEEE.prec IEEE.emax (Z.pos (digits2_pos m) + e)) in
  shr_fexp IEEE.prec IEEE.emax (Z.pos mz) ez loc_Exact.

(** The second stage: rounding, and one more shift on a carry. *)
Definition round_shifted (s : bool) (st : shr_record * Z) : spec_float :=
  let '(mrs', e') := st in
  let '(mrs'', e'') :=
    shr_fexp IEEE.prec IEEE.emax
      (round_nearest_even (shr_m mrs') (loc_of_shr_record mrs')) e' loc_Exact in
  match shr_m mrs'' with
  | Z0 => S754_zero s
  | Zpos m => if e'' <=? IEEE.emax - IEEE.prec then S754_finite s m e'' else S754_infinity s
  | _ => S754_nan
  end.

(** The double [x] is the integer [z], exactly. *)
Definition SF_is_integer (x : spec_float) (z : Z) : Prop :=
  match x with
  | S754_zero _ => z = 0
  | S754_finite s m e =>
      cond_Zopp s (Z.pos m) * 2 ^ Z.max 0 e = z * 2 ^ Z.max 0 (- e)
  | _ => False
  end.

(** A normal double whose exponent lies in [lo, hi). *)
Definition SF_window (lo hi : Z) (x : spec_float) : Prop :=
  match x with
  | S754_finite s m e => 2 ^ 52 <= Z.pos m < 2 ^ 53 /\ lo <= e + 52 < hi
  | _ => False
  end.

Definition SF_is_zero (x : spec_float) : Prop :=
  match x with
  | S754_zero _ => True
  | _ => False
  end.

(** The operands of the arithmetic: the canonical zero and the canonical
    non-zero values. *)
Definition efp64_canonical_or_zero (a : efp64_t) : Prop :=
  a = efp64_zero \/ efp64_canonical a.

(** Exponents between the sentinel [ZEXP] and its opposite: their
    differences do not overflow [int64_t]. *)
Definition efp64_exp_in_range (a : efp64_t) : Prop :=
  ZEXP <= exp a <= - ZEXP.

(** The state of the loop of [efp64_mul_seq_x1]: a counter of at most
    [EFP64_MAX_MUL] and an accumulator that is zero or spans at most one
    window more than the counter says. *)
Definition mul_seq_x1_inv (st : efp64_t * Z) : Prop :=
  0 <= snd st <= EFP64_MAX_MUL
  /\ (SF_is_zero (IEEE.of_bits (fp (fst st)))
      \/ SF_window 0 (EXP_MODULUS * (snd st + 1)) (IEEE.of_bits (fp (fst st)))).

(** The result of [efp64_cmp] that stands for an order of doubles. *)
Definition cmp_of_comparison (c : option comparison) : Z :=
  match c with
  | Some Lt => -1
  | Some Eq => 0
  | Some Gt => 1
  | None => 0
  end.

(** A value whose full exponent is that of a normal double. *)
Definition efp64_fits_fp64 (a : efp64_t) : Prop :=
  - 1022 <= exp a + fp64_get_exponent (fp a) <= 1023.

(** ** fp.h and efp64-c.h: the remaining accessors *)

(** [fp64_shift_exponent]: the source assumes that the only risk is
    underflow. *)
Definition fp64_shift_exponent (x : fp64_t) (shift : Z) : fp64_t :=
  let nexp := Int64.add (fp64_get_exponent x) shift in
  if fp64_exponent_below nexp then IEEE.zero
  else fp64_replace_exponent x nexp.

(** [efp64_disperse] writes the two fields through its pointers. *)
Definition efp64_disperse (a : efp64_t) : fp64_t * Z := (fp a, exp a).

(** ** efp64-cpp.hpp: the class EFP64

    An object of the class is its only field, [eval]; the operators are
    functions of the values. *)

Module EFP64.

(** The constructors [EFP64()], [EFP64(fp64_t)], [EFP64(int)] and
    [EFP64(fp64_t, int64_t)]. *)
Definition make_zero : efp64_t := efp64_zero.
Definition of_fp64 (d : fp64_t) : efp64_t := efp64_from_fp64 d.
Definition of_int (i : Z) : efp64_t := efp64_from_fp64 (IEEE.of_Z i).
Definition of_parts (d : fp64_t) (e : Z) : efp64_t := efp64_collect d e.

Definition get_fp64 (a : efp64_t) : fp64_t := efp64_to_fp64 a.


(** [operator+], [operator*], [operator/], unary and binary
    [operator-]. *)
Definition add (a other : efp64_t) : efp64_t := efp64_add a other.
Definition mul (a other : efp64_t) : efp64_t := efp64_mul a other.
Definition mul_fp64 (a : efp64_t) (other : fp64_t) : efp64_t :=
  efp64_mul a (efp64_from_fp64 other).
Definition div (a other : efp64_t) : efp64_t := efp64_div a other.
Definition neg (a : efp64_t) : efp64_t := efp64_negate a.
Definition sub (a other : efp64_t) : efp64_t := efp64_add a (efp64_negate other).

(** [operator<<], [operator>>] on an [int64_t] power. *)
Definition shl (a : efp64_t) (power : Z) : efp64_t := efp64_scale_power2 a power.
Definition shr (a : efp64_t) (power : Z) : efp64_t :=
  efp64_scale_power2 a (Int64.neg power).


(** The reductions: [data] of length [len] is a list. *)
Definition product_reduce_slow (ival : efp64_t) (data : list efp64_t) : efp64_t :=
  fold_left efp64_mul data ival.

(** The accumulator of [product_reduce_x1] when its loop ends; the round
    of the loop is that of [efp64_mul_seq_x1], the counter starts at 0. *)
Definition product_reduce_x1_acc (ival : efp64_t) (data : list efp64_t) : efp64_t :=
  fst (fold_left mul_seq_x1_step data (ival, 0)).

Definition product_reduce_x1 (ival : efp64_t) (data : list efp64_t) : efp64_t :=
  efp64_canonicalize (product_reduce_x1_acc ival data).

(** [product_reduce_x4] reads [data[0..3]] whatever [len] is: on a
    shorter list it has no defined result. *)
Definition product_reduce_x4 (ival : efp64_t) (data : list efp64_t)
  : option efp64_t :=
  match data with
  | d0 :: d1 :: d2 :: d3 :: rest =>
      let '(prod, rcount, tail) :=
        mul_seq_x4_loop rest (efp64_quick_mul d0 ival, d1, d2, d3) 0 in
      let prod :=
        if rcount * 4 >? EFP64_MAX_MUL then prod4_canonicalize prod else prod in
      let '(p0, p1, p2, p3) := prod in
      let result := p0 in
      let result := fold_left efp64_quick_mul [p1; p2; p3] result in
      let result := fold_left efp64_quick_mul tail result in
      Some (efp64_canonicalize result)
  | _ => None
  end.

Definition product_reduce (ival : efp64_t) (data : list efp64_t)
  : option efp64_t :=
  if Z.of_nat (length data) >=? 8 then product_reduce_x4 ival data
  else Some (product_reduce_x1 ival data).

End EFP64.

(** ** efp64-c.h: I/O support

    A [long long] is an [int64_t]; its products wrap around.  A [char] is
    its code, ['0'] is 48; the buffer [sbuf] is the list of the codes of
    [sbuf[0..len]], the part that [rj_string] initializes. *)

Definition int64_mul (x y : Z) : Z := Int64.signed (x * y).

(** The loop of [p10] reads the bits of [exp] from the lowest: [exp & 0x1]
    is the constructor, [exp >> 1] its argument.  In its last round the
    source squares [power] once more; that square is never read. *)
Fixpoint p10_loop (exp : positive) (result power : Z) : Z :=
  match exp with
  | xH => int64_mul result power
  | xO exp' => p10_loop exp' result (int64_mul power power)
  | xI exp' => p10_loop exp' (int64_mul result power) (int64_mul power power)
  end.

Definition p10 (exp : Z) : Z :=
  match exp with
  | Zneg _ => 0
  | Z0 => 1
  | Zpos e => p10_loop e 1 10
  end.

Definition char_0 : Z := 48.

(** [sbuf[i] = c], for [i] within the list. *)
Definition store (sbuf : list Z) (i : nat) (c : Z) : list Z :=
  firstn i sbuf ++ c :: skipn (S i) sbuf.

(** [while (val) { sbuf[i--] = '0' + val % 10; val = val / 10; }] for a
    positive [val]: a write below [sbuf[0]] has no defined result.  A
    positive [long long] has at most 19 digits: 20 rounds of fuel are
    never used up. *)
Fixpoint rj_digits (fuel : nat) (sbuf : list Z) (i val : Z) : option (list Z) :=
  match fuel with
  | O => None
  | S fuel' =>
      if val =? 0 then Some sbuf
      else if i <? 0 then None
      else
        rj_digits fuel' (store sbuf (Z.to_nat i) (char_0 + Z.rem val 10))
          (i - 1) (Z.quot val 10)
  end.

Definition rj_string (val len : Z) : option (list Z) :=
  if len <? 0 then None
  else
    let sbuf := repeat char_0 (Z.to_nat len) ++ [0] in
    if val <=? 0 then Some sbuf
    else rj_digits 20 sbuf (len - 1) val.

(** The number that a list of digit codes writes in base ten. *)
Definition decimal_value (s : list Z) : Z :=
  fold_left (fun acc c => acc * 10 + (c - char_0)) s 0.

(** The [k] low decimal digits of [val], as codes, the highest first. *)
Fixpoint digits_of (k : nat) (val : Z) : list Z :=
  match k with
  | O => []
  | S k' => digits_of k' (val / 10) ++ [char_0 + val mod 10]
  end.

(** ** efp64-c.h: conversion to integers

    [unsigned] and [int] have 32 bits.  The conversion of a double to
    [unsigned] truncates toward zero; C leaves it undefined when the
    integer part does not fit, a case that has no result here. *)

Definition UINT_MAX : Z := Eval vm_compute in 2 ^ 32 - 1.
Definition INT_MAX : Z := Eval vm_compute in 2 ^ 31 - 1.
Definition INT_MIN : Z := Eval vm_compute in - 2 ^ 31.

(** The integer part of a double. *)
Definition fp64_trunc (d : fp64_t) : option Z :=
  match IEEE.of_bits d with
  | S754_zero _ => Some 0
  | S754_finite s m e =>
      Some (cond_Zopp s (if 0 <=? e then Z.pos m * 2 ^ e else Z.pos m / 2 ^ (- e)))
  | _ => None
  end.

(** [(unsigned) d]. *)
Definition fp64_to_unsigned (d : fp64_t) : option Z :=
  match fp64_trunc d with
  | Some z => if (0 <=? z) && (z <=? UINT_MAX) then Some z else None
  | None => None
  end.

(** Conversion of an [unsigned] to [int]. *)
Definition int32_signed (z : Z) : Z := (z + 2 ^ 31) mod 2 ^ 32 - 2 ^ 31.

Definition efp64_to_unsigned (a : efp64_t) : option Z :=
  if IEEE.leb (fp a) IEEE.zero then Some 0
  else
    let d := efp64_to_fp64 a in
    if IEEE.gtb d (IEEE.of_Z UINT_MAX) then Some UINT_MAX
    else fp64_to_unsigned d.

Definition efp64_to_int (a : efp64_t) : option Z :=
  let d := efp64_to_fp64 a in
  if IEEE.geb d (IEEE.of_Z INT_MAX) then Some INT_MAX
  else if IEEE.leb d (IEEE.of_Z INT_MIN) then Some INT_MIN
  else option_map int32_signed (fp64_to_unsigned d).

(** ** efp64-c.h: powers *)

(** The literal [10.0]. *)
Definition fp64_ten : fp64_t := Eval vm_compute in IEEE.of_Z 10.

(** The loop of [xpe] reads the bits of [exp] from the lowest; in its
    last round the source squares [power] once more, a square that is
    never read. *)
Fixpoint xpe_loop (exp : positive) (power result : efp64_t) : efp64_t :=
  match exp with
  | xH => efp64_mul result power
  | xO exp' => xpe_loop exp' (efp64_mul power power) result
  | xI exp' => xpe_loop exp' (efp64_mul power power) (efp64_mul result power)
  end.

(** [-exp] wraps around for [INT64_MIN] and stays negative; the loop then
    shifts a negative [exp] to the right for ever: no result. *)
Definition xpe (x : fp64_t) (exp : Z) : option efp64_t :=
  if IEEE.eqb x IEEE.zero then Some efp64_zero
  else
    let '(exp, x) :=
      if exp <? 0 then (Int64.neg exp, IEEE.div IEEE.one x) else (exp, x) in
    let power := efp64_from_fp64 x in
    let result := efp64_from_fp64 IEEE.one in
    match exp with
    | Z0 => Some result
    | Zpos e => Some (xpe_loop e power result)
    | Zneg _ => None
    end.

Definition ep10 (exp : Z) : option efp64_t := xpe fp64_ten exp.

(** A value that is canonical, or a zero whose [exp] is a multiple of
    [EXP_MODULUS]: what the multiplications keep. *)
Definition efp64_regular (a : efp64_t) : Prop :=
  exp a mod EXP_MODULUS = 0
  /\ (SF_is_zero (IEEE.of_bits (fp a)) \/ SF_window 0 64 (IEEE.of_bits (fp a))).

(** The canonical value [2^k]. *)
Definition efp64_power2 (k : Z) : efp64_t :=
  {| fp := fp64_power2 (k mod EXP_MODULUS); exp := k - k mod EXP_MODULUS |}.

(** ** fp.h: single precision

    A [float] is its 32-bit pattern; [uint32_t] and [int32_t] are
    integers with their wrap-around written out. *)

Module Int32.

Definition unsigned (z : Z) : Z := z mod 2 ^ 32.
Definition signed (z : Z) : Z := (z + 2 ^ 31) mod 2 ^ 32 - 2 ^ 31.
Definition add (x y : Z) : Z := signed (x + y).
Definition sub (x y : Z) : Z := signed (x - y).

End Int32.

Definition fp32_t := Z.

Definition FP32_EXP_OFFSET : Z := 23.
Definition FP32_SIGN_OFFSET : Z := 31.
Definition FP32_EXP_MASK : Z := 255.
Definition FP32_BIAS : Z := 127.
Definition FP32_MAX_EXPONENT : Z := Int32.unsigned (FP32_EXP_MASK - FP32_BIAS - 1).

Definition fp32_get_bits (x : fp32_t) : Z := x.
Definition fp32_from_bits (bx : Z) : fp32_t := bx.

Definition fp32_get_biased_exponent (x : fp32_t) : Z :=
  let bx := fp32_get_bits x in
  Z.land (Z.shiftr bx FP32_EXP_OFFSET) FP32_EXP_MASK.

Definition fp32_get_exponent (x : fp32_t) : Z :=
  let bexp := Int32.signed (fp32_get_biased_exponent x) in
  Int32.sub bexp FP32_BIAS.

Definition fp32_get_sign (x : fp32_t) : Z :=
  let bx := fp32_get_bits x in
  Z.land (Z.shiftr bx FP32_SIGN_OFFSET) 1.

Definition fp32_get_fraction (x : fp32_t) : Z :=
  let bx := fp32_get_bits x in
  let umask := Int32.unsigned (Int32.sub (Z.shiftl 1 FP32_EXP_OFFSET) 1) in
  Z.land bx umask.

Definition fp32_exponent_below (exp : Z) : bool := exp <=? - FP32_BIAS.

Definition fp32_exponent_above (exp : Z) : bool :=
  exp >=? Int32.signed FP32_EXP_MASK - FP32_BIAS.

Definition fp32_assemble (sign exp frac : Z) : fp32_t :=
  let bexp := Int32.add exp FP32_BIAS in
  let bx := frac in
  let bx := Int32.unsigned (bx + Int32.unsigned (Z.shiftl bexp FP32_EXP_OFFSET)) in
  let bx := Int32.unsigned (bx + Int32.unsigned (Z.shiftl sign FP32_SIGN_OFFSET)) in
  fp32_from_bits bx.

(** The mask [~(FP32_EXP_MASK << FP32_EXP_OFFSET)] on 32 bits. *)
Definition fp32_exp_clear_mask : Z :=
  Int32.unsigned (Z.lnot (Z.shiftl FP32_EXP_MASK FP32_EXP_OFFSET)).

Definition fp32_replace_exponent (x : fp32_t) (exp : Z) : fp32_t :=
  let bexp := Int32.unsigned (Int32.add exp FP32_BIAS) in
  let bexp := Int32.unsigned (Z.shiftl bexp FP32_EXP_OFFSET) in
  let bx := fp32_get_bits x in
  let mask := fp32_exp_clear_mask in
  let bx := Z.land bx mask in
  let bx := Int32.unsigned (bx + bexp) in
  fp32_from_bits bx.

Definition fp32_shift_exponent (x : fp32_t) (shift : Z) : fp32_t :=
  let nexp := Int32.add (fp32_get_exponent x) shift in
  if fp32_exponent_below nexp then 0
  else fp32_replace_exponent x nexp.

Definition fp32_zero_exponent (x : fp32_t) : fp32_t :=
  let bexp := Int32.unsigned (Z.shiftl FP32_BIAS FP32_EXP_OFFSET) in
  let bx := fp32_get_bits x in
  let mask := fp32_exp_clear_mask in
  let bx := Z.land bx mask in
  let bx := Int32.unsigned (bx + bexp) in
  fp32_from_bits bx.

Definition fp32_infinity (sign : Z) : fp32_t :=
  fp32_assemble sign (Int32.unsigned (FP32_EXP_MASK - FP32_BIAS)) 0.

Definition fp32_power2 (p : Z) : fp32_t :=
  if p <=? - FP32_BIAS then 0
  else fp32_assemble 0 p 0.

(** A 32-bit pattern assembled from its three fields. *)
Definition fp32_pack (s be f : Z) : Z := s * 2 ^ 31 + be * 2 ^ 23 + f.

(** The sum of two doubles (the C operator [+]). *)
Definition fp64_add (x y : fp64_t) : fp64_t :=
  IEEE.to_bits (SFadd IEEE.prec IEEE.emax (IEEE.of_bits x) (IEEE.of_bits y)).

(** A finite double with [K] added to its exponent. *)
Definition SF_shift (K : Z) (r : spec_float) : spec_float :=
  match r with
  | S754_finite s m e => S754_finite s m (e + K)
  | _ => r
  end.

(** * Properties *)

(** Closed side conditions, by evaluation. *)
Ltac by_evaluation :=
  repeat split; vm_compute;
  first [reflexivity | discriminate | intro; discriminate].

(** Closed conditions of an [if], by evaluation. *)
Ltac eval_cond :=
  match goal with
  | |- context [if ?c then _ else _] =>
      let v := eval vm_compute in c in
      replace c with v by (vm_compute; reflexivity)
  end.

(** ** Machine integers *)

Lemma signed_in_range (z : Z) : Int64.in_range z -> Int64.signed z = z.
Proof.
  unfold Int64.in_range, Int64.signed, Int64.INT64_MIN, Int64.INT64_MAX,
    Int64.half_modulus, Int64.modulus.
  intros H. rewrite Z.mod_small; lia.
Qed.

Lemma signed_range (z : Z) : Int64.in_range (Int64.signed z).
Proof.
  unfold Int64.in_range, Int64.signed, Int64.INT64_MIN, Int64.INT64_MAX,
    Int64.half_modulus, Int64.modulus.
  pose proof (Z.mod_pos_bound (z + 2 ^ 63) (2 ^ 64)). lia.
Qed.

Lemma unsigned_in_range (z : Z) : 0 <= z < 2 ^ 64 -> Int64.unsigned z = z.
Proof. intros H. unfold Int64.unsigned, Int64.modulus. apply Z.mod_small, H. Qed.

Lemma unsigned_range (z : Z) : 0 <= Int64.unsigned z < 2 ^ 64.
Proof. unfold Int64.unsigned, Int64.modulus. apply Z.mod_pos_bound. lia. Qed.

(** Wrap-around keeps the residue modulo the window width. *)
Lemma signed_mod_64 (z : Z) : Int64.signed z mod 64 = z mod 64.
Proof.
  unfold Int64.signed, Int64.half_modulus, Int64.modulus.
  rewrite (Z.mod_eq (z + 2 ^ 63) (2 ^ 64)) by lia.
  replace (z + 2 ^ 63 - 2 ^ 64 * ((z + 2 ^ 63) / 2 ^ 64) - 2 ^ 63)
    with (z + (- (2 ^ 58) * ((z + 2 ^ 63) / 2 ^ 64)) * 64) by lia.
  apply Z.mod_add. lia.
Qed.

(** ** Bit fields of a double *)

Lemma fp64_pack_wf s be f : fp64_fields s be f -> fp64_wf (fp64_pack s be f).
Proof. unfold fp64_fields, fp64_wf, fp64_pack. lia. Qed.

Lemma fp64_get_biased_exponent_div (x : fp64_t) :
  fp64_get_biased_exponent x = (x / 2 ^ 52) mod 2 ^ 11.
Proof.
  unfold fp64_get_biased_exponent, fp64_get_bits, FP64_EXP_OFFSET, FP64_EXP_MASK.
  change 2047 with (Z.ones 11).
  rewrite Z.land_ones, Z.shiftr_div_pow2 by lia. reflexivity.
Qed.

Lemma fp64_get_sign_div (x : fp64_t) : fp64_get_sign x = (x / 2 ^ 63) mod 2.
Proof.
  unfold fp64_get_sign, fp64_get_bits, FP64_SIGN_OFFSET.
  change 1 with (Z.ones 1) at 1.
  rewrite Z.land_ones, Z.shiftr_div_pow2 by lia. reflexivity.
Qed.

Lemma fp64_get_fraction_mod (x : fp64_t) : fp64_get_fraction x = x mod 2 ^ 52.
Proof.
  unfold fp64_get_fraction, fp64_get_bits.
  change (Int64.unsigned (Int64.sub (Z.shiftl 1 FP64_EXP_OFFSET) 1)) with (Z.ones 52).
  apply Z.land_ones. lia.
Qed.

Lemma fp64_get_biased_exponent_pack s be f :
  fp64_fields s be f -> fp64_get_biased_exponent (fp64_pack s be f) = be.
Proof.
  intros (Hs & Hbe & Hf). rewrite fp64_get_biased_exponent_div. unfold fp64_pack.
  replace (s * 2 ^ 63 + be * 2 ^ 52 + f) with (f + (s * 2 ^ 11 + be) * 2 ^ 52) by lia.
  rewrite Z.div_add, Z.div_small, Z.add_0_l by lia.
  rewrite Z.add_comm, Z.mod_add by lia. apply Z.mod_small. lia.
Qed.

Lemma fp64_get_sign_pack s be f :
  fp64_fields s be f -> fp64_get_sign (fp64_pack s be f) = s.
Proof.
  intros (Hs & Hbe & Hf). rewrite fp64_get_sign_div. unfold fp64_pack.
  replace (s * 2 ^ 63 + be * 2 ^ 52 + f) with ((be * 2 ^ 52 + f) + s * 2 ^ 63) by lia.
  rewrite Z.div_add, Z.div_small, Z.add_0_l by lia. apply Z.mod_small. lia.
Qed.

Lemma fp64_get_fraction_pack s be f :
  fp64_fields s be f -> fp64_get_fraction (fp64_pack s be f) = f.
Proof.
  intros (Hs & Hbe & Hf). rewrite fp64_get_fraction_mod. unfold fp64_pack.
  replace (s * 2 ^ 63 + be * 2 ^ 52 + f) with (f + (s * 2 ^ 11 + be) * 2 ^ 52) by lia.
  rewrite Z.mod_add by lia. apply Z.mod_small. lia.
Qed.

(** Every 64-bit pattern is the assembly of its fields. *)
Lemma fp64_unpack (x : fp64_t) :
  fp64_wf x ->
  x = fp64_pack (fp64_get_sign x) (fp64_get_biased_exponent x) (fp64_get_fraction x)
  /\ fp64_fields (fp64_get_sign x) (fp64_get_biased_exponent x) (fp64_get_fraction x).
Proof.
  intros Hx. unfold fp64_wf in Hx.
  rewrite fp64_get_sign_div, fp64_get_biased_exponent_div, fp64_get_fraction_mod.
  unfold fp64_pack, fp64_fields.
  pose proof (Z.div_mod x (2 ^ 52) ltac:(lia)) as H1.
  pose proof (Z.mod_pos_bound x (2 ^ 52) ltac:(lia)) as H2.
  pose proof (Z.div_mod (x / 2 ^ 52) (2 ^ 11) ltac:(lia)) as H3.
  pose proof (Z.mod_pos_bound (x / 2 ^ 52) (2 ^ 11) ltac:(lia)) as H4.
  assert (H5 : x / 2 ^ 63 = x / 2 ^ 52 / 2 ^ 11)
    by (rewrite Z.div_div by lia; reflexivity).
  assert (H6 : 0 <= x / 2 ^ 63 < 2).
  { split; [apply Z.div_pos; lia | apply Z.div_lt_upper_bound; lia]. }
  rewrite (Z.mod_small (x / 2 ^ 63) 2) by lia.
  rewrite H5. rewrite H5 in H6. lia.
Qed.

(** Bits of a sum of two fields that do not overlap. *)
Lemma testbit_concat (hi lo n k : Z) :
  0 <= n -> 0 <= lo < 2 ^ n -> 0 <= k ->
  Z.testbit (hi * 2 ^ n + lo) k =
  if k <? n then Z.testbit lo k else Z.testbit hi (k - n).
Proof.
  intros Hn Hlo Hk.
  assert (Hd : (hi * 2 ^ n + lo) / 2 ^ n = hi).
  { rewrite Z.add_comm, Z.div_add, Z.div_small by lia. lia. }
  assert (Hm : (hi * 2 ^ n + lo) mod 2 ^ n = lo).
  { rewrite Z.add_comm, Z.mod_add by lia. apply Z.mod_small; lia. }
  destruct (Z.ltb_spec k n).
  - rewrite <- Hm at 2. rewrite Z.mod_pow2_bits_low by lia. reflexivity.
  - rewrite <- Hd at 2. rewrite Z.div_pow2_bits by lia. f_equal. lia.
Qed.

Lemma land_concat (hi lo mh ml n : Z) :
  0 <= n -> 0 <= lo < 2 ^ n -> 0 <= ml < 2 ^ n ->
  Z.land (hi * 2 ^ n + lo) (mh * 2 ^ n + ml) = Z.land hi mh * 2 ^ n + Z.land lo ml.
Proof.
  intros Hn Hlo Hml.
  assert (Hl : 0 <= Z.land lo ml < 2 ^ n).
  { split; [apply Z.land_nonneg; lia|].
    destruct (Z.eq_dec (Z.land lo ml) 0) as [->|Hz]; [lia|].
    apply Z.log2_lt_pow2; [pose proof (Z.land_nonneg lo ml); lia|].
    eapply Z.le_lt_trans; [apply Z.log2_land; lia|].
    destruct (Z.eq_dec lo 0) as [->|Hz']; [rewrite Z.land_0_l in Hz; lia|].
    apply Z.min_lt_iff. left. apply Z.log2_lt_pow2; lia. }
  apply Z.bits_inj'. intros k Hk.
  rewrite Z.land_spec, !testbit_concat by lia.
  destruct (k <? n); rewrite Z.land_spec; reflexivity.
Qed.

(** Clearing the exponent field keeps the sign and the fraction. *)
Lemma land_exp_clear_mask s be f :
  fp64_fields s be f ->
  Z.land (fp64_pack s be f) fp64_exp_clear_mask = fp64_pack s 0 f.
Proof.
  intros (Hs & Hbe & Hf). unfold fp64_pack.
  change fp64_exp_clear_mask with ((1 * 2 ^ 11 + 0) * 2 ^ 52 + (2 ^ 52 - 1)).
  replace (s * 2 ^ 63 + be * 2 ^ 52 + f) with ((s * 2 ^ 11 + be) * 2 ^ 52 + f) by lia.
  rewrite land_concat by lia.
  rewrite land_concat by lia.
  change (2 ^ 52 - 1) with (Z.ones 52).
  rewrite Z.land_0_r, Z.land_ones, (Z.mod_small f) by lia.
  assert (Z.land s 1 = s) as -> by (assert (s = 0 \/ s = 1) as [-> | ->] by lia; reflexivity).
  lia.
Qed.

Lemma fp64_replace_exponent_pack s be f (e : Z) :
  fp64_fields s be f -> - 1023 <= e <= 1024 ->
  fp64_replace_exponent (fp64_pack s be f) e = fp64_pack s (e + 1023) f.
Proof.
  intros Hf He. unfold fp64_replace_exponent, fp64_get_bits, fp64_from_bits.
  rewrite land_exp_clear_mask by assumption.
  destruct Hf as (Hs & Hbe & Hf).
  unfold Int64.add, FP64_BIAS, FP64_EXP_OFFSET.
  rewrite signed_in_range
    by (unfold Int64.in_range, Int64.INT64_MIN, Int64.INT64_MAX; lia).
  rewrite Z.shiftl_mul_pow2 by lia.
  rewrite (unsigned_in_range (e + 1023)) by lia.
  rewrite (unsigned_in_range ((e + 1023) * 2 ^ 52)) by lia.
  unfold fp64_pack. rewrite unsigned_in_range by lia. lia.
Qed.

Lemma fp64_zero_exponent_pack s be f :
  fp64_fields s be f ->
  fp64_zero_exponent (fp64_pack s be f) = fp64_pack s 1023 f.
Proof.
  intros Hf. unfold fp64_zero_exponent, fp64_get_bits, fp64_from_bits.
  rewrite land_exp_clear_mask by assumption.
  destruct Hf as (Hs & Hbe & Hf).
  change (Int64.unsigned (Z.shiftl FP64_BIAS FP64_EXP_OFFSET)) with (1023 * 2 ^ 52).
  unfold fp64_pack. rewrite unsigned_in_range by lia. lia.
Qed.

Lemma fp64_get_exponent_pack s be f :
  fp64_fields s be f -> fp64_get_exponent (fp64_pack s be f) = be - 1023.
Proof.
  intros Hf. unfold fp64_get_exponent.
  rewrite fp64_get_biased_exponent_pack by assumption.
  destruct Hf as (Hs & Hbe & Hf). unfold Int64.sub, FP64_BIAS.
  rewrite (signed_in_range be)
    by (unfold Int64.in_range, Int64.INT64_MIN, Int64.INT64_MAX; lia).
  apply signed_in_range. unfold Int64.in_range, Int64.INT64_MIN, Int64.INT64_MAX. lia.
Qed.

(** The accessors read the low 64 bits only. *)
Lemma fp64_fields_of (x : fp64_t) :
  fp64_fields (fp64_get_sign x) (fp64_get_biased_exponent x) (fp64_get_fraction x).
Proof.
  rewrite fp64_get_sign_div, fp64_get_biased_exponent_div, fp64_get_fraction_mod.
  unfold fp64_fields.
  pose proof (Z.mod_pos_bound (x / 2 ^ 63) 2).
  pose proof (Z.mod_pos_bound (x / 2 ^ 52) (2 ^ 11)).
  pose proof (Z.mod_pos_bound x (2 ^ 52)). lia.
Qed.

Lemma fp64_low_bits (x : fp64_t) :
  x mod 2 ^ 64 =
  fp64_pack (fp64_get_sign x) (fp64_get_biased_exponent x) (fp64_get_fraction x).
Proof.
  rewrite fp64_get_sign_div, fp64_get_biased_exponent_div, fp64_get_fraction_mod.
  unfold fp64_pack. Z.div_mod_to_equations. lia.
Qed.

Lemma land_exp_clear_mask_fields (x : fp64_t) :
  Z.land x fp64_exp_clear_mask = fp64_pack (fp64_get_sign x) 0 (fp64_get_fraction x).
Proof.
  assert (H : Z.land x fp64_exp_clear_mask = Z.land (x mod 2 ^ 64) fp64_exp_clear_mask).
  { rewrite <- Z.land_ones, <- Z.land_assoc by lia. reflexivity. }
  rewrite H, fp64_low_bits. apply land_exp_clear_mask, fp64_fields_of.
Qed.

Lemma fp64_replace_exponent_fields (x : fp64_t) (e : Z) :
  - 1023 <= e <= 1024 ->
  fp64_replace_exponent x e =
  fp64_pack (fp64_get_sign x) (e + 1023) (fp64_get_fraction x).
Proof.
  intros He. unfold fp64_replace_exponent, fp64_get_bits, fp64_from_bits.
  rewrite land_exp_clear_mask_fields.
  destruct (fp64_fields_of x) as (Hs & _ & Hf).
  unfold Int64.add, FP64_BIAS, FP64_EXP_OFFSET.
  rewrite signed_in_range
    by (unfold Int64.in_range, Int64.INT64_MIN, Int64.INT64_MAX; lia).
  rewrite Z.shiftl_mul_pow2 by lia.
  rewrite (unsigned_in_range (e + 1023)) by lia.
  rewrite (unsigned_in_range ((e + 1023) * 2 ^ 52)) by lia.
  unfold fp64_pack. rewrite unsigned_in_range by lia. lia.
Qed.

Lemma fp64_zero_exponent_fields (x : fp64_t) :
  fp64_zero_exponent x = fp64_pack (fp64_get_sign x) 1023 (fp64_get_fraction x).
Proof.
  unfold fp64_zero_exponent, fp64_get_bits, fp64_from_bits.
  rewrite land_exp_clear_mask_fields.
  destruct (fp64_fields_of x) as (Hs & _ & Hf).
  change (Int64.unsigned (Z.shiftl FP64_BIAS FP64_EXP_OFFSET)) with (1023 * 2 ^ 52).
  unfold fp64_pack. rewrite unsigned_in_range by lia. lia.
Qed.

Lemma fp64_get_exponent_biased (x : fp64_t) :
  fp64_get_exponent x = fp64_get_biased_exponent x - 1023.
Proof.
  unfold fp64_get_exponent.
  destruct (fp64_fields_of x) as (_ & Hbe & _). unfold Int64.sub, FP64_BIAS.
  rewrite (signed_in_range (fp64_get_biased_exponent x))
    by (unfold Int64.in_range, Int64.INT64_MIN, Int64.INT64_MAX; lia).
  apply signed_in_range. unfold Int64.in_range, Int64.INT64_MIN, Int64.INT64_MAX. lia.
Qed.

Lemma fp64_assemble_pack (s e : Z) :
  0 <= s < 2 -> - 1023 <= e <= 1024 ->
  fp64_assemble s e 0 = fp64_pack s (e + 1023) 0.
Proof.
  intros Hs He. unfold fp64_assemble, fp64_from_bits, Int64.add, FP64_BIAS,
    FP64_EXP_OFFSET, FP64_SIGN_OFFSET.
  rewrite signed_in_range
    by (unfold Int64.in_range, Int64.INT64_MIN, Int64.INT64_MAX; lia).
  rewrite !Z.shiftl_mul_pow2 by lia.
  rewrite (unsigned_in_range ((e + 1023) * 2 ^ 52)) by lia.
  rewrite (unsigned_in_range (0 + _)) by lia.
  rewrite (unsigned_in_range (s * 2 ^ 63)) by lia.
  unfold fp64_pack. rewrite unsigned_in_range by lia. lia.
Qed.

Lemma fp64_power2_pack (p : Z) :
  - 1023 < p <= 1024 -> fp64_power2 p = fp64_pack 0 (p + 1023) 0.
Proof.
  intros Hp. unfold fp64_power2. change (- FP64_BIAS) with (-1023).
  destruct (Z.leb_spec p (-1023)); [lia|].
  apply fp64_assemble_pack; lia.
Qed.

Lemma fp64_power2_underflow (p : Z) : p <= - 1023 -> fp64_power2 p = IEEE.zero.
Proof.
  intros Hp. unfold fp64_power2. change (- FP64_BIAS) with (-1023).
  destruct (Z.leb_spec p (-1023)); [reflexivity|lia].
Qed.

(** *** The value of a pattern, by fields *)

Lemma testbit_63 (x : Z) : Z.testbit x 63 = (fp64_get_sign x =? 1).
Proof.
  rewrite fp64_get_sign_div.
  rewrite Z.testbit_eqb by lia. reflexivity.
Qed.

Lemma of_bits_fields (x : fp64_t) :
  IEEE.of_bits x =
  of_fields (fp64_get_sign x) (fp64_get_biased_exponent x) (fp64_get_fraction x).
Proof.
  unfold IEEE.of_bits, of_fields.
  rewrite testbit_63, fp64_get_fraction_mod, Z.land_ones by lia. reflexivity.
Qed.

Lemma of_bits_pack s be f :
  fp64_fields s be f -> IEEE.of_bits (fp64_pack s be f) = of_fields s be f.
Proof.
  intros H. rewrite of_bits_fields, fp64_get_sign_pack,
    fp64_get_biased_exponent_pack, fp64_get_fraction_pack by assumption.
  reflexivity.
Qed.

Lemma of_fields_normal s be f :
  0 < be < 2047 -> 0 <= f < 2 ^ 52 ->
  of_fields s be f = S754_finite (s =? 1) (Z.to_pos (f + 2 ^ 52)) (be - 1075).
Proof.
  intros Hbe Hf. unfold of_fields.
  destruct (Z.eqb_spec be 0); [lia|]. destruct (Z.eqb_spec be 2047); [lia|].
  destruct (f + 2 ^ 52) eqn:E; try lia. reflexivity.
Qed.

(** *** Splitting an exponent *)

Lemma hi_part_6 (x : Z) : hi_part x EXP_BITS = x - x mod 64.
Proof.
  unfold hi_part, EXP_BITS.
  change (Z.shiftl (Z.lnot 0) 6) with (Z.lnot (Z.ones 6)).
  rewrite <- Z.ldiff_land, Z.ldiff_ones_r by lia.
  rewrite Z.shiftl_mul_pow2, Z.shiftr_div_pow2 by lia.
  change (2 ^ 6) with 64. pose proof (Z.div_mod x 64). lia.
Qed.

Lemma lo_part_6 (x : Z) : lo_part x EXP_BITS = x mod 64.
Proof.
  unfold lo_part, EXP_BITS. change (Z.shiftl 1 6 - 1) with (Z.ones 6).
  apply Z.land_ones. lia.
Qed.

Lemma hi_part_mod (x : Z) : hi_part x EXP_BITS mod EXP_MODULUS = 0.
Proof.
  rewrite hi_part_6. change EXP_MODULUS with 64.
  Z.div_mod_to_equations. lia.
Qed.

Lemma lo_part_range (x : Z) : 0 <= lo_part x EXP_BITS < EXP_MODULUS.
Proof. rewrite lo_part_6. apply Z.mod_pos_bound. reflexivity. Qed.

Lemma hi_lo_part (x : Z) : hi_part x EXP_BITS + lo_part x EXP_BITS = x.
Proof. rewrite hi_part_6, lo_part_6. lia. Qed.

(** *** Zero *)

Lemma efp64_is_zero_fields (a : efp64_t) :
  efp64_is_zero a =
  (fp64_get_biased_exponent (fp a) =? 0) && (fp64_get_fraction (fp a) =? 0).
Proof.
  unfold efp64_is_zero, IEEE.eqb. rewrite of_bits_fields.
  destruct (fp64_fields_of (fp a)) as (_ & Hbe & Hf).
  change (IEEE.of_bits IEEE.zero) with (S754_zero false).
  unfold of_fields.
  destruct (Z.eqb_spec (fp64_get_biased_exponent (fp a)) 0).
  - destruct (fp64_get_fraction (fp a)); [reflexivity| |lia].
    cbn. destruct (fp64_get_sign (fp a) =? 1); reflexivity.
  - destruct (Z.eqb_spec (fp64_get_biased_exponent (fp a)) 2047).
    + destruct (fp64_get_fraction (fp a) =? 0); [|reflexivity].
      cbn. destruct (fp64_get_sign (fp a) =? 1); reflexivity.
    + destruct (fp64_get_fraction (fp a) + 2 ^ 52) eqn:E; try reflexivity.
      cbn. destruct (fp64_get_sign (fp a) =? 1); reflexivity.
Qed.

(** *** Full canonicalization *)

Lemma efp64_canonicalize_nonzero (a : efp64_t) :
  efp64_is_zero a = false ->
  efp64_canonicalize a =
  {| fp := fp64_pack (fp64_get_sign (fp a))
             (lo_part (efp64_full_exponent a) EXP_BITS + 1023)
             (fp64_get_fraction (fp a));
     exp := hi_part (efp64_full_exponent a) EXP_BITS |}.
Proof.
  intros Hz. unfold efp64_canonicalize. rewrite Hz.
  pose proof (lo_part_range (efp64_full_exponent a)) as Hlo.
  change EXP_MODULUS with 64 in Hlo.
  rewrite fp64_replace_exponent_fields by lia. reflexivity.
Qed.

Lemma efp64_canonicalize_canonical (a : efp64_t) :
  efp64_is_zero a = false -> efp64_canonical (efp64_canonicalize a).
Proof.
  intros Hz. rewrite efp64_canonicalize_nonzero by assumption.
  pose proof (lo_part_range (efp64_full_exponent a)) as Hlo.
  destruct (fp64_fields_of (fp a)) as (Hs & _ & Hf).
  unfold efp64_canonical; cbn [fp exp]. split.
  - rewrite fp64_get_exponent_biased, fp64_get_biased_exponent_pack.
    + lia.
    + change EXP_MODULUS with 64 in Hlo. unfold fp64_fields. lia.
  - apply hi_part_mod.
Qed.

Lemma efp64_canonicalize_is_zero (a : efp64_t) :
  efp64_is_zero (efp64_canonicalize a) = efp64_is_zero a.
Proof.
  destruct (efp64_is_zero a) eqn:Hz.
  - unfold efp64_canonicalize. rewrite Hz. reflexivity.
  - rewrite efp64_canonicalize_nonzero by assumption.
    pose proof (lo_part_range (efp64_full_exponent a)) as Hlo.
    change EXP_MODULUS with 64 in Hlo.
    destruct (fp64_fields_of (fp a)) as (Hs & _ & Hf).
    rewrite efp64_is_zero_fields; cbn [fp].
    rewrite fp64_get_biased_exponent_pack by (unfold fp64_fields; lia).
    destruct (Z.eqb_spec (lo_part (efp64_full_exponent a) EXP_BITS + 1023) 0); [lia|].
    reflexivity.
Qed.

(** *** Conversion to a double *)

Lemma fp64_infinity_pack (s : Z) : 0 <= s < 2 -> fp64_infinity s = fp64_pack s 2047 0.
Proof.
  intros Hs. unfold fp64_infinity.
  change (Int64.unsigned (FP64_EXP_MASK - FP64_BIAS)) with 1024.
  rewrite fp64_assemble_pack by lia. reflexivity.
Qed.

Lemma efp64_to_fp64_nonzero (a : efp64_t) :
  efp64_is_zero a = false ->
  efp64_to_fp64 a =
  let e := efp64_full_exponent a in
  if e <=? -1023 then IEEE.zero
  else if 1024 <=? e then fp64_pack (fp64_get_sign (fp a)) 2047 0
  else fp64_pack (fp64_get_sign (fp a)) (e + 1023) (fp64_get_fraction (fp a)).
Proof.
  intros Hz. unfold efp64_to_fp64. rewrite Hz. cbv zeta.
  unfold fp64_exponent_below, fp64_exponent_above.
  change (- FP64_BIAS) with (-1023).
  change (Int64.signed FP64_EXP_MASK - FP64_BIAS) with 1024.
  destruct (fp64_fields_of (fp a)) as (Hs & _ & _).
  destruct (Z.leb_spec (efp64_full_exponent a) (-1023)); [reflexivity|].
  rewrite Z.geb_leb.
  destruct (Z.leb_spec 1024 (efp64_full_exponent a)).
  - apply fp64_infinity_pack. assumption.
  - apply fp64_replace_exponent_fields. lia.
Qed.

Lemma efp64_full_exponent_range (a : efp64_t) :
  Int64.in_range (efp64_full_exponent a).
Proof. apply signed_range. Qed.

Lemma efp64_canonicalize_full_exponent (a : efp64_t) :
  efp64_is_zero a = false ->
  efp64_full_exponent (efp64_canonicalize a) = efp64_full_exponent a.
Proof.
  intros Hz. rewrite efp64_canonicalize_nonzero by assumption.
  pose proof (lo_part_range (efp64_full_exponent a)) as Hlo.
  change EXP_MODULUS with 64 in Hlo.
  destruct (fp64_fields_of (fp a)) as (Hs & _ & Hf).
  unfold efp64_full_exponent at 1. cbn [fp exp].
  rewrite fp64_get_exponent_biased, fp64_get_biased_exponent_pack
    by (unfold fp64_fields; lia).
  unfold Int64.add.
  replace (_ + _) with (efp64_full_exponent a)
    by (pose proof (hi_lo_part (efp64_full_exponent a)); lia).
  apply signed_in_range, efp64_full_exponent_range.
Qed.

Lemma eqb_refl_fields s be f :
  fp64_fields s be f -> of_fields s be f <> S754_nan ->
  SFeqb (of_fields s be f) (of_fields s be f) = true.
Proof.
  intros _ Hn. destruct (of_fields s be f) as [b|b| |b m e]; try congruence.
  - reflexivity.
  - destruct b; reflexivity.
  - unfold SFeqb, SFcompare.
    rewrite Z.compare_refl, Pos.compare_cont_refl. destruct b; reflexivity.
Qed.

Lemma isnan_fields (x : fp64_t) :
  IEEE.isnan x = false ->
  fp64_get_biased_exponent x = 2047 -> fp64_get_fraction x = 0.
Proof.
  unfold IEEE.isnan. rewrite of_bits_fields. unfold of_fields. intros H E.
  rewrite E in H. cbn in H. destruct (Z.eqb_spec (fp64_get_fraction x) 0); [assumption|discriminate].
Qed.

Lemma isnan_of_fields (x : fp64_t) :
  IEEE.isnan x = false ->
  of_fields (fp64_get_sign x) (fp64_get_biased_exponent x) (fp64_get_fraction x)
  <> S754_nan.
Proof.
  unfold IEEE.isnan. rewrite of_bits_fields. intros H E. rewrite E in H. discriminate.
Qed.

(** C2 (as amended): a double that is a zero, a normal number or an
    infinity goes through [efp64_from_fp64] and back through
    [efp64_to_fp64] unchanged: the result compares equal to [d], and it is
    the same bit pattern when [d] is not a zero. *)
Theorem efp64_fp64_round_trip (d : fp64_t) :
  fp64_wf d -> IEEE.isnan d = false -> fp64_is_subnormal d = false ->
  IEEE.eqb (efp64_to_fp64 (efp64_from_fp64 d)) d = true
  /\ (IEEE.eqb d IEEE.zero = false -> efp64_to_fp64 (efp64_from_fp64 d) = d).
Proof.
  intros Hwf Hnan Hsub.
  destruct (fp64_unpack d Hwf) as (Hd & Hs & Hbe & Hf).
  pose proof (isnan_fields d Hnan) as Hinf.
  pose proof (isnan_of_fields d Hnan) as Hnn.
  unfold fp64_is_subnormal in Hsub.
  unfold efp64_from_fp64.
  set (a := {| fp := d; exp := 0 |}).
  assert (Hz : efp64_is_zero a = IEEE.eqb d IEEE.zero) by reflexivity.
  rewrite <- Hz.
  destruct (efp64_is_zero a) eqn:Hza.
  - split; [|discriminate].
    unfold efp64_canonicalize. rewrite Hza.
    change (efp64_to_fp64 efp64_zero) with IEEE.zero.
    rewrite efp64_is_zero_fields in Hza. unfold a in Hza. cbn [fp] in Hza.
    apply andb_true_iff in Hza. destruct Hza as (H1 & H2).
    apply Z.eqb_eq in H1, H2.
    unfold IEEE.eqb. rewrite (of_bits_fields d), H1, H2. cbn.
    destruct (fp64_get_sign d =? 1); reflexivity.
  - assert (He : efp64_full_exponent a = fp64_get_biased_exponent d - 1023).
    { unfold efp64_full_exponent, Int64.add, a. cbn [fp exp].
      rewrite fp64_get_exponent_biased. apply signed_in_range.
      unfold Int64.in_range, Int64.INT64_MIN, Int64.INT64_MAX. lia. }
    assert (Hr : efp64_to_fp64 (efp64_canonicalize a) = d).
    { rewrite efp64_to_fp64_nonzero by (rewrite efp64_canonicalize_is_zero; exact Hza).
      cbv zeta. rewrite efp64_canonicalize_full_exponent, He by assumption.
      rewrite efp64_canonicalize_nonzero by assumption. cbn [fp].
      pose proof (lo_part_range (efp64_full_exponent a)) as Hlo.
      change EXP_MODULUS with 64 in Hlo.
      change (fp a) with d.
      rewrite fp64_get_sign_pack, fp64_get_fraction_pack by (unfold fp64_fields; lia).
      rewrite efp64_is_zero_fields in Hza. unfold a in Hza. cbn [fp] in Hza.
      destruct (Z.leb_spec (fp64_get_biased_exponent d - 1023) (-1023)).
      { assert (E : fp64_get_biased_exponent d = 0) by lia.
        rewrite E in Hza, Hsub. cbn in Hza, Hsub. rewrite Hza in Hsub. discriminate. }
      destruct (Z.leb_spec 1024 (fp64_get_biased_exponent d - 1023)).
      { assert (E : fp64_get_biased_exponent d = 2047) by lia.
        transitivity (fp64_pack (fp64_get_sign d) (fp64_get_biased_exponent d)
                        (fp64_get_fraction d)); [|symmetry; exact Hd].
        rewrite E, (Hinf E). reflexivity. }
      replace (fp64_get_biased_exponent d - 1023 + 1023)
        with (fp64_get_biased_exponent d) by lia.
      symmetry; exact Hd. }
    rewrite Hr. split; [|reflexivity].
    unfold IEEE.eqb. rewrite of_bits_fields.
    apply eqb_refl_fields; [unfold fp64_fields; auto | assumption].
Qed.

Lemma efp64_fp64_round_trip_witness :
  IEEE.eqb (efp64_to_fp64 (efp64_from_fp64 IEEE.one)) IEEE.one = true
  /\ (IEEE.eqb IEEE.one IEEE.zero = false ->
      efp64_to_fp64 (efp64_from_fp64 IEEE.one) = IEEE.one).
Proof.
  apply (efp64_fp64_round_trip IEEE.one).
  - unfold fp64_wf, IEEE.one. lia.
  - reflexivity.
  - reflexivity.
Defined.

(** C2 (as stated) fails on subnormal doubles: the smallest positive
    double, of bit pattern 1, comes back as zero. *)
Lemma efp64_fp64_round_trip_subnormal :
  ~ (forall d : fp64_t, fp64_wf d -> IEEE.isnan d = false ->
       IEEE.eqb (efp64_to_fp64 (efp64_from_fp64 d)) d = true).
Proof.
  intros H. specialize (H 1).
  assert (E : IEEE.eqb (efp64_to_fp64 (efp64_from_fp64 1)) 1 = false) by reflexivity.
  rewrite H in E; [discriminate| |reflexivity].
  unfold fp64_wf. lia.
Qed.

(** C4 (as amended): a zero value and a value whose full exponent lies
    below the range of a double convert to the positive zero, whatever the
    sign of the value; a non-zero value whose full exponent lies above the
    range converts to the infinity of its sign. *)
Theorem efp64_to_fp64_out_of_range (a : efp64_t) :
  (efp64_is_zero a = true \/ fp64_exponent_below (efp64_full_exponent a) = true ->
   efp64_to_fp64 a = IEEE.zero)
  /\ (efp64_is_zero a = false ->
      fp64_exponent_above (efp64_full_exponent a) = true ->
      efp64_to_fp64 a = fp64_infinity (fp64_get_sign (fp a))
      /\ IEEE.of_bits (efp64_to_fp64 a) = S754_infinity (fp64_get_sign (fp a) =? 1)).
Proof.
  split.
  - intros H. unfold efp64_to_fp64.
    destruct (efp64_is_zero a); [reflexivity|].
    destruct H as [H | H]; [discriminate|]. rewrite H. reflexivity.
  - intros Hz Ha.
    destruct (fp64_fields_of (fp a)) as (Hs & _ & _).
    assert (E : efp64_to_fp64 a = fp64_infinity (fp64_get_sign (fp a))).
    { unfold efp64_to_fp64. rewrite Hz, Ha.
      unfold fp64_exponent_above in Ha. unfold fp64_exponent_below.
      change (Int64.signed FP64_EXP_MASK - FP64_BIAS) with 1024 in Ha.
      change (- FP64_BIAS) with (-1023).
      destruct (Z.leb_spec (efp64_full_exponent a) (-1023)); [|reflexivity].
      rewrite Z.geb_leb in Ha. apply Z.leb_le in Ha. lia. }
    split; [exact E|].
    rewrite E, fp64_infinity_pack, of_bits_pack by (unfold fp64_fields; lia).
    reflexivity.
Qed.

Lemma efp64_to_fp64_out_of_range_witness :
  efp64_to_fp64 {| fp := IEEE.minus_one; exp := -2048 |} = IEEE.zero
  /\ IEEE.of_bits (efp64_to_fp64 {| fp := IEEE.minus_one; exp := 2048 |})
     = S754_infinity true.
Proof.
  split.
  - apply (proj1 (efp64_to_fp64_out_of_range {| fp := IEEE.minus_one; exp := -2048 |})).
    right. reflexivity.
  - apply (proj2 (efp64_to_fp64_out_of_range {| fp := IEEE.minus_one; exp := 2048 |}));
      reflexivity.
Defined.

(** C4 (as stated) fails on underflow of a negative value: -1 * 2^-2048
    has a full exponent below the range and sign 1, and converts to the
    zero of sign 0. *)
Lemma efp64_to_fp64_underflow_sign :
  let a := {| fp := IEEE.minus_one; exp := -2048 |} in
  efp64_is_zero a = false
  /\ fp64_exponent_below (efp64_full_exponent a) = true
  /\ fp64_get_sign (fp a) = 1
  /\ IEEE.of_bits (efp64_to_fp64 a) = S754_zero false
  /\ fp64_get_sign (efp64_to_fp64 a) = 0.
Proof. repeat split. Qed.

(** *** Comparison with zero *)

Lemma SFltb_zero_asym (x : spec_float) :
  SFltb (S754_zero false) x = true -> SFltb x (S754_zero false) = false.
Proof. destruct x as [s|s| |s m e]; try destruct s; cbn; congruence. Qed.

Lemma ZEXP_value : ZEXP = - 2 ^ 62.
Proof. reflexivity. Qed.

Lemma efp64_from_fp64_exp (d : fp64_t) :
  efp64_is_zero (efp64_from_fp64 d) = false -> ZEXP < exp (efp64_from_fp64 d).
Proof.
  unfold efp64_from_fp64. rewrite efp64_canonicalize_is_zero. intros Hz.
  rewrite efp64_canonicalize_nonzero by assumption. cbn [exp].
  unfold efp64_full_exponent, Int64.add. cbn [fp exp].
  rewrite fp64_get_exponent_biased.
  destruct (fp64_fields_of d) as (_ & Hbe & _).
  rewrite signed_in_range
    by (unfold Int64.in_range, Int64.INT64_MIN, Int64.INT64_MAX; lia).
  rewrite hi_part_6, ZEXP_value.
  pose proof (Z.mod_pos_bound (0 + (fp64_get_biased_exponent d - 1023)) 64). lia.
Qed.

(** C6 (as amended): the exponent of the canonical zero is the sentinel
    [ZEXP = -2^62], a multiple of the window width and below the exponent
    of every non-zero value built from a double; [efp64_cmp] puts the
    canonical zero below every value of positive significand whose [exp]
    is not below the sentinel, and above every value of negative
    significand. *)
Theorem efp64_cmp_zero (b : efp64_t) :
  (exp efp64_zero = - 2 ^ 62 /\ exp efp64_zero mod EXP_MODULUS = 0)
  /\ (forall d : fp64_t,
        efp64_is_zero (efp64_from_fp64 d) = false -> ZEXP < exp (efp64_from_fp64 d))
  /\ (IEEE.ltb IEEE.zero (fp b) = true -> ZEXP <= exp b ->
      efp64_cmp efp64_zero b = -1)
  /\ (IEEE.ltb (fp b) IEEE.zero = true -> efp64_cmp efp64_zero b = 1).
Proof.
  split; [split; vm_compute; reflexivity|].
  split; [exact efp64_from_fp64_exp|]. split.
  - intros Hpos Hexp. unfold efp64_cmp.
    change (IEEE.ltb (fp efp64_zero) IEEE.zero) with false.
    assert (Hneg : IEEE.ltb (fp b) IEEE.zero = false)
      by (apply SFltb_zero_asym, Hpos).
    rewrite Hneg. cbn [andb negb exp fp efp64_zero].
    destruct (Z.gtb_spec ZEXP (exp b)); [lia|].
    destruct (ZEXP <? exp b); [reflexivity|].
    rewrite Hpos. reflexivity.
  - intros Hneg. unfold efp64_cmp.
    change (IEEE.ltb (fp efp64_zero) IEEE.zero) with false.
    rewrite Hneg. reflexivity.
Qed.

Lemma efp64_cmp_zero_witness :
  efp64_cmp efp64_zero (efp64_from_fp64 IEEE.one) = -1
  /\ efp64_cmp efp64_zero (efp64_from_fp64 IEEE.minus_one) = 1.
Proof.
  split.
  - apply (proj1 (proj2 (proj2 (efp64_cmp_zero (efp64_from_fp64 IEEE.one))))).
    + vm_compute; reflexivity.
    + vm_compute. discriminate.
  - apply (proj2 (proj2 (proj2 (efp64_cmp_zero (efp64_from_fp64 IEEE.minus_one))))).
    vm_compute; reflexivity.
Defined.

(** C6 (as stated) fails on negative values: zero compares above -1. *)
Lemma efp64_cmp_zero_negative :
  ~ (forall b : efp64_t, efp64_is_zero b = false -> efp64_cmp efp64_zero b = -1).
Proof.
  intros H. specialize (H (efp64_from_fp64 IEEE.minus_one)).
  assert (E : efp64_cmp efp64_zero (efp64_from_fp64 IEEE.minus_one) = 1)
    by (vm_compute; reflexivity).
  rewrite H in E; [discriminate|]. vm_compute; reflexivity.
Qed.

(** *** Square root *)

Lemma of_fields_sign (s be f : Z) :
  match of_fields s be f with
  | S754_zero b | S754_infinity b | S754_finite b _ _ => b = (s =? 1)
  | S754_nan => True
  end.
Proof.
  unfold of_fields.
  destruct (be =? 0).
  - destruct f; reflexivity.
  - destruct (be =? 2047).
    + destruct (f =? 0); [reflexivity|exact I].
    + destruct (f + 2 ^ 52); [exact I|reflexivity|exact I].
Qed.

Lemma sign_set_nonpositive (x : fp64_t) :
  fp64_get_sign x = 1 -> IEEE.isnan x = false ->
  IEEE.eqb x IEEE.zero = true \/ IEEE.ltb x IEEE.zero = true.
Proof.
  unfold IEEE.isnan, IEEE.eqb, IEEE.ltb. rewrite of_bits_fields. intros Hs Hn.
  change (IEEE.of_bits IEEE.zero) with (S754_zero false).
  pose proof (of_fields_sign (fp64_get_sign x) (fp64_get_biased_exponent x)
                (fp64_get_fraction x)) as Hb.
  rewrite Hs in Hb, Hn |- *. change (1 =? 1) with true in Hb.
  destruct (of_fields _ _ _) as [s|s| |s m e].
  - left; reflexivity.
  - right. rewrite Hb. reflexivity.
  - discriminate.
  - right. rewrite Hb. reflexivity.
Qed.

(** C9: the square root of a zero and of a value of negative significand
    (the sign bit set on a significand that is not a NaN, that is
    [a.fp < 0] or [a.fp] is the negative zero) is the canonical zero, of
    significand [0.0] and exponent [ZEXP]: no NaN, no error. *)
Theorem efp64_sqrt_nonpositive (a : efp64_t) :
  efp64_is_zero a = true
  \/ IEEE.ltb (fp a) IEEE.zero = true
  \/ (fp64_get_sign (fp a) = 1 /\ IEEE.isnan (fp a) = false) ->
  efp64_sqrt a = efp64_zero
  /\ fp (efp64_sqrt a) = IEEE.zero
  /\ exp (efp64_sqrt a) = ZEXP
  /\ IEEE.isnan (fp (efp64_sqrt a)) = false.
Proof.
  intros H.
  assert (E : efp64_is_zero a || IEEE.ltb (fp a) IEEE.zero = true).
  { apply orb_true_iff. destruct H as [H | [H | [Hs Hn]]].
    - left; exact H.
    - right; exact H.
    - unfold efp64_is_zero. apply (sign_set_nonpositive (fp a) Hs Hn). }
  assert (R : efp64_sqrt a = efp64_zero) by (unfold efp64_sqrt; rewrite E; reflexivity).
  rewrite R. split; [reflexivity|]. split; [reflexivity|].
  split; [reflexivity | vm_compute; reflexivity].
Qed.

Lemma efp64_sqrt_nonpositive_witness :
  efp64_sqrt (efp64_from_fp64 IEEE.minus_one) = efp64_zero
  /\ fp (efp64_sqrt (efp64_from_fp64 IEEE.minus_one)) = IEEE.zero
  /\ exp (efp64_sqrt (efp64_from_fp64 IEEE.minus_one)) = ZEXP
  /\ IEEE.isnan (fp (efp64_sqrt (efp64_from_fp64 IEEE.minus_one))) = false.
Proof.
  apply (efp64_sqrt_nonpositive (efp64_from_fp64 IEEE.minus_one)).
  right. right. split; vm_compute; reflexivity.
Defined.

(** *** Zeros of different encodings *)

(** C5 at the failing inputs: [1 + (-1)] and [0 * 2^64] are zeros whose
    exponent is not the sentinel; [efp64_is_equal] holds them equal to the
    canonical zero, [efp64_cmp] orders them, and orders the first above
    the positive value [2^-100]. *)
Lemma efp64_cmp_zero_encodings :
  let z := efp64_add (efp64_from_fp64 IEEE.one) (efp64_from_fp64 IEEE.minus_one) in
  let z' := efp64_mul efp64_zero (efp64_from_fp64 (fp64_power2 64)) in
  (z = {| fp := IEEE.zero; exp := -64 |} /\ z' = {| fp := IEEE.zero; exp := ZEXP + 64 |})
  /\ (efp64_is_zero z = true /\ efp64_is_zero z' = true
      /\ efp64_is_zero efp64_zero = true)
  /\ (efp64_is_equal efp64_zero z = true /\ efp64_is_equal efp64_zero z' = true)
  /\ (efp64_cmp efp64_zero z = -1 /\ efp64_cmp z efp64_zero = 1)
  /\ (efp64_cmp efp64_zero z' = -1 /\ efp64_cmp z' efp64_zero = 1)
  /\ efp64_cmp z (efp64_from_fp64 (fp64_power2 (-100))) = 1.
Proof. vm_compute. repeat split. Qed.

(** *** Overflow in the four-way product *)

(** C3 at the failing input: seventeen copies of [2^63], each valid and
    canonical.  The loop of [efp64_mul_seq_x4] runs three rounds, so that
    no canonicalization takes place, and the product of the four
    accumulators and of the last element overflows: the accumulator is
    infinite before the last canonicalization, and the result is [2^1024]
    where the other two algorithms give [2^1071]. *)
Lemma efp64_mul_seq_x4_overflow :
  let v := efp64_from_fp64 (fp64_power2 63) in
  let val := repeat v 17 in
  (efp64_is_valid v = true /\ efp64_canonical v)
  /\ option_map efp64_is_valid (efp64_mul_seq_x4_acc val) = Some false
  /\ option_map (fun r => IEEE.isinf (fp r)) (efp64_mul_seq_x4_acc val) = Some true
  /\ efp64_mul_seq val = Some {| fp := IEEE.one; exp := 1024 |}
  /\ efp64_mul_seq_x1 val = {| fp := fp64_power2 47; exp := 1024 |}
  /\ efp64_mul_seq_slow val = {| fp := fp64_power2 47; exp := 1024 |}.
Proof.
  cbv zeta. split; [split|].
  - vm_compute; reflexivity.
  - unfold efp64_canonical.
    replace (fp64_get_exponent (fp (efp64_from_fp64 (fp64_power2 63)))) with 63
      by (vm_compute; reflexivity).
    replace (exp (efp64_from_fp64 (fp64_power2 63))) with 0 by (vm_compute; reflexivity).
    change EXP_MODULUS with 64. split; [lia|reflexivity].
  - vm_compute. repeat split.
Qed.


(** ** Values and patterns *)

Lemma sign_bit_eqb (s : Z) : 0 <= s < 2 -> IEEE.sign_bit (s =? 1) = s * 2 ^ 63.
Proof.
  intros H. assert (s = 0 \/ s = 1) as [-> | ->] by lia; reflexivity.
Qed.

Lemma to_bits_of_fields s be f :
  fp64_fields s be f -> of_fields s be f <> S754_nan ->
  IEEE.to_bits (of_fields s be f) = fp64_pack s be f.
Proof.
  intros (Hs & Hbe & Hf) Hn. unfold of_fields in *. unfold fp64_pack.
  destruct (Z.eqb_spec be 0) as [-> | Hbe0].
  - destruct f as [|m|m]; cbn [IEEE.to_bits]; try lia.
    + rewrite sign_bit_eqb by lia. lia.
    + destruct (Z.ltb_spec (Z.pos m) (2 ^ 52)); [|lia].
      rewrite sign_bit_eqb by lia. lia.
  - destruct (Z.eqb_spec be 2047) as [-> | Hbe1].
    + destruct (Z.eqb_spec f 0) as [-> | Hf0]; [|congruence].
      cbn [IEEE.to_bits]. rewrite sign_bit_eqb by lia. lia.
    + destruct (f + 2 ^ 52) as [|m|m] eqn:E; try lia.
      cbn [IEEE.to_bits].
      destruct (Z.ltb_spec (Z.pos m) (2 ^ 52)); [lia|].
      rewrite sign_bit_eqb by lia. lia.
Qed.

(** A pattern that is not a NaN is the pattern of its value. *)
Lemma to_bits_of_bits (x : fp64_t) :
  fp64_wf x -> IEEE.isnan x = false -> IEEE.to_bits (IEEE.of_bits x) = x.
Proof.
  intros Hwf Hn. destruct (fp64_unpack x Hwf) as (Hx & Hf).
  rewrite of_bits_fields, to_bits_of_fields; auto using isnan_of_fields.
Qed.

(** *** Canonical significands *)

(** The significand of a canonical value, by fields. *)
Lemma efp64_canonical_fields (a : efp64_t) :
  efp64_canonical a ->
  1023 <= fp64_get_biased_exponent (fp a) < 1087.
Proof.
  intros (He & _). rewrite fp64_get_exponent_biased in He.
  change EXP_MODULUS with 64 in He. lia.
Qed.

Lemma efp64_canonical_of_bits (a : efp64_t) :
  efp64_canonical a ->
  IEEE.of_bits (fp a) =
  S754_finite (fp64_get_sign (fp a) =? 1)
    (Z.to_pos (fp64_get_fraction (fp a) + 2 ^ 52))
    (fp64_get_biased_exponent (fp a) - 1075).
Proof.
  intros Hc. pose proof (efp64_canonical_fields a Hc).
  destruct (fp64_fields_of (fp a)) as (_ & _ & Hf).
  rewrite of_bits_fields. apply of_fields_normal; lia.
Qed.

Lemma efp64_canonical_not_nan (a : efp64_t) :
  efp64_canonical a -> IEEE.isnan (fp a) = false.
Proof.
  intros Hc. unfold IEEE.isnan. rewrite efp64_canonical_of_bits by assumption.
  reflexivity.
Qed.

Lemma efp64_canonical_valid (a : efp64_t) :
  efp64_canonical a -> efp64_is_valid a = true.
Proof.
  intros Hc. unfold efp64_is_valid, IEEE.isnan, IEEE.isinf.
  rewrite efp64_canonical_of_bits by assumption. reflexivity.
Qed.

Lemma efp64_canonical_nonzero (a : efp64_t) :
  efp64_canonical a -> efp64_is_zero a = false.
Proof.
  intros Hc. pose proof (efp64_canonical_fields a Hc).
  rewrite efp64_is_zero_fields.
  destruct (Z.eqb_spec (fp64_get_biased_exponent (fp a)) 0); [lia|reflexivity].
Qed.

Lemma fabs_fields (x : fp64_t) :
  IEEE.of_bits (IEEE.fabs x) =
  of_fields 0 (fp64_get_biased_exponent x) (fp64_get_fraction x).
Proof.
  unfold IEEE.fabs. rewrite Z.land_ones by lia.
  destruct (fp64_fields_of x) as (Hs & Hbe & Hf).
  assert (E : x mod 2 ^ 63 =
              fp64_pack 0 (fp64_get_biased_exponent x) (fp64_get_fraction x)).
  { rewrite fp64_get_biased_exponent_div, fp64_get_fraction_mod.
    unfold fp64_pack. Z.div_mod_to_equations. lia. }
  rewrite E. apply of_bits_pack. unfold fp64_fields. lia.
Qed.

Lemma of_bits_one :
  IEEE.of_bits IEEE.one = S754_finite false 4503599627370496 (-52).
Proof. vm_compute; reflexivity. Qed.

Lemma of_bits_power2_64 :
  IEEE.of_bits (fp64_power2 EXP_MODULUS) = S754_finite false 4503599627370496 12.
Proof. vm_compute; reflexivity. Qed.

Lemma of_bits_power2_m64 :
  IEEE.of_bits (fp64_power2 (- EXP_MODULUS)) = S754_finite false 4503599627370496 (-116).
Proof. vm_compute; reflexivity. Qed.

(** The magnitude of a canonical significand lies in [1, 2^64). *)
Lemma efp64_canonical_window (a : efp64_t) :
  efp64_canonical a ->
  IEEE.ltb (IEEE.fabs (fp a)) IEEE.one = false
  /\ IEEE.geb (IEEE.fabs (fp a)) (fp64_power2 EXP_MODULUS) = false.
Proof.
  intros Hc. pose proof (efp64_canonical_fields a Hc) as Hbe.
  destruct (fp64_fields_of (fp a)) as (_ & _ & Hf).
  unfold IEEE.ltb, IEEE.geb, IEEE.leb.
  rewrite of_bits_one, of_bits_power2_64.
  rewrite fabs_fields. rewrite of_fields_normal by lia.
  change (0 =? 1) with false.
  unfold SFltb, SFleb, SFcompare. split.
  - destruct (Z.compare_spec (fp64_get_biased_exponent (fp a) - 1075) (-52)) as [E|E|E].
    + destruct (Pos.compare_cont Eq _ _) eqn:C; try reflexivity.
     
      assert (C' : (Z.to_pos (fp64_get_fraction (fp a) + 2 ^ 52) < 4503599627370496)%positive)
        by exact C.
     
      apply Pos2Z.pos_lt_pos in C'.
      
      rewrite Z2Pos.id in C' by lia. lia.
    + lia.
    + reflexivity.
  - destruct (Z.compare_spec 12 (fp64_get_biased_exponent (fp a) - 1075)) as [E|E|E].
    + lia.
    + lia.
    + reflexivity.
Qed.

Lemma efp64_quick_canonicalize_canonical (a : efp64_t) :
  efp64_canonical a -> efp64_quick_canonicalize a = a.
Proof.
  intros Hc. destruct (efp64_canonical_window a Hc) as (H1 & H2).
  unfold efp64_quick_canonicalize. rewrite H1, H2. reflexivity.
Qed.

(** *** Addition of values far apart *)

Lemma fma_zero_factor (x z : fp64_t) :
  fp64_wf z ->
  IEEE.isnan x = false -> IEEE.isinf x = false ->
  (exists s m e, IEEE.of_bits z = S754_finite s m e) ->
  IEEE.fma x IEEE.zero z = z.
Proof.
  intros Hwf Hn Hi (s & m & e & Hz). unfold IEEE.fma.
  change (IEEE.of_bits IEEE.zero) with (S754_zero false).
  assert (Hp : exists sp, IEEE.exact_mul (IEEE.of_bits x) (S754_zero false) = IEEE.P_zero sp).
  { unfold IEEE.isnan in Hn. unfold IEEE.isinf in Hi.
    destruct (IEEE.of_bits x); try discriminate; eexists; reflexivity. }
  destruct Hp as (sp & Hp). unfold IEEE.SFfma. rewrite Hp, Hz, <- Hz.
  apply to_bits_of_bits; [assumption|].
  unfold IEEE.isnan. rewrite Hz. reflexivity.
Qed.

Lemma efp64_add_far (a b : efp64_t) :
  efp64_wf a -> efp64_canonical a -> efp64_is_valid b = true ->
  Int64.in_range (exp b - exp a) -> 1023 <= exp a - exp b ->
  efp64_add a b = a /\ efp64_add b a = a.
Proof.
  intros (Hwf & _) Hca Hvb Hr Hd.
  assert (Hp : fp64_power2 (Int64.sub (exp b) (exp a)) = IEEE.zero).
  { apply fp64_power2_underflow. unfold Int64.sub. rewrite signed_in_range by assumption. lia. }
  assert (Hf : IEEE.fma (fp b) IEEE.zero (fp a) = fp a).
  { unfold efp64_is_valid in Hvb. apply andb_true_iff in Hvb. destruct Hvb as (H1 & H2).
    apply negb_true_iff in H1, H2.
    apply fma_zero_factor; try assumption.
    rewrite efp64_canonical_of_bits by assumption. eauto. }
  assert (Hq : efp64_quick_canonicalize {| fp := fp a; exp := exp a |} = a).
  { destruct a as [fa ea]. apply efp64_quick_canonicalize_canonical, Hca. }
  unfold efp64_add. split.
  - destruct (Z.gtb_spec (exp a) (exp b)); [|lia]. rewrite Hp, Hf. exact Hq.
  - destruct (Z.gtb_spec (exp b) (exp a)); [lia|]. rewrite Hp, Hf. exact Hq.
Qed.

(** C10 (amended): when the exponents of two canonical values differ by
    1024 or more and their difference is an [int64_t], the scale factor
    of the alignment underflows to zero and the sum is the value of the
    larger exponent, bit for bit, whichever way round the operands are
    given. *)
Theorem efp64_add_absorbs (a b : efp64_t) :
  efp64_wf a -> efp64_wf b ->
  efp64_canonical a -> efp64_canonical b ->
  1024 <= exp a - exp b ->
  Int64.in_range (exp b - exp a) ->
  fp64_power2 (Int64.sub (exp b) (exp a)) = IEEE.zero
  /\ efp64_add a b = a
  /\ efp64_add b a = a.
Proof.
  intros Hwa Hwb Hca Hcb Hd Hr. split.
  - apply fp64_power2_underflow. unfold Int64.sub.
    rewrite signed_in_range by assumption. lia.
  - apply efp64_add_far; auto using efp64_canonical_valid. lia.
Qed.

Lemma efp64_add_absorbs_witness :
  let a := {| fp := IEEE.two; exp := 1024 |} in
  let b := {| fp := IEEE.minus_one; exp := 0 |} in
  fp64_power2 (Int64.sub (exp b) (exp a)) = IEEE.zero
  /\ efp64_add a b = a
  /\ efp64_add b a = a.
Proof.
  apply (efp64_add_absorbs {| fp := IEEE.two; exp := 1024 |}
           {| fp := IEEE.minus_one; exp := 0 |}).
  all: by_evaluation.
Defined.

(** C10 (as stated) fails where the difference of the exponents leaves
    [int64_t]: between [2^62] and [-2^62 - 64] it wraps around to
    [2^63 - 64], the scale factor is [2^-64] and not zero, and
    [1.0 * 2^(2^62)] plus [2^63 * 2^(-2^62 - 64)] is returned as
    [1.5 * 2^(2^62)]. *)
Lemma efp64_add_absorbs_wrap :
  ~ (forall a b : efp64_t,
       efp64_wf a -> efp64_wf b ->
       efp64_canonical a -> efp64_canonical b ->
       efp64_is_zero a = false -> efp64_is_zero b = false ->
       1024 <= exp a - exp b ->
       efp64_add a b = a).
Proof.
  intros H.
  specialize (H {| fp := IEEE.one; exp := 2 ^ 62 |}
                {| fp := fp64_power2 63; exp := - 2 ^ 62 - 64 |}).
  assert (E : efp64_add {| fp := IEEE.one; exp := 2 ^ 62 |}
                {| fp := fp64_power2 63; exp := - 2 ^ 62 - 64 |}
              = {| fp := 4609434218613702656; exp := 2 ^ 62 |})
    by (vm_compute; reflexivity).
  rewrite E in H.
  assert (Hab : {| fp := 4609434218613702656; exp := 2 ^ 62 |}
                = {| fp := IEEE.one; exp := 2 ^ 62 |})
    by (apply H; by_evaluation).
  discriminate Hab.
Qed.

(** ** Rounding to nearest

    What [SpecFloat] computes when it rounds, in terms of integer
    division. *)

Lemma digits2_pos_spec (m : positive) :
  2 ^ (Z.pos (digits2_pos m) - 1) <= Z.pos m < 2 ^ Z.pos (digits2_pos m).
Proof.
  induction m as [p IH | p IH |]; cbn [digits2_pos].
  - rewrite Pos2Z.inj_succ, (Pos2Z.inj_xI p).
    replace (Z.succ (Z.pos (digits2_pos p)) - 1) with (Z.succ (Z.pos (digits2_pos p) - 1)) by lia.
    rewrite !Z.pow_succ_r by lia. lia.
  - rewrite Pos2Z.inj_succ, (Pos2Z.inj_xO p).
    replace (Z.succ (Z.pos (digits2_pos p)) - 1) with (Z.succ (Z.pos (digits2_pos p) - 1)) by lia.
    rewrite !Z.pow_succ_r by lia. lia.
  - split; [vm_compute; discriminate | reflexivity].
Qed.

Lemma Zdigits2_spec (m : Z) :
  0 < m -> 2 ^ (Zdigits2 m - 1) <= m < 2 ^ Zdigits2 m.
Proof.
  intros H. destruct m as [|p|p]; try lia. apply digits2_pos_spec.
Qed.

Lemma Zdigits2_pos (m : Z) : 0 < m -> 0 < Zdigits2 m.
Proof. intros H. destruct m; try lia. reflexivity. Qed.

Lemma Zdigits2_unique (m d : Z) :
  2 ^ (d - 1) <= m < 2 ^ d -> 0 < d -> Zdigits2 m = d.
Proof.
  intros H Hd.
  assert (Hm : 0 < m) by (pose proof (Z.pow_pos_nonneg 2 (d - 1)); lia).
  pose proof (Zdigits2_spec m Hm) as H'. pose proof (Zdigits2_pos m Hm) as Hp.
  destruct (Z.lt_trichotomy (Zdigits2 m) d) as [L | [E | L]]; [|exact E|].
  - assert (2 ^ Zdigits2 m <= 2 ^ (d - 1)) by (apply Z.pow_le_mono_r; lia). lia.
  - assert (2 ^ d <= 2 ^ (Zdigits2 m - 1)) by (apply Z.pow_le_mono_r; lia). lia.
Qed.

Lemma iter_pos_nat {A : Type} (f : A -> A) (p : positive) (x : A) :
  iter_pos f p x = Nat.iter (Pos.to_nat p) f x.
Proof.
  revert x. induction p as [p IH | p IH |]; intros x; cbn [iter_pos].
  - rewrite !IH, Pos2Nat.inj_xI.
    replace (S (2 * Pos.to_nat p)) with (S (Pos.to_nat p + Pos.to_nat p)) by lia.
    rewrite Nat.iter_succ_r, Nat.iter_add. reflexivity.
  - rewrite !IH, Pos2Nat.inj_xO.
    replace (2 * Pos.to_nat p)%nat with (Pos.to_nat p + Pos.to_nat p)%nat by lia.
    rewrite Nat.iter_add. reflexivity.
  - reflexivity.
Qed.

Lemma shr_1_spec (m : Z) (r s : bool) :
  0 <= m ->
  shr_1 {| shr_m := m; shr_r := r; shr_s := s |} =
  {| shr_m := m / 2; shr_r := Z.odd m; shr_s := r || s |}.
Proof.
  intros Hm. destruct m as [|p|p]; [reflexivity| |lia].
  destruct p as [p|p|]; cbn [shr_1].
  - f_equal. rewrite (Pos2Z.inj_xI p). symmetry. rewrite Z.mul_comm, Z.add_comm.
    rewrite Z.div_add by lia. reflexivity.
  - f_equal. rewrite (Pos2Z.inj_xO p). symmetry. rewrite Z.mul_comm.
    apply Z.div_mul. lia.
  - reflexivity.
Qed.

Lemma shr_1_m (mrs : shr_record) :
  0 <= shr_m mrs -> shr_m (shr_1 mrs) = shr_m mrs / 2.
Proof.
  destruct mrs as [m r s]. cbn [shr_m]. intros Hm.
  rewrite shr_1_spec by assumption. reflexivity.
Qed.

(** [n] shifts divide the mantissa by [2^n]. *)
Lemma iter_shr_1_m (n : nat) (mrs : shr_record) :
  0 <= shr_m mrs ->
  shr_m (Nat.iter n shr_1 mrs) = shr_m mrs / 2 ^ Z.of_nat n.
Proof.
  intros Hm. induction n as [|n IH].
  - cbn. rewrite Z.div_1_r. reflexivity.
  - rewrite Nat.iter_succ.
    assert (Hp : 0 < 2 ^ Z.of_nat n) by (apply Z.pow_pos_nonneg; lia).
    rewrite shr_1_m by (rewrite IH; apply Z.div_pos; lia).
    rewrite IH, Nat2Z.inj_succ, Z.pow_succ_r by lia.
    rewrite Z.div_div by lia.
    f_equal. lia.
Qed.

(** Shifting out zeros leaves an exact record. *)
Lemma iter_shr_1_exact (n : nat) (m : Z) :
  0 <= m -> m mod 2 ^ Z.of_nat n = 0 ->
  Nat.iter n shr_1 {| shr_m := m; shr_r := false; shr_s := false |} =
  {| shr_m := m / 2 ^ Z.of_nat n; shr_r := false; shr_s := false |}.
Proof.
  intros Hm. induction n as [|n IH]; intros Hmod.
  - cbn. rewrite Z.div_1_r. reflexivity.
  - rewrite Nat2Z.inj_succ, Z.pow_succ_r in Hmod by lia.
    assert (Hp : 0 < 2 ^ Z.of_nat n) by (apply Z.pow_pos_nonneg; lia).
    replace (2 * 2 ^ Z.of_nat n) with (2 ^ Z.of_nat n * 2) in Hmod by lia.
    rewrite Z.rem_mul_r in Hmod by lia.
    pose proof (Z.mod_pos_bound m (2 ^ Z.of_nat n) Hp) as B1.
    pose proof (Z.mod_pos_bound (m / 2 ^ Z.of_nat n) 2 ltac:(lia)) as B2.
    assert (H1 : m mod 2 ^ Z.of_nat n = 0) by nia.
    assert (H2 : (m / 2 ^ Z.of_nat n) mod 2 = 0) by nia.
    rewrite Nat.iter_succ, IH by assumption.
    rewrite shr_1_spec by (apply Z.div_pos; lia).
    rewrite Nat2Z.inj_succ, Z.pow_succ_r by lia.
    rewrite Z.div_div by lia.
    replace (2 ^ Z.of_nat n * 2) with (2 * 2 ^ Z.of_nat n) by lia.
    f_equal.
    rewrite <- Z.negb_even, Zeven_mod, H2. reflexivity.
Qed.

Lemma fexp_normal (x : Z) :
  - 1074 <= x - 53 -> fexp IEEE.prec IEEE.emax x = x - 53.
Proof.
  intros H. unfold fexp, emin, IEEE.prec, IEEE.emax. lia.
Qed.

Lemma shr_record_of_loc_m (m : Z) (l : location) :
  shr_m (shr_record_of_loc m l) = m.
Proof. destruct l as [|[| |]]; reflexivity. Qed.

Lemma round_nearest_even_cases (q : Z) (l : location) :
  round_nearest_even q l = q \/ round_nearest_even q l = q + 1.
Proof.
  destruct l as [|[| |]]; cbn [round_nearest_even]; auto.
  destruct (Z.even q); auto.
Qed.

(** The first shift of [binary_round_aux] on a mantissa of [d >= 53]
    digits, in the normal range: [d - 53] bits go. *)
Lemma shr_fexp_normal (m e : Z) (l : location) (d : Z) :
  0 < m -> Zdigits2 m = d -> 53 <= d -> - 1074 <= e + d - 53 ->
  exists mrs,
    shr_fexp IEEE.prec IEEE.emax m e l = (mrs, e + d - 53)
    /\ shr_m mrs = m / 2 ^ (d - 53)
    /\ (l = loc_Exact -> m mod 2 ^ (d - 53) = 0 ->
        mrs = {| shr_m := m / 2 ^ (d - 53); shr_r := false; shr_s := false |}).
Proof.
  intros Hm Hd Hd53 He. unfold shr_fexp. rewrite Hd, fexp_normal by lia.
  replace (d + e - 53 - e) with (d - 53) by lia.
  destruct (d - 53) as [|p|p] eqn:E; [| |lia].
  - exists (shr_record_of_loc m l). cbn [shr]. split; [f_equal; lia|].
    rewrite shr_record_of_loc_m, Z.div_1_r. split; [reflexivity|].
    intros -> _. reflexivity.
  - exists (iter_pos shr_1 p (shr_record_of_loc m l)). cbn [shr]. split; [f_equal; lia|].
    rewrite iter_pos_nat. split.
    + rewrite iter_shr_1_m, shr_record_of_loc_m, positive_nat_Z
        by (rewrite shr_record_of_loc_m; lia).
      reflexivity.
    + intros -> Hmod. cbn [shr_record_of_loc].
      rewrite <- (positive_nat_Z p) in Hmod |- *.
      apply iter_shr_1_exact; [lia|assumption].
Qed.

(** Rounding a mantissa of [d >= 53] digits in the normal range: the
    result keeps the 53 leading bits [q], or adds one to them. *)
Lemma binary_round_aux_normal (s : bool) (m e : Z) (l : location) (d : Z) :
  0 < m -> Zdigits2 m = d -> 53 <= d ->
  - 1074 <= e + d - 53 -> e + d <= 1023 ->
  exists m' e',
    binary_round_aux IEEE.prec IEEE.emax s m e l = S754_finite s m' e'
    /\ 2 ^ 52 <= Z.pos m' < 2 ^ 53
    /\ ((Z.pos m' = m / 2 ^ (d - 53) /\ e' = e + d - 53)
        \/ (Z.pos m' = m / 2 ^ (d - 53) + 1 /\ e' = e + d - 53)
        \/ (m / 2 ^ (d - 53) = 2 ^ 53 - 1 /\ Z.pos m' = 2 ^ 52 /\ e' = e + d - 52))
    /\ (l = loc_Exact -> m mod 2 ^ (d - 53) = 0 ->
        Z.pos m' = m / 2 ^ (d - 53) /\ e' = e + d - 53).
Proof.
  intros Hm Hd Hd53 He Hemax.
  destruct (shr_fexp_normal m e l d Hm Hd Hd53 He) as (mrs & E1 & Hq & Hex).
  unfold binary_round_aux. rewrite E1.
  set (q := m / 2 ^ (d - 53)) in *.
  assert (Hqr : 2 ^ 52 <= q < 2 ^ 53).
  { pose proof (Zdigits2_spec m Hm) as Hs. rewrite Hd in Hs.
    assert (Hp : 0 < 2 ^ (d - 53)) by (apply Z.pow_pos_nonneg; lia).
    replace (d - 1) with (52 + (d - 53)) in Hs by lia.
    replace d with (53 + (d - 53)) in Hs at 2 by lia.
    rewrite !Z.pow_add_r in Hs by lia.
    unfold q. split.
    - apply Z.div_le_lower_bound; lia.
    - apply Z.div_lt_upper_bound; lia. }
  rewrite Hq. fold q.
  set (m1 := round_nearest_even q (loc_of_shr_record mrs)).
  assert (Hm1 : m1 = q \/ m1 = q + 1) by apply round_nearest_even_cases.
  assert (Hm1x : l = loc_Exact -> m mod 2 ^ (d - 53) = 0 -> m1 = q).
  { intros Hl Hmod. unfold m1. rewrite (Hex Hl Hmod). reflexivity. }
  clearbody m1. clear E1 Hq Hex.
  destruct (Z.eq_dec m1 (2 ^ 53)) as [Hc | Hc].
  - (* carry *)
    subst m1.
    assert (E2 : shr_fexp IEEE.prec IEEE.emax (2 ^ 53) (e + d - 53) loc_Exact =
                 ({| shr_m := 2 ^ 52; shr_r := false; shr_s := false |}, e + d - 52)).
    { unfold shr_fexp. change (Zdigits2 (2 ^ 53)) with 54.
      rewrite fexp_normal by lia.
      replace (54 + (e + d - 53) - 53 - (e + d - 53)) with 1 by lia.
      cbn [shr shr_record_of_loc iter_pos]. f_equal. lia. }
    rewrite E2. cbn [shr_m]. change (2 ^ 52) with (Z.pos 4503599627370496).
    unfold IEEE.emax, IEEE.prec.
    destruct (Z.leb_spec (e + d - 52) (1024 - 53)); [|lia].
    exists 4503599627370496%positive, (e + d - 52).
    split; [reflexivity|]. split; [lia|]. split.
    + right. right. split; [|split]; try reflexivity. lia.
    + intros Hl Hmod. specialize (Hm1x Hl Hmod). lia.
  - assert (Hr1 : 2 ^ 52 <= m1 < 2 ^ 53) by lia.
    assert (E2 : shr_fexp IEEE.prec IEEE.emax m1 (e + d - 53) loc_Exact =
                 ({| shr_m := m1; shr_r := false; shr_s := false |}, e + d - 53)).
    { unfold shr_fexp. rewrite (Zdigits2_unique m1 53) by (cbn; lia).
      rewrite fexp_normal by lia.
      replace (53 + (e + d - 53) - 53 - (e + d - 53)) with 0 by lia.
      reflexivity. }
    rewrite E2. cbn [shr_m].
    destruct m1 as [|p|p]; try lia.
    unfold IEEE.emax, IEEE.prec.
    destruct (Z.leb_spec (e + d - 53) (1024 - 53)); [|lia].
    exists p, (e + d - 53).
    split; [reflexivity|]. split; [lia|]. split.
    + destruct Hm1 as [-> | ->]; [left | right; left]; split; reflexivity.
    + intros Hl Hmod. specialize (Hm1x Hl Hmod). split; [exact Hm1x | reflexivity].
Qed.

Lemma binary_round_stages (s : bool) (m : positive) (e : Z) :
  binary_round IEEE.prec IEEE.emax s m e = round_shifted s (first_shift m e).
Proof.
  unfold binary_round, first_shift.
  destruct (shl_align m e _) as [mz ez]. reflexivity.
Qed.

Lemma iter_xO_Z (m d : positive) : Z.pos (Pos.iter xO m d) = Z.pos m * 2 ^ Z.pos d.
Proof.
  change (Pos.iter xO m d) with (shift_pos d m).
  rewrite shift_pos_correct. change (Z.pow_pos 2 d) with (2 ^ Z.pos d). lia.
Qed.

Lemma shl_align_spec (m : positive) (e e' : Z) :
  Z.pos (fst (shl_align m e e')) = Z.pos m * 2 ^ Z.max 0 (e - e')
  /\ snd (shl_align m e e') = Z.min e e'.
Proof.
  unfold shl_align. destruct (e' - e) as [|p|p] eqn:E; cbn [fst snd].
  - replace (Z.max 0 (e - e')) with 0 by lia. split; lia.
  - replace (Z.max 0 (e - e')) with 0 by lia. split; lia.
  - rewrite iter_xO_Z. replace (Z.max 0 (e - e')) with (Z.pos p) by lia. split; lia.
Qed.

Lemma Zdigits2_shift (m k : Z) :
  0 < m -> 0 <= k -> Zdigits2 (m * 2 ^ k) = Zdigits2 m + k.
Proof.
  intros Hm Hk. pose proof (Zdigits2_spec m Hm) as Hs.
  pose proof (Zdigits2_pos m Hm) as Hd.
  assert (Hp : 0 < 2 ^ k) by (apply Z.pow_pos_nonneg; lia).
  apply Zdigits2_unique; [|lia].
  replace (Zdigits2 m + k - 1) with (Zdigits2 m - 1 + k) by lia.
  rewrite !Z.pow_add_r by lia. nia.
Qed.

(** The first stage, in terms of the exponent [t] of the result. *)
Lemma first_shift_spec (m : positive) (e : Z) :
  let t := fexp IEEE.prec IEEE.emax (Z.pos (digits2_pos m) + e) in
  first_shift m e =
  (Nat.iter (Z.to_nat (t - e)) shr_1
     {| shr_m := Z.pos m * 2 ^ Z.max 0 (e - t); shr_r := false; shr_s := false |}, t).
Proof.
  intros t. unfold first_shift. fold t.
  destruct (shl_align_spec m e t) as (Hm & He).
  destruct (shl_align m e t) as [mz ez]. cbn [fst snd] in Hm, He.
  unfold shr_fexp. rewrite Hm.
  rewrite Zdigits2_shift by lia.
  change (Zdigits2 (Z.pos m)) with (Z.pos (digits2_pos m)).
  destruct (Z.le_gt_cases t e) as [Hle | Hgt].
  - assert (Ht : fexp IEEE.prec IEEE.emax (Z.pos (digits2_pos m) + Z.max 0 (e - t) + ez) = t).
    { replace (Z.pos (digits2_pos m) + Z.max 0 (e - t) + ez)
        with (Z.pos (digits2_pos m) + e) by lia. reflexivity. }
    rewrite Ht. replace (t - ez) with 0 by lia.
    replace (Z.to_nat (t - e)) with 0%nat by lia.
    cbn [shr shr_record_of_loc Nat.iter]. f_equal. lia.
  - assert (Ht : fexp IEEE.prec IEEE.emax (Z.pos (digits2_pos m) + Z.max 0 (e - t) + ez) = t).
    { replace (Z.pos (digits2_pos m) + Z.max 0 (e - t) + ez)
        with (Z.pos (digits2_pos m) + e) by lia. reflexivity. }
    rewrite Ht. replace ez with e by lia.
    destruct (t - e) as [|p|p] eqn:E; try lia.
    cbn [shr shr_record_of_loc]. rewrite iter_pos_nat.
    replace (Z.to_nat (Z.pos p)) with (Pos.to_nat p) by lia.
    f_equal. lia.
Qed.

(** Moving [k] factors of two from the exponent into the mantissa does not
    change the first stage, hence not the rounded value. *)
Lemma first_shift_scaled (m m' : positive) (e k : Z) :
  0 <= k -> Z.pos m' = Z.pos m * 2 ^ k ->
  first_shift m' (e - k) = first_shift m e.
Proof.
  intros Hk Hm'. rewrite !first_shift_spec. cbv zeta.
  assert (Hd : Z.pos (digits2_pos m') = Z.pos (digits2_pos m) + k).
  { change (Zdigits2 (Z.pos m') = Zdigits2 (Z.pos m) + k).
    rewrite Hm'. apply Zdigits2_shift; lia. }
  rewrite Hd, Hm'.
  replace (Z.pos (digits2_pos m) + k + (e - k)) with (Z.pos (digits2_pos m) + e) by lia.
  set (t := fexp IEEE.prec IEEE.emax (Z.pos (digits2_pos m) + e)).
  assert (Hp : 0 < 2 ^ k) by (apply Z.pow_pos_nonneg; lia).
  f_equal.
  destruct (Z.le_gt_cases t (e - k)) as [H1 | H1].
  - replace (Z.to_nat (t - (e - k))) with 0%nat by lia.
    replace (Z.to_nat (t - e)) with 0%nat by lia.
    cbn [Nat.iter nat_rect]. f_equal.
    replace (Z.max 0 (e - k - t)) with (e - k - t) by lia.
    replace (Z.max 0 (e - t)) with (k + (e - k - t)) by lia.
    rewrite Z.pow_add_r by lia. ring.
  - replace (Z.max 0 (e - k - t)) with 0 by lia. rewrite Z.mul_1_r.
    destruct (Z.le_gt_cases t e) as [H2 | H2].
    + replace (Z.to_nat (t - e)) with 0%nat by lia. cbn [Nat.iter nat_rect].
      replace (Z.max 0 (e - t)) with (e - t) by lia.
      set (n := Z.to_nat (t - (e - k))).
      assert (Hn : Z.of_nat n = t - (e - k)) by (unfold n; lia).
      assert (Hs : Z.pos m * 2 ^ k = Z.pos m * 2 ^ (e - t) * 2 ^ Z.of_nat n).
      { rewrite <- Z.mul_assoc, <- Z.pow_add_r by lia. do 2 f_equal. lia. }
      rewrite iter_shr_1_exact.
      * rewrite Hs, Z.div_mul by (apply Z.pow_nonzero; lia). reflexivity.
      * lia.
      * rewrite Hs. apply Z.mod_mul. apply Z.pow_nonzero; lia.
    + replace (Z.max 0 (e - t)) with 0 by lia. rewrite Z.mul_1_r.
      replace (Z.to_nat (t - (e - k))) with (Z.to_nat (t - e) + Z.to_nat k)%nat by lia.
      rewrite Nat.iter_add. f_equal.
      rewrite iter_shr_1_exact.
      * rewrite Z2Nat.id, Z.div_mul by (try apply Z.pow_nonzero; lia). reflexivity.
      * lia.
      * rewrite Z2Nat.id by lia. apply Z.mod_mul. apply Z.pow_nonzero; lia.
Qed.

Lemma binary_round_scaled (s : bool) (m m' : positive) (e k : Z) :
  0 <= k -> Z.pos m' = Z.pos m * 2 ^ k ->
  binary_round IEEE.prec IEEE.emax s m' (e - k) = binary_round IEEE.prec IEEE.emax s m e.
Proof.
  intros Hk Hm'. rewrite !binary_round_stages.
  rewrite (first_shift_scaled m m' e k) by assumption. reflexivity.
Qed.

Lemma binary_normalize_scaled (m e k : Z) (sz : bool) :
  0 <= k ->
  binary_normalize IEEE.prec IEEE.emax (m * 2 ^ k) (e - k) sz =
  binary_normalize IEEE.prec IEEE.emax m e sz.
Proof.
  intros Hk. assert (Hp : 0 < 2 ^ k) by (apply Z.pow_pos_nonneg; lia).
  destruct m as [|p|p].
  - reflexivity.
  - destruct (Z.pos p * 2 ^ k) as [|q|q] eqn:E; try lia.
    cbn [binary_normalize]. apply binary_round_scaled; [assumption|]. lia.
  - destruct (Z.neg p * 2 ^ k) as [|q|q] eqn:E; try lia.
    cbn [binary_normalize]. apply binary_round_scaled; [assumption|]. lia.
Qed.

(** A representable value rounds to itself. *)
Lemma binary_round_valid (s : bool) (m : positive) (e : Z) :
  bounded IEEE.prec IEEE.emax m e = true ->
  binary_round IEEE.prec IEEE.emax s m e = S754_finite s m e.
Proof.
  unfold bounded, canonical_mantissa. intros H.
  apply andb_true_iff in H. destruct H as (H1 & H2).
  apply Z.eqb_eq in H1. apply Z.leb_le in H2.
  rewrite binary_round_stages, first_shift_spec. cbv zeta. rewrite H1.
  replace (Z.to_nat (e - e)) with 0%nat by lia.
  replace (Z.max 0 (e - e)) with 0 by lia.
  cbn [Nat.iter nat_rect]. rewrite Z.mul_1_r.
  unfold round_shifted. cbn [shr_m loc_of_shr_record round_nearest_even].
  unfold shr_fexp. change (Zdigits2 (Z.pos m)) with (Z.pos (digits2_pos m)).
  rewrite H1, Z.sub_diag. cbn [shr shr_record_of_loc shr_m].
  destruct (Z.leb_spec e (IEEE.emax - IEEE.prec)); [reflexivity|lia].
Qed.

(** ** Fused multiply-add by one *)

Lemma of_fields_valid (s be f : Z) :
  fp64_fields s be f -> valid_binary IEEE.prec IEEE.emax (of_fields s be f) = true.
Proof.
  intros (Hs & Hbe & Hf). unfold of_fields.
  destruct (Z.eqb_spec be 0) as [-> | Hbe0].
  - destruct f as [|m|m]; try reflexivity.
    cbn [valid_binary]. unfold bounded, canonical_mantissa.
    pose proof (digits2_pos_spec m) as Hd.
    assert (Hd52 : Z.pos (digits2_pos m) <= 52).
    { destruct (Z.le_gt_cases (Z.pos (digits2_pos m)) 52) as [H|H]; [exact H|].
      assert (2 ^ 52 <= 2 ^ (Z.pos (digits2_pos m) - 1)) by (apply Z.pow_le_mono_r; lia).
      lia. }
    apply andb_true_iff. split.
    + apply Z.eqb_eq. unfold fexp, emin, IEEE.prec, IEEE.emax. lia.
    + apply Z.leb_le. unfold IEEE.prec, IEEE.emax. lia.
  - destruct (Z.eqb_spec be 2047) as [-> | Hbe1].
    + destruct (f =? 0); reflexivity.
    + destruct (f + 2 ^ 52) as [|m|m] eqn:E; try reflexivity.
      cbn [valid_binary]. unfold bounded, canonical_mantissa.
      assert (Hd : Z.pos (digits2_pos m) = 53).
      { change (Zdigits2 (Z.pos m) = 53). apply Zdigits2_unique; lia. }
      rewrite Hd. apply andb_true_iff. split.
      * apply Z.eqb_eq. rewrite fexp_normal by lia. lia.
      * apply Z.leb_le. unfold IEEE.prec, IEEE.emax. lia.
Qed.

Lemma of_bits_valid (x : fp64_t) :
  valid_binary IEEE.prec IEEE.emax (IEEE.of_bits x) = true.
Proof. rewrite of_bits_fields. apply of_fields_valid, fp64_fields_of. Qed.

Lemma cond_Zopp_mul (s : bool) (a c : Z) : cond_Zopp s a * c = cond_Zopp s (a * c).
Proof. destruct s; cbn [cond_Zopp]; lia. Qed.

Lemma SFadd_comm (x y : spec_float) :
  SFadd IEEE.prec IEEE.emax x y = SFadd IEEE.prec IEEE.emax y x.
Proof.
  destruct x as [sx|sx| |sx mx ex], y as [sy|sy| |sy my ey];
    try reflexivity; try (destruct sx, sy; reflexivity).
  cbn [SFadd]. rewrite (Z.min_comm ey ex), Z.add_comm. reflexivity.
Qed.

(** [fma(x, 1.0, z)] is the sum [x + z]. *)
Lemma SFfma_one (x z : spec_float) :
  valid_binary IEEE.prec IEEE.emax x = true ->
  IEEE.SFfma x (S754_finite false 4503599627370496 (-52)) z =
  SFadd IEEE.prec IEEE.emax x z.
Proof.
  intros Hv. destruct x as [sx|sx| |sx mx ex].
  - unfold IEEE.SFfma. cbn [IEEE.exact_mul]. rewrite xorb_false_r.
    destruct z as [sz|sz| |sz mz ez]; try reflexivity.
    destruct sx, sz; reflexivity.
  - unfold IEEE.SFfma. cbn [IEEE.exact_mul]. rewrite xorb_false_r.
    destruct z as [sz|sz| |sz mz ez]; try reflexivity.
    destruct sx, sz; reflexivity.
  - reflexivity.
  - unfold IEEE.SFfma. cbn [IEEE.exact_mul]. rewrite xorb_false_r.
    assert (Hm : Z.pos (mx * 4503599627370496) = Z.pos mx * 2 ^ 52) by reflexivity.
    destruct z as [sz|sz| |sz mz ez]; try reflexivity.
    + cbn [SFadd]. replace (ex + -52) with (ex - 52) by lia.
      rewrite (binary_round_scaled sx mx _ ex 52) by (lia || exact Hm).
      apply binary_round_valid. exact Hv.
    + cbn [SFadd]. cbv zeta.
      set (ep := ex + -52). set (e' := Z.min ep ez). set (e0 := Z.min ex ez).
      destruct (shl_align_spec (mx * 4503599627370496) ep e') as (H1 & _).
      destruct (shl_align_spec mz ez e') as (H2 & _).
      destruct (shl_align_spec mx ex e0) as (H3 & _).
      destruct (shl_align_spec mz ez e0) as (H4 & _).
      rewrite H1, H2, H3, H4, Hm.
      replace e' with (e0 - (e0 - e')) at 3 by lia.
      rewrite <- (binary_normalize_scaled _ e0 (e0 - e')) by lia.
      f_equal.
      rewrite Z.mul_add_distr_r, !cond_Zopp_mul. f_equal; f_equal.
      * rewrite <- !Z.mul_assoc, <- !Z.pow_add_r by lia. do 2 f_equal. lia.
      * rewrite <- !Z.mul_assoc, <- !Z.pow_add_r by lia. do 2 f_equal. lia.
Qed.

Lemma fma_one_comm (x y : fp64_t) :
  IEEE.fma x IEEE.one y = IEEE.fma y IEEE.one x.
Proof.
  unfold IEEE.fma. rewrite of_bits_one.
  rewrite !SFfma_one by apply of_bits_valid.
  rewrite SFadd_comm. reflexivity.
Qed.

Lemma fp64_power2_0 : fp64_power2 (Int64.sub 0 0) = IEEE.one.
Proof. vm_compute; reflexivity. Qed.

(** C7: addition is commutative bit for bit on valid values, among them
    the canonical values and the canonical zero: when the exponents
    differ, both orders evaluate the same expression; when they are equal,
    the scale factor is 1.0 and the fused multiply-add is the sum of the
    two significands, rounded once. *)
Theorem efp64_add_comm (a b : efp64_t) :
  efp64_is_valid a = true -> efp64_is_valid b = true ->
  efp64_add a b = efp64_add b a.
Proof.
  intros _ _. unfold efp64_add.
  destruct (Z.gtb_spec (exp a) (exp b)) as [Hab | Hab].
  - destruct (Z.gtb_spec (exp b) (exp a)) as [Hba | Hba]; [lia|]. reflexivity.
  - destruct (Z.gtb_spec (exp b) (exp a)) as [Hba | Hba]; [reflexivity|].
    assert (E : exp a = exp b) by lia. rewrite E.
    replace (Int64.sub (exp b) (exp b)) with (Int64.sub 0 0)
      by (unfold Int64.sub; f_equal; lia).
    rewrite fp64_power2_0, (fma_one_comm (fp a) (fp b)). reflexivity.
Qed.

Lemma efp64_add_comm_witness :
  efp64_add (efp64_from_fp64 IEEE.two) (efp64_from_fp64 IEEE.minus_one)
  = efp64_add (efp64_from_fp64 IEEE.minus_one) (efp64_from_fp64 IEEE.two).
Proof.
  apply (efp64_add_comm (efp64_from_fp64 IEEE.two) (efp64_from_fp64 IEEE.minus_one));
    by_evaluation.
Defined.

(** ** Rounding in the normal range *)

Lemma binary_round_normal (s : bool) (m : positive) (e d : Z) :
  Z.pos (digits2_pos m) = d -> - 1074 <= e + d - 53 -> e + d <= 1023 ->
  exists m' e',
    binary_round IEEE.prec IEEE.emax s m e = S754_finite s m' e'
    /\ 2 ^ 52 <= Z.pos m' < 2 ^ 53
    /\ (e' = e + d - 53 \/ e' = e + d - 52)
    /\ (d <= 53 -> Z.pos m' = Z.pos m * 2 ^ (53 - d) /\ e' = e + d - 53).
Proof.
  intros Hd He Hemax. unfold binary_round. rewrite Hd, fexp_normal by lia.
  destruct (shl_align_spec m e (d + e - 53)) as (H1 & H2).
  destruct (shl_align m e (d + e - 53)) as [mz ez]. cbn [fst snd] in H1, H2.
  pose proof (digits2_pos_spec m) as Hs. rewrite Hd in Hs.
  destruct (Z.le_gt_cases d 53) as [Hle | Hgt].
  - replace (Z.max 0 (e - (d + e - 53))) with (53 - d) in H1 by lia.
    assert (Hp : 0 < 2 ^ (53 - d)) by (apply Z.pow_pos_nonneg; lia).
    assert (Hr : 2 ^ 52 <= Z.pos mz < 2 ^ 53).
    { assert (E52 : 2 ^ 52 = 2 ^ (d - 1) * 2 ^ (53 - d))
        by (rewrite <- Z.pow_add_r by lia; f_equal; lia).
      assert (E53 : 2 ^ 53 = 2 ^ d * 2 ^ (53 - d))
        by (rewrite <- Z.pow_add_r by lia; f_equal; lia).
      rewrite H1, E52, E53. nia. }
    assert (Hdig : Zdigits2 (Z.pos mz) = 53)
      by (apply Zdigits2_unique; [exact Hr | lia]).
    destruct (binary_round_aux_normal s (Z.pos mz) ez loc_Exact 53)
      as (m' & e' & E & Hm' & _ & Hex); try lia.
    rewrite Z.sub_diag, Z.mod_1_r, Z.div_1_r in Hex.
    destruct (Hex eq_refl eq_refl) as (Hx1 & Hx2).
    exists m', e'. split; [exact E|]. split; [exact Hm'|]. split; [left; lia|].
    intros _. split; lia.
  - replace (Z.max 0 (e - (d + e - 53))) with 0 in H1 by lia.
    assert (mz = m) by lia. subst mz.
    destruct (binary_round_aux_normal s (Z.pos m) ez loc_Exact d)
      as (m' & e' & E & Hm' & Hc & _); try lia; try exact Hd.
    exists m', e'. split; [exact E|]. split; [exact Hm'|]. split; [|lia].
    destruct Hc as [(_ & Hc) | [(_ & Hc) | (_ & _ & Hc)]]; lia.
Qed.

Lemma of_bits_to_bits_normal (s : bool) (m : positive) (e : Z) :
  2 ^ 52 <= Z.pos m < 2 ^ 53 -> - 1074 <= e <= 971 ->
  IEEE.to_bits (S754_finite s m e) =
    fp64_pack (Z.b2z s) (e + 1075) (Z.pos m - 2 ^ 52)
  /\ IEEE.of_bits (IEEE.to_bits (S754_finite s m e)) = S754_finite s m e.
Proof.
  intros Hm He.
  assert (E : IEEE.to_bits (S754_finite s m e) =
              fp64_pack (Z.b2z s) (e + 1075) (Z.pos m - 2 ^ 52)).
  { cbn [IEEE.to_bits]. destruct (Z.ltb_spec (Z.pos m) (2 ^ 52)); [lia|].
    unfold fp64_pack. destruct s; cbn [IEEE.sign_bit Z.b2z]; lia. }
  split; [exact E|]. rewrite E.
  rewrite of_bits_pack by (unfold fp64_fields; destruct s; cbn [Z.b2z]; lia).
  rewrite of_fields_normal by lia.
  replace (Z.pos m - 2 ^ 52 + 2 ^ 52) with (Z.pos m) by lia.
  rewrite Pos2Z.id. f_equal; [destruct s; reflexivity | lia].
Qed.

(** ** Conversion of integers *)

Lemma of_Z_exact (z : Z) :
  Z.abs z <= 2 ^ 53 -> SF_is_integer (IEEE.of_bits (IEEE.of_Z z)) z.
Proof.
  intros Hz.
  destruct (Z.eq_dec (Z.abs z) (2 ^ 53)) as [Hmax | Hlt].
  { assert (z = 2 ^ 53 \/ z = - 2 ^ 53) as [-> | ->] by lia; vm_compute; reflexivity. }
  unfold IEEE.of_Z.
  destruct z as [|p|p]; [reflexivity| |].
  - cbn [binary_normalize].
    pose proof (digits2_pos_spec p) as Hs.
    assert (Hd : Z.pos (digits2_pos p) <= 53).
    { destruct (Z.le_gt_cases (Z.pos (digits2_pos p)) 53) as [H|H]; [exact H|].
      assert (2 ^ 53 <= 2 ^ (Z.pos (digits2_pos p) - 1)) by (apply Z.pow_le_mono_r; lia).
      lia. }
    destruct (binary_round_normal false p 0 (Z.pos (digits2_pos p)) eq_refl)
      as (m' & e' & E & Hm' & _ & Hex); try lia.
    destruct (Hex Hd) as (Hx1 & Hx2).
    rewrite E. destruct (of_bits_to_bits_normal false m' e' Hm') as (_ & ->); [lia|].
    cbn [SF_is_integer cond_Zopp].
    replace (Z.max 0 e') with 0 by lia. replace (Z.max 0 (- e')) with (53 - Z.pos (digits2_pos p)) by lia.
    lia.
  - cbn [binary_normalize].
    pose proof (digits2_pos_spec p) as Hs.
    assert (Hd : Z.pos (digits2_pos p) <= 53).
    { destruct (Z.le_gt_cases (Z.pos (digits2_pos p)) 53) as [H|H]; [exact H|].
      assert (2 ^ 53 <= 2 ^ (Z.pos (digits2_pos p) - 1)) by (apply Z.pow_le_mono_r; lia).
      lia. }
    destruct (binary_round_normal true p 0 (Z.pos (digits2_pos p)) eq_refl)
      as (m' & e' & E & Hm' & _ & Hex); try lia.
    destruct (Hex Hd) as (Hx1 & Hx2).
    rewrite E. destruct (of_bits_to_bits_normal true m' e' Hm') as (_ & ->); [lia|].
    cbn [SF_is_integer cond_Zopp].
    replace (Z.max 0 e') with 0 by lia. replace (Z.max 0 (- e')) with (53 - Z.pos (digits2_pos p)) by lia.
    lia.
Qed.

(** ** Logarithm of a power of two *)

Lemma efp64_log2d_of_power2 (libm_log2 : fp64_t -> fp64_t) (a : efp64_t) :
  efp64_zeroed_fraction a = IEEE.one ->
  efp64_log2d libm_log2 a = IEEE.of_Z (efp64_full_exponent a).
Proof.
  intros Hd. unfold efp64_log2d. rewrite Hd.
  replace (IEEE.leb IEEE.one IEEE.zero) with false by (vm_compute; reflexivity).
  replace (IEEE.eqb IEEE.one IEEE.one) with true by (vm_compute; reflexivity).
  reflexivity.
Qed.

(** C8 (as amended): on a value [2^K], whose significand with a zeroed
    exponent is [1.0], [efp64_log2d] returns the conversion of the full
    exponent [K] to a double, whatever [log2] of the C library does; the
    result is [K] exactly whenever [|K| <= 2^53], far beyond the exponents
    of a double. *)
Theorem efp64_log2d_power2 (libm_log2 : fp64_t -> fp64_t) (a : efp64_t) :
  efp64_zeroed_fraction a = IEEE.one ->
  efp64_log2d libm_log2 a = IEEE.of_Z (efp64_full_exponent a)
  /\ (Z.abs (efp64_full_exponent a) <= 2 ^ 53 ->
      SF_is_integer (IEEE.of_bits (efp64_log2d libm_log2 a)) (efp64_full_exponent a)).
Proof.
  intros Hd. pose proof (efp64_log2d_of_power2 libm_log2 a Hd) as E.
  split; [exact E|]. intros HK. rewrite E. apply of_Z_exact, HK.
Qed.

Lemma efp64_log2d_power2_witness :
  let a := {| fp := IEEE.two; exp := 6400 |} in
  efp64_log2d (fun x => x) a = IEEE.of_Z (efp64_full_exponent a)
  /\ (Z.abs (efp64_full_exponent a) <= 2 ^ 53 ->
      SF_is_integer (IEEE.of_bits (efp64_log2d (fun x => x) a)) (efp64_full_exponent a)).
Proof.
  apply (efp64_log2d_power2 (fun x => x) {| fp := IEEE.two; exp := 6400 |}).
  vm_compute; reflexivity.
Defined.

(** C8 (as stated) fails beyond [2^53 = 9007199254740992]: the canonical
    value [2 * 2^(2^53)] is [2^K] for [K = 2^53 + 1], and its logarithm is
    the double [2^53]. *)
Lemma efp64_log2d_power2_inexact :
  let a := {| fp := IEEE.two; exp := 9007199254740992 |} in
  efp64_canonical a
  /\ efp64_zeroed_fraction a = IEEE.one
  /\ efp64_full_exponent a = 9007199254740993
  /\ (forall libm_log2,
        SF_is_integer (IEEE.of_bits (efp64_log2d libm_log2 a)) 9007199254740992
        /\ ~ SF_is_integer (IEEE.of_bits (efp64_log2d libm_log2 a)) 9007199254740993).
Proof.
  intros a.
  assert (Hd : efp64_zeroed_fraction a = IEEE.one) by (vm_compute; reflexivity).
  assert (He : efp64_full_exponent a = 9007199254740993) by (vm_compute; reflexivity).
  split; [|split; [exact Hd | split; [exact He|]]].
  - unfold efp64_canonical.
    replace (fp64_get_exponent (fp a)) with 1 by (vm_compute; reflexivity).
    replace (exp a mod EXP_MODULUS) with 0 by (vm_compute; reflexivity).
    split; [by_evaluation | reflexivity].
  - intros libm_log2.
    rewrite (efp64_log2d_of_power2 libm_log2 a Hd), He. split; vm_compute; [reflexivity | discriminate].
Qed.

(** ** Doubles in a window of exponents *)

Lemma SF_window_weaken (lo hi lo' hi' : Z) (x : spec_float) :
  SF_window lo hi x -> lo' <= lo -> hi <= hi' -> SF_window lo' hi' x.
Proof. destruct x; cbn [SF_window]; try tauto. lia. Qed.

Lemma efp64_canonical_window_iff (a : efp64_t) :
  efp64_canonical a <->
  SF_window 0 64 (IEEE.of_bits (fp a)) /\ exp a mod EXP_MODULUS = 0.
Proof.
  split.
  - intros Hc. pose proof (efp64_canonical_fields a Hc) as Hbe.
    destruct (fp64_fields_of (fp a)) as (_ & _ & Hf).
    rewrite efp64_canonical_of_bits by assumption. cbn [SF_window].
    rewrite Z2Pos.id by lia. destruct Hc as (_ & Hm). repeat split; lia.
  - intros (Hw & Hm). split; [|exact Hm].
    rewrite fp64_get_exponent_biased. change EXP_MODULUS with 64.
    rewrite of_bits_fields in Hw.
    destruct (fp64_fields_of (fp a)) as (_ & Hbe & Hf).
    unfold of_fields in Hw.
    destruct (Z.eqb_spec (fp64_get_biased_exponent (fp a)) 0) as [E0 | E0].
    + destruct (fp64_get_fraction (fp a)); cbn [SF_window] in Hw; try tauto. lia.
    + destruct (Z.eqb_spec (fp64_get_biased_exponent (fp a)) 2047) as [E1 | E1].
      * destruct (_ =? 0); cbn [SF_window] in Hw; tauto.
      * destruct (fp64_get_fraction (fp a) + 2 ^ 52); cbn [SF_window] in Hw; try tauto. lia.
Qed.

(** The pattern of a double in a window. *)
Lemma SF_window_to_bits (lo hi : Z) (x : spec_float) :
  SF_window lo hi x -> - 1022 <= lo -> hi <= 1024 ->
  IEEE.of_bits (IEEE.to_bits x) = x
  /\ IEEE.of_bits (IEEE.fabs (IEEE.to_bits x)) = SFabs x
  /\ efp64_is_zero {| fp := IEEE.to_bits x; exp := 0 |} = false.
Proof.
  destruct x as [s|s| |s m e]; cbn [SF_window]; try tauto.
  intros (Hm & He) Hlo Hhi.
  destruct (of_bits_to_bits_normal s m e Hm) as (Hb & Ho); [lia|].
  assert (Hf : fp64_fields (Z.b2z s) (e + 1075) (Z.pos m - 2 ^ 52))
    by (unfold fp64_fields; destruct s; cbn [Z.b2z]; lia).
  split; [exact Ho|]. split.
  - rewrite fabs_fields, Hb, fp64_get_biased_exponent_pack, fp64_get_fraction_pack
      by assumption.
    rewrite of_fields_normal by lia. cbn [SFabs].
    replace (Z.pos m - 2 ^ 52 + 2 ^ 52) with (Z.pos m) by lia.
    rewrite Pos2Z.id. f_equal. lia.
  - rewrite efp64_is_zero_fields. cbn [fp].
    rewrite Hb, fp64_get_biased_exponent_pack by assumption.
    destruct (Z.eqb_spec (e + 1075) 0); [lia|reflexivity].
Qed.

Lemma compare_cont_Z (p q : positive) :
  Pos.compare_cont Eq p q = (Z.pos p ?= Z.pos q).
Proof. reflexivity. Qed.

(** Comparison of the magnitude with a power of two. *)
Lemma SFltb_abs_power2 (lo hi k : Z) (x : spec_float) :
  SF_window lo hi x ->
  SFltb (SFabs x) (S754_finite false 4503599627370496 (k - 52)) =
  match x with S754_finite _ _ e => e + 52 <? k | _ => false end.
Proof.
  destruct x as [s|s| |s m e]; cbn [SF_window]; try tauto.
  intros (Hm & He). unfold SFltb. cbn [SFabs SFcompare].
  rewrite compare_cont_Z.
  destruct (Z.compare_spec e (k - 52)) as [E|E|E];
    destruct (Z.ltb_spec (e + 52) k); try lia; try reflexivity.
  destruct (Z.compare_spec (Z.pos m) (Z.pos 4503599627370496)) as [E'|E'|E'];
    try reflexivity.
  change (Z.pos 4503599627370496) with (2 ^ 52) in E'. lia.
Qed.

Lemma SFleb_power2_abs (lo hi k : Z) (x : spec_float) :
  SF_window lo hi x ->
  SFleb (S754_finite false 4503599627370496 (k - 52)) (SFabs x) =
  match x with S754_finite _ _ e => k <=? e + 52 | _ => false end.
Proof.
  destruct x as [s|s| |s m e]; cbn [SF_window]; try tauto.
  intros (Hm & He). unfold SFleb. cbn [SFabs SFcompare].
  rewrite compare_cont_Z.
  destruct (Z.compare_spec (k - 52) e) as [E|E|E];
    destruct (Z.leb_spec k (e + 52)); try lia; try reflexivity.
  destruct (Z.compare_spec (Z.pos 4503599627370496) (Z.pos m)) as [E'|E'|E'];
    try reflexivity.
  change (Z.pos 4503599627370496) with (2 ^ 52) in E'. lia.
Qed.

(** Multiplication by a power of two is exact in the normal range. *)
Lemma SFmul_power2 (s : bool) (m : positive) (e k : Z) :
  2 ^ 52 <= Z.pos m < 2 ^ 53 -> - 1022 <= e + k + 52 <= 1022 ->
  SFmul IEEE.prec IEEE.emax (S754_finite s m e)
    (S754_finite false 4503599627370496 (k - 52)) = S754_finite s m (e + k).
Proof.
  intros Hm He. cbn [SFmul]. rewrite xorb_false_r.
  assert (Hp : Z.pos (m * 4503599627370496) = Z.pos m * 2 ^ 52) by reflexivity.
  rewrite Hp.
  assert (Hd : Zdigits2 (Z.pos m * 2 ^ 52) = 105).
  { rewrite Zdigits2_shift by lia.
    replace (Zdigits2 (Z.pos m)) with 53 by (symmetry; apply Zdigits2_unique; lia). lia. }
  destruct (binary_round_aux_normal s (Z.pos m * 2 ^ 52) (e + (k - 52)) loc_Exact 105)
    as (m' & e' & E & _ & _ & Hex); try lia; try exact Hd.
  rewrite E.
  assert (Hmod : (Z.pos m * 2 ^ 52) mod 2 ^ (105 - 53) = 0) by (apply Z.mod_mul; lia).
  destruct (Hex eq_refl Hmod) as (Hx1 & Hx2).
  change (105 - 53) with 52 in Hx1.
  rewrite Z.div_mul in Hx1 by lia. f_equal; lia.
Qed.

(** ** The quick canonicalizations *)

Lemma efp64_canonical_of_window (x : spec_float) (E : Z) :
  SF_window 0 64 x -> E mod EXP_MODULUS = 0 ->
  efp64_canonical {| fp := IEEE.to_bits x; exp := E |}.
Proof.
  intros Hw Hm. apply efp64_canonical_window_iff. cbn [fp exp]. split; [|exact Hm].
  destruct (SF_window_to_bits 0 64 x Hw) as (-> & _); [lia|lia|]. exact Hw.
Qed.

Lemma add_window_mod (E : Z) :
  E mod EXP_MODULUS = 0 -> Int64.add E EXP_MODULUS mod EXP_MODULUS = 0.
Proof.
  change EXP_MODULUS with 64. intros H. unfold Int64.add.
  rewrite signed_mod_64. replace (E + 64) with (E + 1 * 64) by lia.
  rewrite Z.mod_add by lia. exact H.
Qed.

Lemma sub_window_mod (E : Z) :
  E mod EXP_MODULUS = 0 -> Int64.sub E EXP_MODULUS mod EXP_MODULUS = 0.
Proof.
  change EXP_MODULUS with 64. intros H. unfold Int64.sub.
  rewrite signed_mod_64. replace (E - 64) with (E + (-1) * 64) by lia.
  rewrite Z.mod_add by lia. exact H.
Qed.

(** A significand one window below is brought up. *)
Lemma scale_up_canonical (x : spec_float) (E : Z) :
  SF_window (-64) 0 x -> E mod EXP_MODULUS = 0 ->
  efp64_canonical
    {| fp := IEEE.mul (IEEE.to_bits x) (fp64_power2 EXP_MODULUS);
       exp := Int64.sub E EXP_MODULUS |}.
Proof.
  intros Hw Hm.
  destruct (SF_window_to_bits (-64) 0 x Hw) as (Ho & _); [lia|lia|].
  unfold IEEE.mul. rewrite Ho, of_bits_power2_64.
  destruct x as [s|s| |s m e]; cbn [SF_window] in Hw; try tauto.
  destruct Hw as (Hm' & He).
  change 12 with (64 - 52). rewrite SFmul_power2 by lia.
  apply efp64_canonical_of_window; [cbn [SF_window]; lia | apply sub_window_mod, Hm].
Qed.

(** A significand one window above is brought down. *)
Lemma scale_down_canonical (x : spec_float) (E : Z) :
  SF_window 64 128 x -> E mod EXP_MODULUS = 0 ->
  efp64_canonical
    {| fp := IEEE.mul (IEEE.to_bits x) (fp64_power2 (- EXP_MODULUS));
       exp := Int64.add E EXP_MODULUS |}.
Proof.
  intros Hw Hm.
  destruct (SF_window_to_bits 64 128 x Hw) as (Ho & _); [lia|lia|].
  unfold IEEE.mul. rewrite Ho, of_bits_power2_m64.
  destruct x as [s|s| |s m e]; cbn [SF_window] in Hw; try tauto.
  destruct Hw as (Hm' & He).
  change (-116) with (-64 - 52). rewrite SFmul_power2 by lia.
  apply efp64_canonical_of_window; [cbn [SF_window]; lia | apply add_window_mod, Hm].
Qed.

Lemma ltb_fabs_one (lo hi : Z) (x : spec_float) :
  SF_window lo hi x -> - 1022 <= lo -> hi <= 1024 ->
  IEEE.ltb (IEEE.fabs (IEEE.to_bits x)) IEEE.one =
  match x with S754_finite _ _ e => e + 52 <? 0 | _ => false end.
Proof.
  intros Hw Hlo Hhi.
  destruct (SF_window_to_bits lo hi x Hw Hlo Hhi) as (_ & Ha & _).
  unfold IEEE.ltb. rewrite Ha, of_bits_one. change (-52) with (0 - 52).
  apply (SFltb_abs_power2 lo hi). exact Hw.
Qed.

Lemma geb_fabs_high (lo hi : Z) (x : spec_float) :
  SF_window lo hi x -> - 1022 <= lo -> hi <= 1024 ->
  IEEE.geb (IEEE.fabs (IEEE.to_bits x)) (fp64_power2 EXP_MODULUS) =
  match x with S754_finite _ _ e => 64 <=? e + 52 | _ => false end.
Proof.
  intros Hw Hlo Hhi.
  destruct (SF_window_to_bits lo hi x Hw Hlo Hhi) as (_ & Ha & _).
  unfold IEEE.geb, IEEE.leb. rewrite Ha, of_bits_power2_64. change 12 with (64 - 52).
  apply (SFleb_power2_abs lo hi). exact Hw.
Qed.

Lemma efp64_quick_canonicalize_window (x : spec_float) (E : Z) :
  SF_window (-64) 128 x -> E mod EXP_MODULUS = 0 ->
  efp64_canonical (efp64_quick_canonicalize {| fp := IEEE.to_bits x; exp := E |}).
Proof.
  intros Hw Hm. unfold efp64_quick_canonicalize. cbn [fp exp].
  rewrite (ltb_fabs_one (-64) 128), (geb_fabs_high (-64) 128) by (assumption || lia).
  destruct x as [s|s| |s m e]; try (cbn [SF_window] in Hw; tauto).
  destruct (Z.ltb_spec (e + 52) 0).
  - apply scale_up_canonical; [|exact Hm]. cbn [SF_window] in *. lia.
  - destruct (Z.leb_spec 64 (e + 52)).
    + apply scale_down_canonical; [|exact Hm]. cbn [SF_window] in *. lia.
    + apply efp64_canonical_of_window; [|exact Hm]. cbn [SF_window] in *. lia.
Qed.

Lemma efp64_quick_down_canonicalize_window (x : spec_float) (E : Z) :
  SF_window 0 128 x -> E mod EXP_MODULUS = 0 ->
  efp64_canonical (efp64_quick_down_canonicalize {| fp := IEEE.to_bits x; exp := E |}).
Proof.
  intros Hw Hm. unfold efp64_quick_down_canonicalize. cbn [fp exp].
  rewrite (geb_fabs_high 0 128) by (assumption || lia).
  destruct x as [s|s| |s m e]; try (cbn [SF_window] in Hw; tauto).
  destruct (Z.leb_spec 64 (e + 52)).
  - apply scale_down_canonical; [|exact Hm]. cbn [SF_window] in *. lia.
  - apply efp64_canonical_of_window; [|exact Hm]. cbn [SF_window] in *. lia.
Qed.

Lemma efp64_quick_up_canonicalize_window (x : spec_float) (E : Z) :
  SF_window (-64) 64 x -> E mod EXP_MODULUS = 0 ->
  efp64_canonical (efp64_quick_up_canonicalize {| fp := IEEE.to_bits x; exp := E |}).
Proof.
  intros Hw Hm. unfold efp64_quick_up_canonicalize. cbn [fp exp].
  rewrite (ltb_fabs_one (-64) 64) by (assumption || lia).
  destruct x as [s|s| |s m e]; try (cbn [SF_window] in Hw; tauto).
  destruct (Z.ltb_spec (e + 52) 0).
  - apply scale_up_canonical; [|exact Hm]. cbn [SF_window] in *. lia.
  - apply efp64_canonical_of_window; [|exact Hm]. cbn [SF_window] in *. lia.
Qed.

(** ** Products and quotients of canonical significands *)

Lemma SFmul_window (A : Z) (x y : spec_float) :
  SF_window 0 A x -> SF_window 0 64 y -> A + 64 <= 1023 ->
  SF_window 0 (A + 64) (SFmul IEEE.prec IEEE.emax x y).
Proof.
  destruct x as [sx|sx| |sx mx ex]; cbn [SF_window]; try tauto.
  destruct y as [sy|sy| |sy my ey]; cbn [SF_window]; try tauto.
  intros (Hmx & Hex) (Hmy & Hey) HA. cbn [SFmul].
  rewrite Pos2Z.inj_mul.
  set (m := Z.pos mx * Z.pos my).
  assert (Hm : 2 ^ 104 <= m <= (2 ^ 53 - 1) * (2 ^ 53 - 1)) by (unfold m; nia).
  destruct (Z.lt_ge_cases m (2 ^ 105)) as [Hlt | Hge].
  - assert (Hd : Zdigits2 m = 105) by (apply Zdigits2_unique; lia).
    destruct (binary_round_aux_normal (xorb sx sy) m (ex + ey) loc_Exact 105)
      as (m' & e' & E & Hm' & Hc & _); try lia.
    rewrite E. cbn [SF_window]. split; [exact Hm'|].
    destruct Hc as [(_ & Hc) | [(_ & Hc) | (_ & _ & Hc)]]; lia.
  - assert (Hd : Zdigits2 m = 106) by (apply Zdigits2_unique; lia).
    destruct (binary_round_aux_normal (xorb sx sy) m (ex + ey) loc_Exact 106)
      as (m' & e' & E & Hm' & Hc & _); try lia.
    rewrite E. cbn [SF_window]. split; [exact Hm'|].
    assert (Hq : m / 2 ^ (106 - 53) < 2 ^ 53 - 1)
      by (apply Z.div_lt_upper_bound; lia).
    destruct Hc as [(_ & Hc) | [(_ & Hc) | (Hc' & _ & Hc)]]; lia.
Qed.

Lemma SFdiv_window (x y : spec_float) :
  SF_window 0 64 x -> SF_window 0 64 y ->
  SF_window (-64) 64 (SFdiv IEEE.prec IEEE.emax x y).
Proof.
  destruct x as [sx|sx| |sx mx ex]; cbn [SF_window]; try tauto.
  destruct y as [sy|sy| |sy my ey]; cbn [SF_window]; try tauto.
  intros (Hmx & Hex) (Hmy & Hey). cbn [SFdiv]. unfold SFdiv_core_binary.
  replace (Zdigits2 (Z.pos mx)) with 53 by (symmetry; apply Zdigits2_unique; lia).
  replace (Zdigits2 (Z.pos my)) with 53 by (symmetry; apply Zdigits2_unique; lia).
  rewrite fexp_normal by lia.
  replace (Z.min (53 + ex - (53 + ey) - 53) (ex - ey)) with (ex - ey - 53) by lia.
  replace (ex - ey - (ex - ey - 53)) with 53 by lia.
  rewrite Z.shiftl_mul_pow2 by lia.
  pose proof (Z_div_mod (Z.pos mx * 2 ^ 53) (Z.pos my) ltac:(lia)) as Hdm.
  destruct (Z.div_eucl (Z.pos mx * 2 ^ 53) (Z.pos my)) as [q r].
  destruct Hdm as (Hq & Hr).
  assert (Hq1 : 2 ^ 52 <= q) by nia.
  assert (Hq2 : q <= 2 ^ 54 - 2) by nia.
  destruct (Z.lt_ge_cases q (2 ^ 53)) as [Hlt | Hge].
  - assert (Hd : Zdigits2 q = 53) by (apply Zdigits2_unique; lia).
    destruct (binary_round_aux_normal (xorb sx sy) q (ex - ey - 53)
                (new_location (Z.pos my) r) 53)
      as (m' & e' & E & Hm' & Hc & _); try lia.
    rewrite E. cbn [SF_window]. split; [exact Hm'|].
    destruct Hc as [(_ & Hc) | [(_ & Hc) | (_ & _ & Hc)]]; lia.
  - assert (Hd : Zdigits2 q = 54) by (apply Zdigits2_unique; lia).
    destruct (binary_round_aux_normal (xorb sx sy) q (ex - ey - 53)
                (new_location (Z.pos my) r) 54)
      as (m' & e' & E & Hm' & Hc & Hx); try lia.
    rewrite E. cbn [SF_window]. split; [exact Hm'|].
    change (54 - 53) with 1 in Hc, Hx. change (2 ^ 1) with 2 in Hc, Hx.
    destruct Hc as [(_ & Hc) | [(_ & Hc) | (Hc' & Hc'' & Hc)]]; try lia.
    (* a carry needs q = 2^54 - 2, an exact quotient *)
    assert (Eq : q = 2 ^ 54 - 2) by (pose proof (Z.mul_div_le q 2 ltac:(lia)); lia).
    assert (Er : r = 0) by nia.
    assert (El : new_location (Z.pos my) r = loc_Exact).
    { rewrite Er. unfold new_location, new_location_even, new_location_odd.
      destruct (Z.even (Z.pos my)); reflexivity. }
    assert (Emod : q mod 2 = 0) by (rewrite Eq; reflexivity).
    destruct (Hx El Emod) as (Hx1 & _). lia.
Qed.

(** ** Sums of canonical significands *)

Lemma pow2_lt_inv (a b : Z) : 0 <= b -> 2 ^ a < 2 ^ b -> a < b.
Proof. intros Hb H. apply (Z.pow_lt_mono_r_iff 2); lia. Qed.

Lemma binary_normalize_window (M e L U : Z) (sz : bool) :
  0 <= L -> 2 ^ L <= Z.abs M < 2 ^ U ->
  - 1022 <= e + L -> e + U <= 1023 ->
  SF_window (e + L) (e + U + 1) (binary_normalize IEEE.prec IEEE.emax M e sz).
Proof.
  intros HL HM Hlo Hhi.
  assert (Hp : 0 < 2 ^ L) by (apply Z.pow_pos_nonneg; lia).
  assert (HU : 0 <= U).
  { destruct (Z.le_gt_cases 0 U) as [H|H]; [exact H|].
    rewrite (Z.pow_neg_r 2 U) in HM by lia. lia. }
  assert (Hgen : forall (s : bool) (p : positive), Z.pos p = Z.abs M ->
            SF_window (e + L) (e + U + 1) (binary_round IEEE.prec IEEE.emax s p e)).
  { intros s p Hpm. pose proof (digits2_pos_spec p) as Hs. rewrite Hpm in Hs.
    set (d := Z.pos (digits2_pos p)) in *.
    assert (Hd1 : L < d) by (apply pow2_lt_inv; lia).
    assert (Hd2 : d - 1 < U) by (apply pow2_lt_inv; lia).
    destruct (binary_round_normal s p e d eq_refl) as (m' & e' & E & Hm' & Hc & _); try lia.
    rewrite E. cbn [SF_window]. split; [exact Hm'|]. lia. }
  destruct M as [|p|p]; cbn [binary_normalize].
  - cbn in HM. lia.
  - apply Hgen. reflexivity.
  - apply Hgen. reflexivity.
Qed.

Lemma SFadd_window (x z : spec_float) :
  SF_window 0 64 x -> SF_window 0 64 z ->
  SF_is_zero (SFadd IEEE.prec IEEE.emax x z)
  \/ SF_window (-52) 66 (SFadd IEEE.prec IEEE.emax x z).
Proof.
  destruct x as [sx|sx| |sx mx ex]; cbn [SF_window]; try tauto.
  destruct z as [sz|sz| |sz mz ez]; cbn [SF_window]; try tauto.
  intros (Hmx & Hex) (Hmz & Hez). cbn [SFadd]. cbv zeta.
  set (e0 := Z.min ex ez).
  destruct (shl_align_spec mx ex e0) as (HA & _).
  destruct (shl_align_spec mz ez e0) as (HB & _).
  rewrite HA, HB.
  replace (Z.max 0 (ex - e0)) with (ex - e0) by lia.
  replace (Z.max 0 (ez - e0)) with (ez - e0) by lia.
  set (P := 2 ^ (11 - e0)).
  assert (HP : 0 < P) by (apply Z.pow_pos_nonneg; lia).
  assert (Ha : 0 < 2 ^ (ex - e0) <= P)
    by (split; [apply Z.pow_pos_nonneg | apply Z.pow_le_mono_r]; lia).
  assert (Hb : 0 < 2 ^ (ez - e0) <= P)
    by (split; [apply Z.pow_pos_nonneg | apply Z.pow_le_mono_r]; lia).
  set (A := Z.pos mx * 2 ^ (ex - e0)). set (B := Z.pos mz * 2 ^ (ez - e0)).
  assert (HA' : 0 < A <= (2 ^ 53 - 1) * P) by (unfold A; nia).
  assert (HB' : 0 < B <= (2 ^ 53 - 1) * P) by (unfold B; nia).
  assert (HU : 2 ^ (65 - e0) = 2 ^ 54 * P).
  { unfold P. rewrite <- Z.pow_add_r by lia. f_equal. lia. }
  set (M := cond_Zopp sx A + cond_Zopp sz B).
  destruct (Z.eq_dec M 0) as [E0 | Hnz].
  - rewrite E0. left. exact I.
  - right.
    assert (HM : 2 ^ 0 <= Z.abs M < 2 ^ (65 - e0)).
    { rewrite HU. change (2 ^ 0) with 1. unfold M in *.
      destruct sx, sz; cbn [cond_Zopp] in *; lia. }
    pose proof (binary_normalize_window M e0 0 (65 - e0) false ltac:(lia) HM
                  ltac:(lia) ltac:(lia)) as Hw.
    eapply SF_window_weaken; [exact Hw | lia | lia].
Qed.

Lemma SFfma_window (x z : spec_float) (delta : Z) :
  SF_window 0 64 x -> SF_window 0 64 z -> - 1022 <= delta <= - 64 ->
  SF_window (-53) 67
    (IEEE.SFfma x (S754_finite false 4503599627370496 (delta - 52)) z).
Proof.
  destruct x as [sx|sx| |sx mx ex]; cbn [SF_window]; try tauto.
  destruct z as [sz|sz| |sz mz ez]; cbn [SF_window]; try tauto.
  intros (Hmx & Hex) (Hmz & Hez) Hdelta.
  unfold IEEE.SFfma. cbn [IEEE.exact_mul]. cbv zeta.
  set (ep := ex + (delta - 52)).
  replace (Z.min ep ez) with ep by lia.
  destruct (shl_align_spec (mx * 4503599627370496) ep ep) as (HA & _).
  destruct (shl_align_spec mz ez ep) as (HB & _).
  rewrite HA, HB.
  replace (Z.max 0 (ep - ep)) with 0 by lia.
  replace (Z.max 0 (ez - ep)) with (53 + (ez - ep - 53)) by lia.
  rewrite Z.pow_add_r by lia.
  set (w := 2 ^ (ez - ep - 53)).
  assert (Hw : 1 <= w) by (unfold w; pose proof (Z.pow_pos_nonneg 2 (ez - ep - 53)); lia).
  assert (Hm : Z.pos (mx * 4503599627370496) = Z.pos mx * 2 ^ 52) by reflexivity.
  rewrite Hm. change (2 ^ 0) with 1. rewrite Z.mul_1_r.
  set (A := Z.pos mx * 2 ^ 52). set (B := Z.pos mz * (2 ^ 53 * w)).
  assert (HA' : 0 < A <= (2 ^ 53 - 1) * 2 ^ 52) by (unfold A; lia).
  assert (HB' : 2 ^ 105 * w <= B <= (2 ^ 53 - 1) * 2 ^ 53 * w) by (unfold B; nia).
  assert (HL : 2 ^ (ez - ep - 1) = 2 ^ 52 * w).
  { unfold w. rewrite <- Z.pow_add_r by lia. f_equal. lia. }
  assert (HU : 2 ^ (ez - ep + 54) = 2 ^ 107 * w).
  { unfold w. rewrite <- Z.pow_add_r by lia. f_equal. lia. }
  set (M := cond_Zopp (xorb sx false) A + cond_Zopp sz B).
  assert (HM : 2 ^ (ez - ep - 1) <= Z.abs M < 2 ^ (ez - ep + 54)).
  { rewrite HL, HU. unfold M.
    destruct (xorb sx false), sz; cbn [cond_Zopp]; lia. }
  pose proof (binary_normalize_window M ep (ez - ep - 1) (ez - ep + 54) false
                ltac:(lia) HM ltac:(lia) ltac:(lia)) as Hwin.
  eapply SF_window_weaken; [exact Hwin | lia | lia].
Qed.

(** ** The canonical form after the arithmetic *)

Lemma efp64_operand_cases (a : efp64_t) :
  efp64_canonical_or_zero a ->
  exp a mod EXP_MODULUS = 0
  /\ (IEEE.of_bits (fp a) = S754_zero false \/ SF_window 0 64 (IEEE.of_bits (fp a))).
Proof.
  intros [-> | Hc].
  - split; [vm_compute; reflexivity | left; vm_compute; reflexivity].
  - apply efp64_canonical_window_iff in Hc. destruct Hc as (Hw & Hm).
    split; [exact Hm | right; exact Hw].
Qed.

Lemma zero_quick_canonicalize (s : bool) (E : Z) :
  efp64_is_zero (efp64_quick_canonicalize {| fp := IEEE.to_bits (S754_zero s); exp := E |})
  = true.
Proof.
  unfold efp64_quick_canonicalize. cbn [fp exp].
  destruct s; eval_cond; vm_compute; reflexivity.
Qed.

Lemma zero_quick_down_canonicalize (s : bool) (E : Z) :
  efp64_is_zero
    (efp64_quick_down_canonicalize {| fp := IEEE.to_bits (S754_zero s); exp := E |})
  = true.
Proof.
  unfold efp64_quick_down_canonicalize. cbn [fp exp].
  destruct s; eval_cond; vm_compute; reflexivity.
Qed.

Lemma zero_quick_up_canonicalize (s : bool) (E : Z) :
  efp64_is_zero
    (efp64_quick_up_canonicalize {| fp := IEEE.to_bits (S754_zero s); exp := E |})
  = true.
Proof.
  unfold efp64_quick_up_canonicalize. cbn [fp exp].
  destruct s; eval_cond; vm_compute; reflexivity.
Qed.

Lemma add_exp_mod (x y : Z) :
  x mod EXP_MODULUS = 0 -> y mod EXP_MODULUS = 0 ->
  Int64.add x y mod EXP_MODULUS = 0.
Proof.
  change EXP_MODULUS with 64. intros Hx Hy. unfold Int64.add.
  rewrite signed_mod_64, Z.add_mod, Hx, Hy by lia. reflexivity.
Qed.

Lemma sub_exp_mod (x y : Z) :
  x mod EXP_MODULUS = 0 -> y mod EXP_MODULUS = 0 ->
  Int64.sub x y mod EXP_MODULUS = 0.
Proof.
  change EXP_MODULUS with 64. intros Hx Hy. unfold Int64.sub.
  rewrite signed_mod_64, Zminus_mod, Hx, Hy by lia. reflexivity.
Qed.

Lemma efp64_mul_canonical (a b : efp64_t) :
  efp64_canonical_or_zero a -> efp64_canonical_or_zero b ->
  efp64_is_zero (efp64_mul a b) = false -> efp64_canonical (efp64_mul a b).
Proof.
  intros Ha Hb.
  destruct (efp64_operand_cases a Ha) as (Hma & Hxa).
  destruct (efp64_operand_cases b Hb) as (Hmb & Hxb).
  unfold efp64_mul, efp64_quick_mul, IEEE.mul.
  pose proof (add_exp_mod _ _ Hma Hmb) as Hm.
  destruct Hxa as [Za | Wa].
  - rewrite Za. intros Hz. exfalso.
    destruct (IEEE.of_bits (fp b)) as [sb|sb| |sb mb eb];
      destruct Hxb as [Zb | Wb]; try discriminate Zb; try (cbn [SF_window] in Wb; tauto);
      cbn [SFmul] in Hz; rewrite zero_quick_down_canonicalize in Hz; discriminate.
  - destruct Hxb as [Zb | Wb].
    + rewrite Zb. intros Hz. exfalso.
      destruct (IEEE.of_bits (fp a)) as [sa|sa| |sa ma ea];
        try (cbn [SF_window] in Wa; tauto).
      cbn [SFmul] in Hz. rewrite zero_quick_down_canonicalize in Hz. discriminate.
    + intros _. apply efp64_quick_down_canonicalize_window; [|exact Hm].
      apply (SFmul_window 64); [assumption | assumption | lia].
Qed.

Lemma efp64_div_canonical (a b : efp64_t) :
  efp64_canonical_or_zero a -> efp64_canonical b ->
  efp64_is_zero (efp64_div a b) = false -> efp64_canonical (efp64_div a b).
Proof.
  intros Ha Hb.
  destruct (efp64_operand_cases a Ha) as (Hma & Hxa).
  apply efp64_canonical_window_iff in Hb. destruct Hb as (Wb & Hmb).
  unfold efp64_div, IEEE.div.
  pose proof (sub_exp_mod _ _ Hma Hmb) as Hm.
  destruct Hxa as [Za | Wa].
  - rewrite Za. intros Hz. exfalso.
    destruct (IEEE.of_bits (fp b)) as [sb|sb| |sb mb eb];
      try (cbn [SF_window] in Wb; tauto).
    cbn [SFdiv] in Hz. rewrite zero_quick_up_canonicalize in Hz. discriminate.
  - intros _. apply efp64_quick_up_canonicalize_window; [|exact Hm].
    apply SFdiv_window; assumption.
Qed.

Lemma of_bits_power2_neg (delta : Z) :
  - 1022 <= delta <= 0 ->
  IEEE.of_bits (fp64_power2 delta) = S754_finite false 4503599627370496 (delta - 52).
Proof.
  intros H. rewrite fp64_power2_pack by lia.
  rewrite of_bits_pack by (unfold fp64_fields; lia).
  rewrite of_fields_normal by lia. f_equal. lia.
Qed.

(** The sum of [lo] and [hi], where [hi] has the larger exponent, as
    [efp64_add] computes it in either order of the operands. *)
Lemma efp64_add_core (lo hi : efp64_t) :
  efp64_canonical_or_zero lo -> efp64_canonical_or_zero hi ->
  efp64_exp_in_range lo -> efp64_exp_in_range hi ->
  exp lo <= exp hi ->
  let r := efp64_quick_canonicalize
             {| exp := exp hi;
                fp := IEEE.fma (fp lo) (fp64_power2 (Int64.sub (exp lo) (exp hi))) (fp hi) |} in
  efp64_is_zero r = false -> efp64_canonical r.
Proof.
  intros Hlo Hhi Rlo Rhi Hle. cbv zeta.
  destruct (efp64_operand_cases lo Hlo) as (Hml & Hxl).
  destruct (efp64_operand_cases hi Hhi) as (Hmh & Hxh).
  unfold efp64_exp_in_range in Rlo, Rhi. rewrite ZEXP_value in Rlo, Rhi.
  set (delta := exp lo - exp hi).
  assert (Hsub : Int64.sub (exp lo) (exp hi) = delta).
  { unfold Int64.sub. apply signed_in_range.
    unfold Int64.in_range, Int64.INT64_MIN, Int64.INT64_MAX, delta. lia. }
  assert (Hdm : delta mod 64 = 0).
  { unfold delta. change EXP_MODULUS with 64 in Hml, Hmh.
    rewrite Zminus_mod, Hml, Hmh. reflexivity. }
  rewrite Hsub. unfold IEEE.fma.
  set (x := IEEE.of_bits (fp lo)) in *. set (z := IEEE.of_bits (fp hi)) in *.
  assert (Hp : IEEE.of_bits (fp64_power2 delta) = S754_zero false
               \/ (- 1022 <= delta <= 0 /\
                   IEEE.of_bits (fp64_power2 delta) =
                   S754_finite false 4503599627370496 (delta - 52))).
  { destruct (Z.le_gt_cases delta (-1023)) as [H|H].
    - left. rewrite fp64_power2_underflow by lia. reflexivity.
    - right. split; [unfold delta in *; lia|].
      apply of_bits_power2_neg. unfold delta in *. lia. }
  destruct Hxh as [Zh | Wh].
  - (* hi is the zero *)
    assert (Eh : exp hi = ZEXP \/ exp hi <> ZEXP) by lia.
    destruct Hhi as [-> | Hc].
    2:{ apply efp64_canonical_window_iff in Hc. destruct Hc as (Hw & _).
        fold z in Hw. rewrite Zh in Hw. cbn [SF_window] in Hw. tauto. }
    assert (Hd0 : delta = 0).
    { unfold delta in *. change (exp efp64_zero) with ZEXP in *.
      rewrite ZEXP_value in *. lia. }
    rewrite Hd0. change (fp64_power2 0) with IEEE.one. rewrite of_bits_one.
    rewrite SFfma_one by apply of_bits_valid.
    rewrite Zh.
    destruct Hxl as [Zl | Wl].
    + rewrite Zl. cbn [SFadd]. intros Hz.
      rewrite zero_quick_canonicalize in Hz. discriminate.
    + intros _. destruct x as [sx|sx| |sx mx ex]; try (cbn [SF_window] in Wl; tauto).
      cbn [SFadd]. apply efp64_quick_canonicalize_window; [|reflexivity].
      eapply SF_window_weaken; [exact Wl | lia | lia].
  - (* hi is canonical *)
    assert (Hz_res : IEEE.exact_mul x (IEEE.of_bits (fp64_power2 delta)) = IEEE.P_zero false
                     \/ IEEE.exact_mul x (IEEE.of_bits (fp64_power2 delta)) = IEEE.P_zero true ->
                     efp64_canonical
                       (efp64_quick_canonicalize
                          {| fp := IEEE.to_bits
                                     (IEEE.SFfma x (IEEE.of_bits (fp64_power2 delta)) z);
                             exp := exp hi |})).
    { intros Hpz. unfold IEEE.SFfma.
      destruct z as [sz|sz| |sz mz ez]; try (cbn [SF_window] in Wh; tauto).
      destruct Hpz as [-> | ->];
        (apply efp64_quick_canonicalize_window; [|exact Hmh];
         eapply SF_window_weaken; [exact Wh | lia | lia]). }
    destruct Hxl as [Zl | Wl].
    + intros _. apply Hz_res. rewrite Zl.
      destruct Hp as [-> | (_ & ->)]; left; reflexivity.
    + destruct Hp as [Ep | (Hd & Ep)].
      * intros _. apply Hz_res. rewrite Ep.
        destruct x as [sx|sx| |sx mx ex]; try (cbn [SF_window] in Wl; tauto).
        cbn [IEEE.exact_mul]. destruct sx; [right | left]; reflexivity.
      * rewrite Ep.
        destruct (Z.eq_dec delta 0) as [Hd0 | Hd0].
        -- rewrite Hd0. change (0 - 52) with (-52).
           rewrite SFfma_one by apply of_bits_valid.
           destruct (SFadd_window x z Wl Wh) as [Hz | Hw].
           ++ intros Hnz. exfalso.
              destruct (SFadd IEEE.prec IEEE.emax x z) as [s|s| |s m e];
                try (cbn [SF_is_zero] in Hz; tauto).
              rewrite zero_quick_canonicalize in Hnz. discriminate.
           ++ intros _. apply efp64_quick_canonicalize_window; [|exact Hmh].
              eapply SF_window_weaken; [exact Hw | lia | lia].
        -- intros _. apply efp64_quick_canonicalize_window; [|exact Hmh].
           assert (Hd64 : delta <= -64).
           { pose proof (Z.div_mod delta 64 ltac:(lia)) as H. rewrite Hdm in H. lia. }
           eapply SF_window_weaken;
             [apply (SFfma_window x z delta Wl Wh); lia | lia | lia].
Qed.

Lemma efp64_add_canonical (a b : efp64_t) :
  efp64_canonical_or_zero a -> efp64_canonical_or_zero b ->
  efp64_exp_in_range a -> efp64_exp_in_range b ->
  efp64_is_zero (efp64_add a b) = false -> efp64_canonical (efp64_add a b).
Proof.
  intros Ha Hb Ra Rb. unfold efp64_add.
  destruct (Z.gtb_spec (exp a) (exp b)) as [H | H].
  - apply (efp64_add_core b a); auto. lia.
  - apply (efp64_add_core a b); auto.
Qed.

Lemma efp64_scale_power2_canonical (a : efp64_t) (power : Z) :
  efp64_canonical a -> power mod EXP_MODULUS = 0 ->
  efp64_canonical (efp64_scale_power2 a power).
Proof.
  intros (He & Hm) Hp. unfold efp64_scale_power2. split; cbn [fp exp].
  - exact He.
  - apply add_exp_mod; assumption.
Qed.

Lemma efp64_sqrt_canonical (a : efp64_t) :
  efp64_is_zero (efp64_sqrt a) = false -> efp64_canonical (efp64_sqrt a).
Proof.
  unfold efp64_sqrt. destruct (efp64_is_zero a || IEEE.ltb (fp a) IEEE.zero).
  - intros H. vm_compute in H. discriminate.
  - rewrite efp64_canonicalize_is_zero. apply efp64_canonicalize_canonical.
Qed.

Lemma efp64_mul_seq_x1_canonical (val : list efp64_t) :
  efp64_is_zero (efp64_mul_seq_x1 val) = false -> efp64_canonical (efp64_mul_seq_x1 val).
Proof.
  unfold efp64_mul_seq_x1, efp64_from_fp64. destruct val as [|v0 rest];
    rewrite efp64_canonicalize_is_zero; apply efp64_canonicalize_canonical.
Qed.

Lemma efp64_mul_seq_x4_canonical (val : list efp64_t) (r : efp64_t) :
  efp64_mul_seq_x4 val = Some r ->
  efp64_is_zero r = false -> efp64_canonical r.
Proof.
  unfold efp64_mul_seq_x4. destruct (efp64_mul_seq_x4_acc val) as [acc|]; [|discriminate].
  cbn [option_map]. intros [= <-].
  rewrite efp64_canonicalize_is_zero. apply efp64_canonicalize_canonical.
Qed.

Lemma efp64_mul_seq_canonical (val : list efp64_t) (r : efp64_t) :
  efp64_mul_seq val = Some r ->
  efp64_is_zero r = false -> efp64_canonical r.
Proof.
  unfold efp64_mul_seq. destruct (Z.of_nat (length val) <? 8).
  - intros [= <-]. apply efp64_mul_seq_x1_canonical.
  - apply efp64_mul_seq_x4_canonical.
Qed.

(** C1 (as amended): every non-zero result of a construction from a
    double, of a square root and of a product of a sequence is canonical,
    whatever the inputs; so is every non-zero sum and product of operands
    that are canonical or the canonical zero (for the sum, with exponents
    between [ZEXP] and [-ZEXP]), and every non-zero quotient of such an
    operand by a canonical, hence non-zero, divisor; a scaling by a power
    of two that is a multiple of the window width keeps a canonical value
    canonical. *)
Theorem efp64_canonical_invariant :
  (forall d : fp64_t,
     efp64_is_zero (efp64_from_fp64 d) = false -> efp64_canonical (efp64_from_fp64 d))
  /\ (forall a b : efp64_t,
        efp64_canonical_or_zero a -> efp64_canonical_or_zero b ->
        efp64_exp_in_range a -> efp64_exp_in_range b ->
        efp64_is_zero (efp64_add a b) = false -> efp64_canonical (efp64_add a b))
  /\ (forall a b : efp64_t,
        efp64_canonical_or_zero a -> efp64_canonical_or_zero b ->
        efp64_is_zero (efp64_mul a b) = false -> efp64_canonical (efp64_mul a b))
  /\ (forall a b : efp64_t,
        efp64_canonical_or_zero a -> efp64_canonical b ->
        efp64_is_zero (efp64_div a b) = false -> efp64_canonical (efp64_div a b))
  /\ (forall a : efp64_t,
        efp64_is_zero (efp64_sqrt a) = false -> efp64_canonical (efp64_sqrt a))
  /\ (forall (a : efp64_t) (power : Z),
        efp64_canonical a -> power mod EXP_MODULUS = 0 ->
        efp64_canonical (efp64_scale_power2 a power))
  /\ (forall val : list efp64_t,
        efp64_is_zero (efp64_mul_seq_x1 val) = false ->
        efp64_canonical (efp64_mul_seq_x1 val))
  /\ (forall (val : list efp64_t) (r : efp64_t),
        efp64_mul_seq_x4 val = Some r -> efp64_is_zero r = false -> efp64_canonical r)
  /\ (forall (val : list efp64_t) (r : efp64_t),
        efp64_mul_seq val = Some r -> efp64_is_zero r = false -> efp64_canonical r).
Proof.
  split.
  { intros d. unfold efp64_from_fp64. rewrite efp64_canonicalize_is_zero.
    apply efp64_canonicalize_canonical. }
  split; [exact efp64_add_canonical|].
  split; [exact efp64_mul_canonical|].
  split; [exact efp64_div_canonical|].
  split; [exact efp64_sqrt_canonical|].
  split; [exact efp64_scale_power2_canonical|].
  split; [exact efp64_mul_seq_x1_canonical|].
  split; [exact efp64_mul_seq_x4_canonical | exact efp64_mul_seq_canonical].
Qed.

Lemma efp64_three_canonical : efp64_canonical {| fp := 4613937818241073152; exp := 64 |}.
Proof.
  unfold efp64_canonical. cbn [fp exp].
  replace (fp64_get_exponent 4613937818241073152) with 1 by (vm_compute; reflexivity).
  split; [by_evaluation | vm_compute; reflexivity].
Qed.

Lemma efp64_canonical_invariant_witness :
  let a := {| fp := 4613937818241073152; exp := 64 |} in   (* 3 * 2^64 *)
  efp64_canonical (efp64_from_fp64 IEEE.two)
  /\ efp64_canonical (efp64_add a a)
  /\ efp64_canonical (efp64_mul a a)
  /\ efp64_canonical (efp64_add efp64_zero a)
  /\ efp64_canonical (efp64_div a a)
  /\ efp64_canonical (efp64_sqrt a)
  /\ efp64_canonical (efp64_scale_power2 a 128)
  /\ efp64_canonical (efp64_mul_seq_x1 [a; a]).
Proof.
  intros a.
  assert (Ha : efp64_canonical a) by exact efp64_three_canonical.
  assert (Ra : efp64_exp_in_range a) by by_evaluation.
  destruct efp64_canonical_invariant
    as (Hfrom & Hadd & Hmul & Hdiv & Hsqrt & Hscale & Hx1 & _ & _).
  split; [apply Hfrom; vm_compute; reflexivity|].
  split; [apply Hadd; try (right; exact Ha); try exact Ra; vm_compute; reflexivity|].
  split; [apply Hmul; try (right; exact Ha); vm_compute; reflexivity|].
  split; [apply Hadd; try (right; exact Ha); try (left; reflexivity); try exact Ra;
          try by_evaluation|].
  split; [apply Hdiv; try (right; exact Ha); try exact Ha; vm_compute; reflexivity|].
  split; [apply Hsqrt; vm_compute; reflexivity|].
  split; [apply Hscale; [exact Ha | vm_compute; reflexivity]|].
  apply Hx1; vm_compute; reflexivity.
Defined.

(** C1 (as stated) fails for [efp64_scale_power2] and for a division by
    zero: scaling the canonical 1 by [2^1] gives [exp = 1], not a multiple
    of 64, and 1 / 0 has an infinite significand, of exponent 1024. *)
Lemma efp64_canonical_form_lost :
  let one := efp64_from_fp64 IEEE.one in
  efp64_canonical one
  /\ efp64_canonical_or_zero efp64_zero
  /\ efp64_is_zero (efp64_scale_power2 one 1) = false
  /\ ~ efp64_canonical (efp64_scale_power2 one 1)
  /\ efp64_is_zero (efp64_div one efp64_zero) = false
  /\ ~ efp64_canonical (efp64_div one efp64_zero).
Proof.
  intros one. split; [|split; [left; reflexivity|]].
  - unfold efp64_canonical.
    replace (fp64_get_exponent (fp one)) with 0 by (vm_compute; reflexivity).
    replace (exp one mod EXP_MODULUS) with 0 by (vm_compute; reflexivity).
    split; [by_evaluation | reflexivity].
  - split; [vm_compute; reflexivity|]. split.
    + intros (_ & H). vm_compute in H. discriminate H.
    + split; [vm_compute; reflexivity|].
      intros (H & _). vm_compute in H. destruct H as (_ & H). discriminate H.
Qed.

(** ** The loop of the logarithm *)

(** The loop of [efp64_log2d] ends before the fuel does: it starts from a
    non-zero [log_val] and leaves with the most significant bit set. *)
Lemma log2_loop_normalizes (fuel : nat) (st : log2_state) :
  0 < log_val st < 2 ^ 64 -> 2 ^ 63 <= log_val st * 2 ^ Z.of_nat fuel ->
  2 ^ 63 <= log_val (log2_loop fuel st) < 2 ^ 64.
Proof.
  revert st. induction fuel as [|n IH]; intros st Hlv Hf.
  - cbn [log2_loop]. cbn in Hf. lia.
  - cbn [log2_loop]. rewrite Z.shiftr_div_pow2 by lia.
    destruct (Z.eqb_spec (log_val st / 2 ^ 63) 0) as [E | E].
    + assert (Hlt : log_val st < 2 ^ 63).
      { destruct (Z.lt_ge_cases (log_val st) (2 ^ 63)) as [H|H]; [exact H|].
        assert (1 <= log_val st / 2 ^ 63) by (apply Z.div_le_lower_bound; lia). lia. }
      rewrite Nat2Z.inj_succ, Z.pow_succ_r in Hf by lia.
      assert (Hp : 0 < 2 ^ Z.of_nat n) by (apply Z.pow_pos_nonneg; lia).
      apply IH.
      * unfold log2_step.
        rewrite (unsigned_in_range (log_val st * 2)) by lia.
        destruct (IEEE.geb _ _); cbn [log_val].
        -- rewrite unsigned_in_range by lia. lia.
        -- lia.
      * unfold log2_step.
        rewrite (unsigned_in_range (log_val st * 2)) by lia.
        destruct (IEEE.geb _ _); cbn [log_val].
        -- rewrite unsigned_in_range by lia. nia.
        -- nia.
    + split; [|lia].
      destruct (Z.lt_ge_cases (log_val st) (2 ^ 63)) as [H|H]; [|exact H].
      rewrite Z.div_small in E by lia. congruence.
Qed.

Lemma log2_loop_fuel (st : log2_state) :
  0 < log_val st < 2 ^ 64 -> Z.shiftr (log_val (log2_loop 64 st)) 63 = 1.
Proof.
  intros Hlv.
  pose proof (log2_loop_normalizes 64 st Hlv) as H.
  assert (Hb : 2 ^ 63 <= log_val (log2_loop 64 st) < 2 ^ 64).
  { apply H. change (Z.of_nat 64) with 64. lia. }
  rewrite Z.shiftr_div_pow2 by lia.
  symmetry. apply Z.div_unique with (r := log_val (log2_loop 64 st) - 2 ^ 63); lia.
Qed.

(** ** The scalar product of a sequence does not overflow *)

Lemma SF_is_zero_to_bits (x : spec_float) :
  SF_is_zero x ->
  IEEE.of_bits (IEEE.to_bits x) = x
  /\ efp64_is_zero {| fp := IEEE.to_bits x; exp := 0 |} = true.
Proof.
  destruct x as [s|s| |s m e]; cbn [SF_is_zero]; try tauto.
  intros _. destruct s; split; vm_compute; reflexivity.
Qed.

Lemma efp64_is_zero_fp (a : efp64_t) (E : Z) :
  efp64_is_zero {| fp := fp a; exp := E |} = efp64_is_zero a.
Proof. reflexivity. Qed.

Lemma SFmul_zero (x y : spec_float) :
  SF_is_zero x \/ SF_window 0 1024 x ->
  SF_is_zero y \/ SF_window 0 1024 y ->
  SF_is_zero x \/ SF_is_zero y ->
  SF_is_zero (SFmul IEEE.prec IEEE.emax x y).
Proof.
  destruct x as [sx|sx| |sx mx ex], y as [sy|sy| |sy my ey];
    cbn [SF_is_zero SF_window SFmul]; tauto.
Qed.

Lemma mul_seq_x1_step_inv (st : efp64_t * Z) (arg : efp64_t) :
  mul_seq_x1_inv st -> efp64_canonical_or_zero arg ->
  efp64_is_valid (efp64_quick_mul (fst st) arg) = true
  /\ mul_seq_x1_inv (mul_seq_x1_step st arg).
Proof.
  destruct st as [acc c]. unfold mul_seq_x1_inv. cbn [fst snd].
  change EFP64_MAX_MUL with 13. change EXP_MODULUS with 64.
  intros (Hc & Hacc) Harg.
  destruct (efp64_operand_cases arg Harg) as (_ & Hy).
  set (x := IEEE.of_bits (fp acc)) in *. set (y := IEEE.of_bits (fp arg)) in *.
  set (r := SFmul IEEE.prec IEEE.emax x y).
  assert (Hfp : fp (efp64_quick_mul acc arg) = IEEE.to_bits r) by reflexivity.
  assert (Hr : (SF_is_zero r \/ SF_window 0 (64 * (c + 2)) r)).
  { assert (Hy' : SF_is_zero y \/ SF_window 0 1024 y).
    { destruct Hy as [Zy | Wy]; [left; rewrite Zy; exact I | right].
      eapply SF_window_weaken; [exact Wy | lia | lia]. }
    destruct Hacc as [Zx | Wx].
    - left. apply SFmul_zero; [left; exact Zx | exact Hy' | left; exact Zx].
    - destruct Hy as [Zy | Wy].
      + left. apply SFmul_zero; [right | exact Hy' | right; rewrite Zy; exact I].
        eapply SF_window_weaken; [exact Wx | lia | lia].
      + right. replace (64 * (c + 2)) with (64 * (c + 1) + 64) by lia.
        apply SFmul_window; [exact Wx | exact Wy | lia]. }
  assert (Ho : IEEE.of_bits (IEEE.to_bits r) = r).
  { destruct Hr as [Zr | Wr].
    - destruct (SF_is_zero_to_bits r Zr) as (H & _). exact H.
    - destruct (SF_window_to_bits 0 (64 * (c + 2)) r Wr) as (H & _); [lia|lia|].
      exact H. }
  split.
  - unfold efp64_is_valid, IEEE.isnan, IEEE.isinf. rewrite Hfp, Ho.
    destruct r as [s|s| |s m e]; destruct Hr as [Zr | Wr];
      cbn [SF_is_zero SF_window] in *; try tauto; reflexivity.
  - unfold mul_seq_x1_step. change EFP64_MAX_MUL with 13.
    destruct (Z.gtb_spec (c + 1) 13) as [Hgt | Hle]; cbn [fst snd].
    + split; [lia|].
      destruct (efp64_is_zero (efp64_quick_mul acc arg)) eqn:Hz.
      * left. unfold efp64_canonicalize. rewrite Hz. exact I.
      * right. pose proof (efp64_canonicalize_canonical _ Hz) as Hcan.
        apply efp64_canonical_window_iff in Hcan. destruct Hcan as (Hw & _). exact Hw.
    + split; [lia|]. rewrite Hfp, Ho.
      destruct Hr as [Zr | Wr]; [left; exact Zr | right].
      replace (64 * (c + 1 + 1)) with (64 * (c + 2)) by lia. exact Wr.
Qed.

Lemma mul_seq_x1_products_valid (rest : list efp64_t) (st : efp64_t * Z) :
  mul_seq_x1_inv st -> Forall efp64_canonical_or_zero rest ->
  Forall (fun r => efp64_is_valid r = true) (mul_seq_x1_products rest st).
Proof.
  revert st. induction rest as [|arg rest IH]; intros st Hst Hrest; cbn [mul_seq_x1_products].
  - constructor.
  - inversion Hrest as [|? ? Harg Hrest']; subst.
    destruct (mul_seq_x1_step_inv st arg Hst Harg) as (Hv & Hst').
    constructor; [exact Hv | apply IH; assumption].
Qed.

(** X1: the scalar path is safe: in [efp64_mul_seq_x1], on operands that
    are canonical or the canonical zero, no accumulator is ever a NaN or
    an infinity. *)
Lemma efp64_mul_seq_x1_no_overflow (v0 : efp64_t) (rest : list efp64_t) :
  efp64_canonical_or_zero v0 -> Forall efp64_canonical_or_zero rest ->
  Forall (fun r => efp64_is_valid r = true) (mul_seq_x1_products rest (v0, 1)).
Proof.
  intros Hv0 Hrest. apply mul_seq_x1_products_valid; [|exact Hrest].
  unfold mul_seq_x1_inv. cbn [fst snd]. change EFP64_MAX_MUL with 13.
  change EXP_MODULUS with 64. split; [lia|].
  destruct (efp64_operand_cases v0 Hv0) as (_ & [-> | Hw]); [left; exact I | right].
  eapply SF_window_weaken; [exact Hw | lia | lia].
Qed.

(** ** The order of canonical values *)

Lemma cmp_finite (sa sb : bool) (ma mb : positive) (ea eb Xa Xb : Z) :
  Xa mod 64 = 0 -> Xb mod 64 = 0 ->
  0 <= ea + 52 < 64 -> 0 <= eb + 52 < 64 ->
  (if sa && negb sb then -1
   else if negb sa && sb then 1
   else
     let flip := if sa then -1 else 1 in
     if Xa >? Xb then flip
     else if Xa <? Xb then - flip
     else if SFltb (S754_finite sa ma ea) (S754_finite sb mb eb) then -1
     else if SFltb (S754_finite sb mb eb) (S754_finite sa ma ea) then 1
     else 0)
  = cmp_of_comparison
      (SFcompare (S754_finite sa ma (Xa + ea)) (S754_finite sb mb (Xb + eb))).
Proof.
  intros Ha Hb Hea Heb.
  pose proof (Z.div_mod Xa 64 ltac:(lia)) as Da. rewrite Ha in Da.
  pose proof (Z.div_mod Xb 64 ltac:(lia)) as Db. rewrite Hb in Db.
  unfold SFltb. cbn [SFcompare]. rewrite !compare_cont_Z.
  destruct sa, sb; cbn [andb negb cmp_of_comparison]; try reflexivity; cbv zeta.
  all: destruct (Z.gtb_spec Xa Xb); destruct (Z.ltb_spec Xa Xb); try lia;
    destruct (Z.compare_spec (Xa + ea) (Xb + eb));
    destruct (Z.compare_spec ea eb); try lia;
    destruct (Z.compare_spec eb ea); try lia;
    destruct (Z.compare_spec (Z.pos ma) (Z.pos mb));
    destruct (Z.compare_spec (Z.pos mb) (Z.pos ma)); try lia;
    cbn [CompOpp cmp_of_comparison]; try reflexivity; try lia.
Qed.

Lemma ltb_zero_finite (s : bool) (m : positive) (e : Z) :
  SFltb (S754_finite s m e) (S754_zero false) = s.
Proof. destruct s; reflexivity. Qed.

(** On canonical values [efp64_cmp] is the order of the doubles that
    carry the full exponents, were the exponent of a double unbounded. *)
Lemma efp64_cmp_canonical (a b : efp64_t) :
  efp64_canonical a -> efp64_canonical b ->
  efp64_cmp a b =
  cmp_of_comparison
    (SFcompare
       (S754_finite (fp64_get_sign (fp a) =? 1)
          (Z.to_pos (fp64_get_fraction (fp a) + 2 ^ 52))
          (exp a + (fp64_get_biased_exponent (fp a) - 1075)))
       (S754_finite (fp64_get_sign (fp b) =? 1)
          (Z.to_pos (fp64_get_fraction (fp b) + 2 ^ 52))
          (exp b + (fp64_get_biased_exponent (fp b) - 1075)))).
Proof.
  intros Ha Hb.
  pose proof (efp64_canonical_fields a Ha) as Hbea.
  pose proof (efp64_canonical_fields b Hb) as Hbeb.
  unfold efp64_cmp, IEEE.gtb, IEEE.ltb.
  rewrite (efp64_canonical_of_bits a Ha), (efp64_canonical_of_bits b Hb).
  change (IEEE.of_bits IEEE.zero) with (S754_zero false).
  rewrite !ltb_zero_finite.
  destruct Ha as (_ & Hma). destruct Hb as (_ & Hmb).
  apply cmp_finite; try assumption; lia.
Qed.

Lemma efp64_to_fp64_canonical (a : efp64_t) :
  efp64_canonical a -> efp64_fits_fp64 a ->
  IEEE.of_bits (efp64_to_fp64 a) =
  S754_finite (fp64_get_sign (fp a) =? 1)
    (Z.to_pos (fp64_get_fraction (fp a) + 2 ^ 52))
    (exp a + (fp64_get_biased_exponent (fp a) - 1075)).
Proof.
  intros Ha Hf. unfold efp64_fits_fp64 in Hf.
  rewrite fp64_get_exponent_biased in Hf.
  destruct (fp64_fields_of (fp a)) as (Hs & Hbe & Hfr).
  rewrite efp64_to_fp64_nonzero by (apply efp64_canonical_nonzero, Ha). cbv zeta.
  assert (He : efp64_full_exponent a = exp a + (fp64_get_biased_exponent (fp a) - 1023)).
  { unfold efp64_full_exponent, Int64.add. rewrite fp64_get_exponent_biased.
    apply signed_in_range. unfold Int64.in_range, Int64.INT64_MIN, Int64.INT64_MAX. lia. }
  rewrite He.
  destruct (Z.leb_spec (exp a + (fp64_get_biased_exponent (fp a) - 1023)) (-1023)); [lia|].
  destruct (Z.leb_spec 1024 (exp a + (fp64_get_biased_exponent (fp a) - 1023))); [lia|].
  rewrite of_bits_pack by (unfold fp64_fields; lia).
  rewrite of_fields_normal by lia. f_equal. lia.
Qed.

(** X2: where the order is the native one: on values that are canonical, or the
    canonical zero, and fit a double, [efp64_cmp] is the order of the
    doubles they convert to. *)
Lemma efp64_cmp_native_order (a b : efp64_t) :
  a = efp64_zero \/ (efp64_canonical a /\ efp64_fits_fp64 a) ->
  b = efp64_zero \/ (efp64_canonical b /\ efp64_fits_fp64 b) ->
  efp64_cmp a b =
  cmp_of_comparison
    (SFcompare (IEEE.of_bits (efp64_to_fp64 a)) (IEEE.of_bits (efp64_to_fp64 b))).
Proof.
  intros [-> | (Ha & Fa)] [-> | (Hb & Fb)].
  - vm_compute; reflexivity.
  - rewrite (efp64_to_fp64_canonical b Hb Fb).
    change (IEEE.of_bits (efp64_to_fp64 efp64_zero)) with (S754_zero false).
    unfold efp64_cmp, IEEE.gtb, IEEE.ltb.
    rewrite (efp64_canonical_of_bits b Hb).
    change (IEEE.of_bits (fp efp64_zero)) with (S754_zero false).
    change (IEEE.of_bits IEEE.zero) with (S754_zero false).
    rewrite ltb_zero_finite. cbn [SFltb SFcompare andb negb].
    unfold efp64_fits_fp64 in Fb. rewrite fp64_get_exponent_biased in Fb.
    pose proof (efp64_canonical_fields b Hb) as Hbe.
    change (exp efp64_zero) with ZEXP. rewrite ZEXP_value.
    destruct (fp64_get_sign (fp b) =? 1); cbn [cmp_of_comparison]; [reflexivity|].
    destruct (Z.gtb_spec (- 2 ^ 62) (exp b)); [lia|].
    destruct (Z.ltb_spec (- 2 ^ 62) (exp b)); [reflexivity|lia].
  - rewrite (efp64_to_fp64_canonical a Ha Fa).
    change (IEEE.of_bits (efp64_to_fp64 efp64_zero)) with (S754_zero false).
    unfold efp64_cmp, IEEE.gtb, IEEE.ltb.
    rewrite (efp64_canonical_of_bits a Ha).
    change (IEEE.of_bits (fp efp64_zero)) with (S754_zero false).
    change (IEEE.of_bits IEEE.zero) with (S754_zero false).
    rewrite ltb_zero_finite. cbn [SFltb SFcompare andb negb].
    unfold efp64_fits_fp64 in Fa. rewrite fp64_get_exponent_biased in Fa.
    pose proof (efp64_canonical_fields a Ha) as Hbe.
    change (exp efp64_zero) with ZEXP. rewrite ZEXP_value.
    destruct (fp64_get_sign (fp a) =? 1); cbn [cmp_of_comparison andb]; [reflexivity|].
    destruct (Z.gtb_spec (exp a) (- 2 ^ 62)); [reflexivity|lia].
  - rewrite (efp64_to_fp64_canonical a Ha Fa), (efp64_to_fp64_canonical b Hb Fb).
    apply efp64_cmp_canonical; assumption.
Qed.

Lemma SFcompare_finite_antisym (s1 s2 : bool) (m1 m2 : positive) (e1 e2 : Z) :
  cmp_of_comparison (SFcompare (S754_finite s2 m2 e2) (S754_finite s1 m1 e1)) =
  - cmp_of_comparison (SFcompare (S754_finite s1 m1 e1) (S754_finite s2 m2 e2)).
Proof.
  cbn [SFcompare]. rewrite !compare_cont_Z.
  destruct s1, s2; cbn [cmp_of_comparison]; try reflexivity.
  all: destruct (Z.compare_spec e1 e2); destruct (Z.compare_spec e2 e1); try lia;
    destruct (Z.compare_spec (Z.pos m1) (Z.pos m2));
    destruct (Z.compare_spec (Z.pos m2) (Z.pos m1)); try lia;
    cbn [CompOpp cmp_of_comparison]; reflexivity.
Qed.

Lemma cmp_finite_eq (sa sb : bool) (ma mb : positive) (ea eb Xa Xb : Z) :
  Xa mod 64 = 0 -> Xb mod 64 = 0 ->
  0 <= ea + 52 < 64 -> 0 <= eb + 52 < 64 ->
  cmp_of_comparison
    (SFcompare (S754_finite sa ma (Xa + ea)) (S754_finite sb mb (Xb + eb))) = 0
  <-> SFeqb (S754_finite sa ma ea) (S754_finite sb mb eb) && (Xa =? Xb) = true.
Proof.
  intros Ha Hb Hea Heb.
  pose proof (Z.div_mod Xa 64 ltac:(lia)) as Da. rewrite Ha in Da.
  pose proof (Z.div_mod Xb 64 ltac:(lia)) as Db. rewrite Hb in Db.
  unfold SFeqb. cbn [SFcompare]. rewrite !compare_cont_Z.
  destruct sa, sb; cbn [andb negb cmp_of_comparison];
    try (split; intro; discriminate).
  all: destruct (Z.eqb_spec Xa Xb);
    destruct (Z.compare_spec (Xa + ea) (Xb + eb));
    destruct (Z.compare_spec ea eb); try lia;
    destruct (Z.compare_spec (Z.pos ma) (Z.pos mb));
    cbn [CompOpp cmp_of_comparison andb];
    split; intro; try reflexivity; try discriminate; try lia.
Qed.

(** On canonical values, swapping the operands of [efp64_cmp]
    negates its result. *)
Lemma efp64_cmp_antisym (a b : efp64_t) :
  efp64_canonical a -> efp64_canonical b ->
  efp64_cmp b a = - efp64_cmp a b.
Proof.
  intros Ha Hb.
  rewrite (efp64_cmp_canonical a b Ha Hb), (efp64_cmp_canonical b a Hb Ha).
  apply SFcompare_finite_antisym.
Qed.

(** On canonical values, [efp64_cmp] returns 0 exactly where
    [efp64_is_equal] holds. *)
Lemma efp64_cmp_equal (a b : efp64_t) :
  efp64_canonical a -> efp64_canonical b ->
  efp64_cmp a b = 0 <-> efp64_is_equal a b = true.
Proof.
  intros Ha Hb.
  pose proof (efp64_canonical_fields a Ha) as Hbea.
  pose proof (efp64_canonical_fields b Hb) as Hbeb.
  rewrite (efp64_cmp_canonical a b Ha Hb).
  unfold efp64_is_equal. rewrite (efp64_canonical_nonzero a Ha).
  unfold IEEE.eqb.
  rewrite (efp64_canonical_of_bits a Ha), (efp64_canonical_of_bits b Hb).
  destruct Ha as (_ & Hma). destruct Hb as (_ & Hmb).
  apply cmp_finite_eq; try assumption; lia.
Qed.

Lemma efp64_mul_seq_x1_no_overflow_witness :
  let a := {| fp := 4613937818241073152; exp := 64 |} in
  Forall (fun r => efp64_is_valid r = true)
    (mul_seq_x1_products [a; efp64_zero] (a, 1)).
Proof.
  intros a.
  assert (Ha : efp64_canonical a) by exact efp64_three_canonical.
  apply (efp64_mul_seq_x1_no_overflow a [a; efp64_zero]).
  - right; exact Ha.
  - constructor; [right; exact Ha|].
    constructor; [left; reflexivity | constructor].
Defined.

Lemma efp64_cmp_native_order_witness :
  let a := {| fp := 4613937818241073152; exp := 64 |} in
  efp64_cmp a efp64_zero =
  cmp_of_comparison
    (SFcompare (IEEE.of_bits (efp64_to_fp64 a))
       (IEEE.of_bits (efp64_to_fp64 efp64_zero))).
Proof.
  intros a.
  assert (Ha : efp64_canonical a) by exact efp64_three_canonical.
  assert (Fa : efp64_fits_fp64 a) by by_evaluation.
  exact (efp64_cmp_native_order a efp64_zero (or_intror (conj Ha Fa)) (or_introl eq_refl)).
Defined.

Lemma efp64_cmp_antisym_witness :
  let a := {| fp := 4613937818241073152; exp := 64 |} in
  let b := {| fp := IEEE.minus_one; exp := 0 |} in
  efp64_cmp b a = - efp64_cmp a b.
Proof.
  intros a b.
  assert (Ha : efp64_canonical a) by exact efp64_three_canonical.
  assert (Hb : efp64_canonical b) by by_evaluation.
  exact (efp64_cmp_antisym a b Ha Hb).
Defined.

Lemma efp64_cmp_equal_witness :
  let a := {| fp := 4613937818241073152; exp := 64 |} in
  efp64_cmp a a = 0 <-> efp64_is_equal a a = true.
Proof.
  intros a.
  assert (Ha : efp64_canonical a) by exact efp64_three_canonical.
  exact (efp64_cmp_equal a a Ha Ha).
Defined.

(** ** Canonicalization and conversion, for every input *)

Lemma pack_normal_valid (s be f : Z) :
  0 <= s < 2 -> 0 < be < 2047 -> 0 <= f < 2 ^ 52 ->
  IEEE.isnan (fp64_pack s be f) = false
  /\ IEEE.isinf (fp64_pack s be f) = false
  /\ fp64_is_subnormal (fp64_pack s be f) = false.
Proof.
  intros Hs Hbe Hf.
  assert (Hfl : fp64_fields s be f) by (unfold fp64_fields; lia).
  unfold IEEE.isnan, IEEE.isinf, fp64_is_subnormal.
  rewrite of_bits_pack by assumption. rewrite of_fields_normal by lia.
  rewrite fp64_get_biased_exponent_pack by assumption.
  destruct (Z.eqb_spec be 0); [lia|]. repeat split.
Qed.

(** X5: whatever its input, a NaN or an infinity included,
    [efp64_canonicalize] returns a value whose significand is neither a
    NaN nor an infinity; so does [efp64_from_fp64]. *)
Theorem efp64_canonicalize_valid (a : efp64_t) (d : fp64_t) :
  efp64_is_valid (efp64_canonicalize a) = true
  /\ efp64_is_valid (efp64_from_fp64 d) = true.
Proof.
  assert (H : forall x : efp64_t, efp64_is_valid (efp64_canonicalize x) = true).
  { intros x. destruct (efp64_is_zero x) eqn:Hz.
    - unfold efp64_canonicalize. rewrite Hz. vm_compute; reflexivity.
    - rewrite efp64_canonicalize_nonzero by assumption.
      pose proof (lo_part_range (efp64_full_exponent x)) as Hlo.
      change EXP_MODULUS with 64 in Hlo.
      destruct (fp64_fields_of (fp x)) as (Hs & _ & Hf).
      unfold efp64_is_valid; cbn [fp].
      destruct (pack_normal_valid (fp64_get_sign (fp x))
                  (lo_part (efp64_full_exponent x) EXP_BITS + 1023)
                  (fp64_get_fraction (fp x))) as (Hn & Hi & _); try lia.
      rewrite Hn, Hi. reflexivity. }
  split; [apply H | apply (H {| exp := 0; fp := d |})].
Qed.

(** X6: [efp64_to_fp64] returns a zero, a normal double or an infinity:
    never a NaN and never a subnormal double, whatever the value. *)
Theorem efp64_to_fp64_regular (a : efp64_t) :
  IEEE.isnan (efp64_to_fp64 a) = false
  /\ fp64_is_subnormal (efp64_to_fp64 a) = false.
Proof.
  destruct (efp64_is_zero a) eqn:Hz.
  - unfold efp64_to_fp64. rewrite Hz. split; vm_compute; reflexivity.
  - rewrite efp64_to_fp64_nonzero by assumption. cbv zeta.
    destruct (fp64_fields_of (fp a)) as (Hs & _ & Hf).
    destruct (Z.leb_spec (efp64_full_exponent a) (-1023)).
    { split; vm_compute; reflexivity. }
    destruct (Z.leb_spec 1024 (efp64_full_exponent a)).
    + assert (Hfl : fp64_fields (fp64_get_sign (fp a)) 2047 0)
        by (unfold fp64_fields; lia).
      unfold IEEE.isnan, fp64_is_subnormal.
      rewrite of_bits_pack, fp64_get_biased_exponent_pack by assumption.
      split; reflexivity.
    + destruct (pack_normal_valid (fp64_get_sign (fp a))
                  (efp64_full_exponent a + 1023)
                  (fp64_get_fraction (fp a))) as (Hn & _ & Hsub); try lia.
      split; assumption.
Qed.

(** X7: [efp64_canonicalize] is idempotent. *)
Theorem efp64_canonicalize_idempotent (a : efp64_t) :
  efp64_canonicalize (efp64_canonicalize a) = efp64_canonicalize a.
Proof.
  destruct (efp64_is_zero a) eqn:Hz.
  - assert (E : efp64_canonicalize a = efp64_zero)
      by (unfold efp64_canonicalize; rewrite Hz; reflexivity).
    rewrite !E. vm_compute; reflexivity.
  - assert (Hz' : efp64_is_zero (efp64_canonicalize a) = false)
      by (rewrite efp64_canonicalize_is_zero; exact Hz).
    rewrite (efp64_canonicalize_nonzero (efp64_canonicalize a) Hz').
    rewrite (efp64_canonicalize_full_exponent a Hz).
    rewrite (efp64_canonicalize_nonzero a Hz). cbn [fp exp].
    pose proof (lo_part_range (efp64_full_exponent a)) as Hlo.
    change EXP_MODULUS with 64 in Hlo.
    destruct (fp64_fields_of (fp a)) as (Hs & _ & Hf).
    rewrite fp64_get_sign_pack, fp64_get_fraction_pack
      by (unfold fp64_fields; lia).
    reflexivity.
Qed.

(** X8: canonicalization does not change the double a value converts
    to. *)
Theorem efp64_to_fp64_canonicalize (a : efp64_t) :
  efp64_to_fp64 (efp64_canonicalize a) = efp64_to_fp64 a.
Proof.
  destruct (efp64_is_zero a) eqn:Hz.
  - assert (E : efp64_canonicalize a = efp64_zero)
      by (unfold efp64_canonicalize; rewrite Hz; reflexivity).
    rewrite E. unfold efp64_to_fp64 at 2. rewrite Hz. vm_compute; reflexivity.
  - assert (Hz' : efp64_is_zero (efp64_canonicalize a) = false)
      by (rewrite efp64_canonicalize_is_zero; exact Hz).
    rewrite (efp64_to_fp64_nonzero _ Hz'), (efp64_to_fp64_nonzero _ Hz).
    rewrite (efp64_canonicalize_full_exponent a Hz).
    rewrite (efp64_canonicalize_nonzero a Hz). cbn [fp exp].
    pose proof (lo_part_range (efp64_full_exponent a)) as Hlo.
    change EXP_MODULUS with 64 in Hlo.
    destruct (fp64_fields_of (fp a)) as (Hs & _ & Hf).
    rewrite fp64_get_sign_pack, fp64_get_fraction_pack
      by (unfold fp64_fields; lia).
    reflexivity.
Qed.

(** X9: the round trip from the extended side: a canonical value whose
    full exponent is that of a normal double is recovered, bit for bit,
    from the double it converts to. *)
Theorem efp64_from_fp64_to_fp64 (a : efp64_t) :
  fp64_wf (fp a) -> efp64_canonical a -> efp64_fits_fp64 a ->
  efp64_from_fp64 (efp64_to_fp64 a) = a.
Proof.
  intros Hwf Ha Hf. unfold efp64_fits_fp64 in Hf.
  rewrite fp64_get_exponent_biased in Hf.
  pose proof (efp64_canonical_fields a Ha) as Hbe.
  destruct (fp64_fields_of (fp a)) as (Hs & _ & Hfr).
  destruct (fp64_unpack (fp a) Hwf) as (Hpk & _).
  rewrite efp64_to_fp64_nonzero by (apply efp64_canonical_nonzero, Ha). cbv zeta.
  assert (He : efp64_full_exponent a = exp a + (fp64_get_biased_exponent (fp a) - 1023)).
  { unfold efp64_full_exponent, Int64.add. rewrite fp64_get_exponent_biased.
    apply signed_in_range. unfold Int64.in_range, Int64.INT64_MIN, Int64.INT64_MAX. lia. }
  rewrite He.
  set (E := exp a + (fp64_get_biased_exponent (fp a) - 1023)) in *.
  destruct (Z.leb_spec E (-1023)); [lia|].
  destruct (Z.leb_spec 1024 E); [lia|].
  set (d := fp64_pack (fp64_get_sign (fp a)) (E + 1023) (fp64_get_fraction (fp a))).
  assert (Hfl : fp64_fields (fp64_get_sign (fp a)) (E + 1023) (fp64_get_fraction (fp a)))
    by (unfold fp64_fields; lia).
  assert (Hz : efp64_is_zero {| exp := 0; fp := d |} = false).
  { rewrite efp64_is_zero_fields; cbn [fp]. unfold d.
    rewrite fp64_get_biased_exponent_pack by assumption.
    destruct (Z.eqb_spec (E + 1023) 0); [lia | reflexivity]. }
  unfold efp64_from_fp64. rewrite (efp64_canonicalize_nonzero _ Hz).
  assert (Hfe : efp64_full_exponent {| exp := 0; fp := d |} = E).
  { unfold efp64_full_exponent, Int64.add; cbn [fp exp]. unfold d.
    rewrite fp64_get_exponent_biased, fp64_get_biased_exponent_pack by assumption.
    replace (0 + (E + 1023 - 1023)) with E by lia.
    apply signed_in_range. unfold Int64.in_range, Int64.INT64_MIN, Int64.INT64_MAX. lia. }
  rewrite Hfe. cbn [fp]. unfold d.
  rewrite fp64_get_sign_pack, fp64_get_fraction_pack by assumption.
  rewrite hi_part_6, lo_part_6.
  destruct Ha as (_ & Hm). change EXP_MODULUS with 64 in Hm.
  assert (Hmod : E mod 64 = fp64_get_biased_exponent (fp a) - 1023).
  { unfold E. rewrite Z.add_mod, Hm, Z.add_0_l, Z.mod_mod by lia.
    apply Z.mod_small. lia. }
  rewrite Hmod.
  replace (fp64_get_biased_exponent (fp a) - 1023 + 1023)
    with (fp64_get_biased_exponent (fp a)) by lia.
  rewrite <- Hpk.
  replace (E - (fp64_get_biased_exponent (fp a) - 1023)) with (exp a) by (unfold E; lia).
  destruct a; reflexivity.
Qed.

Lemma efp64_from_fp64_to_fp64_witness :
  let a := {| fp := 4613937818241073152; exp := 64 |} in
  efp64_from_fp64 (efp64_to_fp64 a) = a.
Proof.
  intros a.
  assert (Ha : efp64_canonical a) by exact efp64_three_canonical.
  assert (Hw : fp64_wf (fp a)) by by_evaluation.
  assert (Fa : efp64_fits_fp64 a) by by_evaluation.
  exact (efp64_from_fp64_to_fp64 a Hw Ha Fa).
Defined.

(** ** Splitting an integer, for every number of bits *)

Lemma hi_lo_part_mod (x bits : Z) :
  0 <= bits ->
  lo_part x bits = x mod 2 ^ bits /\ hi_part x bits = x - x mod 2 ^ bits.
Proof.
  intros Hb. split.
  - unfold lo_part. rewrite Z.shiftl_1_l, Z.sub_1_r, <- Z.ones_equiv.
    apply Z.land_ones. assumption.
  - unfold hi_part.
    replace (Z.shiftl (Z.lnot 0) bits) with (Z.lnot (Z.ones bits)).
    + rewrite <- Z.ldiff_land, Z.ldiff_ones_r by assumption.
      rewrite Z.shiftl_mul_pow2, Z.shiftr_div_pow2 by assumption.
      pose proof (Z.div_mod x (2 ^ bits)). lia.
    + rewrite Z.shiftl_mul_pow2 by assumption.
      rewrite Z.ones_equiv. unfold Z.lnot. lia.
Qed.

(** X10: [hi_part] and [lo_part] split an [int64_t] at any bit position
    below the sign bit: the low part lies in [0, 2^bits), the high part
    is a multiple of [2^bits] and an [int64_t] again, no mask overflows,
    and the two parts add up to the integer, negative ones included. *)
Theorem hi_lo_part_split (x bits : Z) :
  Int64.in_range x -> 0 <= bits < 63 ->
  hi_part x bits + lo_part x bits = x
  /\ 0 <= lo_part x bits < 2 ^ bits
  /\ hi_part x bits mod 2 ^ bits = 0
  /\ Int64.in_range (hi_part x bits)
  /\ Int64.in_range (Z.shiftl (Z.lnot 0) bits)
  /\ Int64.in_range (Z.shiftl 1 bits).
Proof.
  intros Hx Hb.
  destruct (hi_lo_part_mod x bits) as (Hlo & Hhi); [lia|].
  assert (Hp : 0 < 2 ^ bits) by (apply Z.pow_pos_nonneg; lia).
  assert (Hq : 2 ^ bits <= 2 ^ 62) by (apply Z.pow_le_mono_r; lia).
  assert (H63 : 2 ^ 63 = 2 ^ (63 - bits) * 2 ^ bits)
    by (rewrite <- Z.pow_add_r by lia; f_equal; lia).
  pose proof (Z.mod_pos_bound x (2 ^ bits) Hp) as Hm.
  pose proof (Z.div_mod x (2 ^ bits) ltac:(lia)) as D.
  unfold Int64.in_range, Int64.INT64_MIN, Int64.INT64_MAX in *.
  rewrite Hlo, Hhi, !Z.shiftl_mul_pow2 by lia.
  unfold Z.lnot. cbn [Z.pred Z.opp Z.add Z.pos_sub].
  repeat split; try lia.
  - replace (x - x mod 2 ^ bits) with (x / 2 ^ bits * 2 ^ bits) by lia.
    apply Z.mod_mul. lia.
  - assert (- 2 ^ (63 - bits) <= x / 2 ^ bits)
      by (apply Z.div_le_lower_bound; lia).
    nia.
Qed.

Lemma hi_lo_part_split_witness :
  hi_part (-1000) 6 + lo_part (-1000) 6 = -1000
  /\ 0 <= lo_part (-1000) 6 < 2 ^ 6
  /\ hi_part (-1000) 6 mod 2 ^ 6 = 0
  /\ Int64.in_range (hi_part (-1000) 6)
  /\ Int64.in_range (Z.shiftl (Z.lnot 0) 6)
  /\ Int64.in_range (Z.shiftl 1 6).
Proof.
  apply (hi_lo_part_split (-1000) 6); [by_evaluation | lia].
Defined.

(** ** Negation *)

Lemma neg_fields (x : fp64_t) :
  fp64_get_sign (IEEE.neg x) = 1 - fp64_get_sign x
  /\ fp64_get_biased_exponent (IEEE.neg x) = fp64_get_biased_exponent x
  /\ fp64_get_fraction (IEEE.neg x) = fp64_get_fraction x.
Proof.
  repeat split.
  - pose proof (testbit_63 x) as Hx. pose proof (testbit_63 (IEEE.neg x)) as Hn.
    destruct (fp64_fields_of x) as (Hs & _ & _).
    destruct (fp64_fields_of (IEEE.neg x)) as (Hs' & _ & _).
    unfold IEEE.neg in Hn at 1. rewrite Z.lxor_spec, Z.pow2_bits_true in Hn by lia.
    rewrite Hx in Hn.
    destruct (Z.eqb_spec (fp64_get_sign x) 1);
      destruct (Z.eqb_spec (fp64_get_sign (IEEE.neg x)) 1);
      cbn in Hn; try discriminate; lia.
  - unfold fp64_get_biased_exponent, fp64_get_bits, IEEE.neg,
      FP64_EXP_OFFSET, FP64_EXP_MASK.
    change 2047 with (Z.ones 11).
    apply Z.bits_inj'. intros n Hn.
    rewrite !Z.land_spec, !Z.shiftr_spec, Z.lxor_spec by assumption.
    destruct (Z.ltb_spec n 11).
    + rewrite Z.pow2_bits_false by lia. rewrite xorb_false_r. reflexivity.
    + rewrite Z.ones_spec_high by lia. rewrite !andb_false_r. reflexivity.
  - rewrite !fp64_get_fraction_mod. unfold IEEE.neg.
    rewrite <- !Z.land_ones by lia.
    apply Z.bits_inj'. intros n Hn.
    rewrite !Z.land_spec, Z.lxor_spec.
    destruct (Z.ltb_spec n 52).
    + rewrite Z.pow2_bits_false by lia. rewrite xorb_false_r. reflexivity.
    + rewrite Z.ones_spec_high by lia. rewrite !andb_false_r. reflexivity.
Qed.

Lemma of_bits_neg (x : fp64_t) :
  IEEE.of_bits (IEEE.neg x) = SFopp (IEEE.of_bits x).
Proof.
  rewrite !of_bits_fields.
  destruct (neg_fields x) as (Hs & Hbe & Hf). rewrite Hs, Hbe, Hf.
  destruct (fp64_fields_of x) as (Hsr & _ & _).
  assert (E : (1 - fp64_get_sign x =? 1) = negb (fp64_get_sign x =? 1)).
  { destruct (Z.eqb_spec (fp64_get_sign x) 1);
      destruct (Z.eqb_spec (1 - fp64_get_sign x) 1); cbn; try reflexivity; lia. }
  unfold of_fields. rewrite E.
  destruct (fp64_get_biased_exponent x =? 0).
  { destruct (fp64_get_fraction x); reflexivity. }
  destruct (fp64_get_biased_exponent x =? 2047).
  { destruct (fp64_get_fraction x =? 0); reflexivity. }
  destruct (fp64_get_fraction x + 2 ^ 52); reflexivity.
Qed.



(** ** Multiplication *)

Lemma SFmul_comm (x y : spec_float) :
  SFmul IEEE.prec IEEE.emax x y = SFmul IEEE.prec IEEE.emax y x.
Proof.
  destruct x as [sx|sx| |sx mx ex], y as [sy|sy| |sy my ey]; cbn [SFmul];
    try rewrite (xorb_comm sx sy); try reflexivity.
  rewrite (Pos.mul_comm mx my), (Z.add_comm ex ey). reflexivity.
Qed.

Lemma efp64_quick_mul_comm (a b : efp64_t) :
  efp64_quick_mul a b = efp64_quick_mul b a.
Proof.
  unfold efp64_quick_mul, Int64.add, IEEE.mul.
  rewrite (Z.add_comm (exp a) (exp b)), (SFmul_comm (IEEE.of_bits (fp a))). reflexivity.
Qed.

(** X12: [efp64_mul] is commutative, bit for bit, on valid values (a
    NaN operand apart, whose payload the model does not follow). *)
Theorem efp64_mul_comm (a b : efp64_t) :
  efp64_is_valid a = true -> efp64_is_valid b = true ->
  efp64_mul a b = efp64_mul b a.
Proof.
  intros _ _. unfold efp64_mul. rewrite (efp64_quick_mul_comm a b). reflexivity.
Qed.

Lemma efp64_mul_comm_witness :
  let a := {| fp := 4613937818241073152; exp := 64 |} in
  let b := {| fp := IEEE.minus_one; exp := 0 |} in
  efp64_mul a b = efp64_mul b a.
Proof.
  intros a b.
  apply (efp64_mul_comm a b); vm_compute; reflexivity.
Defined.

(** ** The neutral elements *)

Lemma efp64_quick_down_canonicalize_canonical (a : efp64_t) :
  efp64_canonical a -> efp64_quick_down_canonicalize a = a.
Proof.
  intros Ha. unfold efp64_quick_down_canonicalize.
  destruct (efp64_canonical_window a Ha) as (_ & Hg). rewrite Hg. reflexivity.
Qed.

Lemma mul_one_canonical (a : efp64_t) :
  fp64_wf (fp a) -> efp64_canonical a -> IEEE.mul (fp a) IEEE.one = fp a.
Proof.
  intros Hwf Ha. unfold IEEE.mul.
  pose proof (efp64_canonical_fields a Ha) as Hbe.
  destruct (fp64_fields_of (fp a)) as (_ & _ & Hf).
  rewrite of_bits_one. change (-52) with (0 - 52).
  rewrite (efp64_canonical_of_bits a Ha).
  rewrite SFmul_power2 by (rewrite ?Z2Pos.id by lia; lia).
  rewrite Z.add_0_r, <- (efp64_canonical_of_bits a Ha).
  apply to_bits_of_bits; [assumption | apply efp64_canonical_not_nan, Ha].
Qed.

(** X13: the value [efp64_from_fp64 1.0] is neutral for [efp64_mul] on
    canonical values, bit for bit and on either side. *)
Theorem efp64_mul_one (a : efp64_t) :
  efp64_wf a -> efp64_canonical a ->
  efp64_mul a (efp64_from_fp64 IEEE.one) = a
  /\ efp64_mul (efp64_from_fp64 IEEE.one) a = a.
Proof.
  intros (Hwf & Hr) Ha.
  assert (E1 : efp64_from_fp64 IEEE.one = {| fp := IEEE.one; exp := 0 |})
    by (vm_compute; reflexivity).
  assert (H : efp64_mul a (efp64_from_fp64 IEEE.one) = a).
  { rewrite E1. unfold efp64_mul, efp64_quick_mul. cbn [fp exp].
    rewrite (mul_one_canonical a Hwf Ha).
    unfold Int64.add. rewrite Z.add_0_r, (signed_in_range _ Hr).
    replace {| fp := fp a; exp := exp a |} with a by (destruct a; reflexivity).
    apply efp64_quick_down_canonicalize_canonical, Ha. }
  split; [exact H|].
  unfold efp64_mul. rewrite efp64_quick_mul_comm. exact H.
Qed.

Lemma efp64_mul_one_witness :
  let a := {| fp := 4613937818241073152; exp := 64 |} in
  efp64_mul a (efp64_from_fp64 IEEE.one) = a
  /\ efp64_mul (efp64_from_fp64 IEEE.one) a = a.
Proof.
  intros a.
  assert (Ha : efp64_canonical a) by exact efp64_three_canonical.
  assert (Hw : efp64_wf a) by by_evaluation.
  exact (efp64_mul_one a Hw Ha).
Defined.

Lemma fp64_power2_valid (p : Z) :
  p <= 1023 ->
  IEEE.isnan (fp64_power2 p) = false /\ IEEE.isinf (fp64_power2 p) = false.
Proof.
  intros Hp. destruct (Z.leb_spec p (-1023)).
  - rewrite fp64_power2_underflow by assumption. split; vm_compute; reflexivity.
  - rewrite fp64_power2_pack by lia.
    destruct (pack_normal_valid 0 (p + 1023) 0) as (Hn & Hi & _); try lia.
    split; assumption.
Qed.

Lemma fma_zero_first (p z : fp64_t) :
  fp64_wf z ->
  IEEE.isnan p = false -> IEEE.isinf p = false ->
  (exists s m e, IEEE.of_bits z = S754_finite s m e) ->
  IEEE.fma IEEE.zero p z = z.
Proof.
  intros Hwf Hn Hi (s & m & e & Hz). unfold IEEE.fma.
  change (IEEE.of_bits IEEE.zero) with (S754_zero false).
  assert (Hp : exists sp, IEEE.exact_mul (S754_zero false) (IEEE.of_bits p) = IEEE.P_zero sp).
  { unfold IEEE.isnan in Hn. unfold IEEE.isinf in Hi.
    destruct (IEEE.of_bits p); try discriminate; eexists; reflexivity. }
  destruct Hp as (sp & Hp). unfold IEEE.SFfma. rewrite Hp, Hz, <- Hz.
  apply to_bits_of_bits; [assumption|].
  unfold IEEE.isnan. rewrite Hz. reflexivity.
Qed.

(** X14: the canonical zero is neutral for [efp64_add] on canonical
    values, bit for bit and on either side, as long as [exp] lies above
    the sentinel and the difference of the exponents fits [int64_t]. *)
Theorem efp64_add_zero (a : efp64_t) :
  efp64_wf a -> efp64_canonical a -> ZEXP < exp a <= - ZEXP ->
  efp64_add a efp64_zero = a /\ efp64_add efp64_zero a = a.
Proof.
  intros (Hwf & _) Ha Hr. rewrite ZEXP_value in Hr.
  assert (Hs : Int64.sub (exp efp64_zero) (exp a) <= 1023).
  { unfold Int64.sub. change (exp efp64_zero) with ZEXP. rewrite ZEXP_value.
    rewrite signed_in_range
      by (unfold Int64.in_range, Int64.INT64_MIN, Int64.INT64_MAX; lia).
    lia. }
  destruct (fp64_power2_valid _ Hs) as (Hn & Hi).
  assert (Hf : IEEE.fma (fp efp64_zero)
                 (fp64_power2 (Int64.sub (exp efp64_zero) (exp a))) (fp a) = fp a).
  { change (fp efp64_zero) with IEEE.zero.
    apply fma_zero_first; try assumption.
    rewrite efp64_canonical_of_bits by assumption. eauto. }
  assert (Hq : efp64_quick_canonicalize {| fp := fp a; exp := exp a |} = a).
  { destruct a as [fa ea]. apply efp64_quick_canonicalize_canonical, Ha. }
  unfold efp64_add. change (exp efp64_zero) with ZEXP in *. rewrite ZEXP_value in *.
  split.
  - destruct (Z.gtb_spec (exp a) (- 2 ^ 62)); [|lia]. rewrite Hf. exact Hq.
  - destruct (Z.gtb_spec (- 2 ^ 62) (exp a)); [lia|]. rewrite Hf. exact Hq.
Qed.

Lemma efp64_add_zero_witness :
  let a := {| fp := 4613937818241073152; exp := 64 |} in
  efp64_add a efp64_zero = a /\ efp64_add efp64_zero a = a.
Proof.
  intros a.
  assert (Ha : efp64_canonical a) by exact efp64_three_canonical.
  assert (Hw : efp64_wf a) by by_evaluation.
  assert (Hr : ZEXP < exp a <= - ZEXP) by by_evaluation.
  exact (efp64_add_zero a Hw Ha Hr).
Defined.

Lemma SFadd_opp_finite (s : bool) (m : positive) (e : Z) :
  SFadd IEEE.prec IEEE.emax (S754_finite s m e) (S754_finite (negb s) m e)
  = S754_zero false.
Proof.
  cbn [SFadd]. cbv zeta. rewrite Z.min_id.
  destruct (shl_align_spec m e e) as (Hm & _). rewrite Hm.
  replace (cond_Zopp s _ + cond_Zopp (negb s) _) with 0
    by (destruct s; cbn [cond_Zopp negb]; lia).
  reflexivity.
Qed.

(** X15: subtracting a canonical value from itself ([operator-] of the
    class) gives a zero: [efp64_is_zero] holds of the difference and it
    converts to [+0.0]. *)
Theorem efp64_sub_self (a : efp64_t) :
  efp64_canonical a ->
  efp64_is_zero (EFP64.sub a a) = true
  /\ efp64_to_fp64 (EFP64.sub a a) = IEEE.zero.
Proof.
  intros Ha.
  assert (Hz : efp64_is_zero (EFP64.sub a a) = true).
  { unfold EFP64.sub, efp64_negate. rewrite (efp64_canonical_nonzero a Ha).
    unfold efp64_add. cbn [fp exp].
    destruct (Z.gtb_spec (exp a) (exp a)); [lia|].
    replace (Int64.sub (exp a) (exp a)) with (Int64.sub 0 0)
      by (unfold Int64.sub; rewrite !Z.sub_diag; reflexivity).
    rewrite fp64_power2_0. unfold IEEE.fma.
    rewrite of_bits_one, SFfma_one by apply of_bits_valid.
    rewrite of_bits_neg, (efp64_canonical_of_bits a Ha). cbn [SFopp].
    rewrite SFadd_opp_finite. apply zero_quick_canonicalize. }
  split; [exact Hz|]. unfold efp64_to_fp64. rewrite Hz. reflexivity.
Qed.

Lemma efp64_sub_self_witness :
  let a := {| fp := 4613937818241073152; exp := 64 |} in
  efp64_is_zero (EFP64.sub a a) = true
  /\ efp64_to_fp64 (EFP64.sub a a) = IEEE.zero.
Proof.
  intros a.
  assert (Ha : efp64_canonical a) by exact efp64_three_canonical.
  exact (efp64_sub_self a Ha).
Defined.

(** ** The comparison operators of the class *)





(** ** Scaling by a power of two *)

Lemma signed_add_l (x y : Z) :
  Int64.signed (Int64.signed x + y) = Int64.signed (x + y).
Proof.
  unfold Int64.signed, Int64.modulus, Int64.half_modulus.
  pose proof (Z.div_mod (x + 2 ^ 63) (2 ^ 64) ltac:(lia)) as Dx.
  set (qx := (x + 2 ^ 63) / 2 ^ 64) in *.
  replace ((x + 2 ^ 63) mod 2 ^ 64 - 2 ^ 63 + y + 2 ^ 63)
    with (x + y + 2 ^ 63 + (- qx) * 2 ^ 64) by lia.
  rewrite Z.mod_add by lia. reflexivity.
Qed.

Lemma signed_add_r (x y : Z) :
  Int64.signed (x + Int64.signed y) = Int64.signed (x + y).
Proof. rewrite Z.add_comm, signed_add_l, Z.add_comm. reflexivity. Qed.

(** X17: shifting a value left and then right by the same power
    ([operator<<], [operator>>]) restores it, bit for bit, for every
    [int64_t] power, wrap-around included; two shifts compose into the
    shift by the sum. *)
Theorem EFP64_shl_shr (a : efp64_t) (p q : Z) :
  Int64.in_range (exp a) ->
  EFP64.shr (EFP64.shl a p) p = a
  /\ EFP64.shl (EFP64.shl a p) q = EFP64.shl a (Int64.add p q).
Proof.
  intros Hr. unfold EFP64.shr, EFP64.shl, efp64_scale_power2. cbn [fp exp].
  split.
  - unfold Int64.add, Int64.neg.
    rewrite signed_add_l, signed_add_r.
    replace (exp a + p + - p) with (exp a) by lia.
    rewrite (signed_in_range (exp a) Hr). destruct a; reflexivity.
  - f_equal. unfold Int64.add.
    rewrite signed_add_l, signed_add_r. f_equal. lia.
Qed.

Lemma EFP64_shl_shr_witness :
  let a := {| fp := IEEE.one; exp := 0 |} in
  EFP64.shr (EFP64.shl a (- 2 ^ 63)) (- 2 ^ 63) = a
  /\ EFP64.shl (EFP64.shl a (- 2 ^ 63)) 64 = EFP64.shl a (Int64.add (- 2 ^ 63) 64).
Proof.
  intros a. apply (EFP64_shl_shr a (- 2 ^ 63) 64). by_evaluation.
Defined.

Lemma of_bits_power2 (p : Z) :
  - 1022 <= p <= 1023 ->
  IEEE.of_bits (fp64_power2 p) = S754_finite false 4503599627370496 (p - 52).
Proof.
  intros Hp. rewrite fp64_power2_pack by lia.
  rewrite of_bits_pack by (unfold fp64_fields; lia).
  rewrite of_fields_normal by lia.
  change (0 =? 1) with false. change (Z.to_pos (0 + 2 ^ 52)) with 4503599627370496%positive.
  f_equal. lia.
Qed.

Lemma binary_round_aux_exact (s : bool) (m e d : Z) :
  0 < m -> Zdigits2 m = d -> 53 <= d ->
  - 1074 <= e + d - 53 -> e + d <= 1024 ->
  m mod 2 ^ (d - 53) = 0 ->
  binary_round_aux IEEE.prec IEEE.emax s m e loc_Exact
  = S754_finite s (Z.to_pos (m / 2 ^ (d - 53))) (e + d - 53).
Proof.
  intros Hm Hd Hd53 He Hemax Hmod.
  destruct (shr_fexp_normal m e loc_Exact d Hm Hd Hd53 He) as (mrs & E1 & _ & Hex).
  unfold binary_round_aux. rewrite E1, (Hex eq_refl Hmod).
  set (q := m / 2 ^ (d - 53)) in *.
  assert (Hqr : 2 ^ 52 <= q < 2 ^ 53).
  { pose proof (Zdigits2_spec m Hm) as Hs. rewrite Hd in Hs.
    assert (Hp : 0 < 2 ^ (d - 53)) by (apply Z.pow_pos_nonneg; lia).
    replace (d - 1) with (52 + (d - 53)) in Hs by lia.
    replace d with (53 + (d - 53)) in Hs at 2 by lia.
    rewrite !Z.pow_add_r in Hs by lia.
    unfold q. split.
    - apply Z.div_le_lower_bound; lia.
    - apply Z.div_lt_upper_bound; lia. }
  cbn [shr_m loc_of_shr_record shr_r shr_s round_nearest_even].
  assert (E2 : shr_fexp IEEE.prec IEEE.emax q (e + d - 53) loc_Exact =
               ({| shr_m := q; shr_r := false; shr_s := false |}, e + d - 53)).
  { unfold shr_fexp. rewrite (Zdigits2_unique q 53) by (cbn; lia).
    rewrite fexp_normal by lia.
    replace (53 + (e + d - 53) - 53 - (e + d - 53)) with 0 by lia.
    reflexivity. }
  rewrite E2. cbn [shr_m].
  destruct q as [|p|p]; try lia.
  unfold IEEE.emax, IEEE.prec.
  destruct (Z.leb_spec (e + d - 53) (1024 - 53)); [|lia].
  reflexivity.
Qed.

(** The product by a power of two is exact up to the largest exponent of
    a double. *)
Lemma SFmul_power2_top (s : bool) (m : positive) (e k : Z) :
  2 ^ 52 <= Z.pos m < 2 ^ 53 -> - 1022 <= e + k + 52 <= 1023 ->
  SFmul IEEE.prec IEEE.emax (S754_finite s m e)
    (S754_finite false 4503599627370496 (k - 52)) = S754_finite s m (e + k).
Proof.
  intros Hm He. cbn [SFmul]. rewrite xorb_false_r.
  assert (Hp : Z.pos (m * 4503599627370496) = Z.pos m * 2 ^ 52) by reflexivity.
  rewrite Hp.
  assert (Hd : Zdigits2 (Z.pos m * 2 ^ 52) = 105).
  { rewrite Zdigits2_shift by lia.
    replace (Zdigits2 (Z.pos m)) with 53 by (symmetry; apply Zdigits2_unique; lia). lia. }
  rewrite (binary_round_aux_exact s (Z.pos m * 2 ^ 52) (e + (k - 52)) 105);
    try lia; try exact Hd.
  - change (105 - 53) with 52. rewrite Z.div_mul by lia.
    rewrite Pos2Z.id. f_equal. lia.
  - apply Z.mod_mul. lia.
Qed.

(** X18: [efp64_scale_power2] multiplies by a power of two: when the
    value and the scaled value both have the full exponent of a normal
    double, the scaled value converts to the product of the double by
    [2^power], which is exact. *)
Theorem efp64_scale_power2_to_fp64 (a : efp64_t) (power : Z) :
  efp64_is_zero a = false ->
  - 1022 <= exp a + fp64_get_exponent (fp a) <= 1023 ->
  - 1022 <= power <= 1023 ->
  - 1022 <= exp a + fp64_get_exponent (fp a) + power <= 1023 ->
  efp64_to_fp64 (efp64_scale_power2 a power)
  = IEEE.mul (efp64_to_fp64 a) (fp64_power2 power).
Proof.
  intros Hz Hf Hp Hfp. rewrite fp64_get_exponent_biased in Hf, Hfp.
  destruct (fp64_fields_of (fp a)) as (Hs & Hbe & Hfr).
  assert (Hz' : efp64_is_zero (efp64_scale_power2 a power) = false)
    by (unfold efp64_scale_power2; rewrite efp64_is_zero_fp; exact Hz).
  rewrite (efp64_to_fp64_nonzero _ Hz), (efp64_to_fp64_nonzero _ Hz'). cbv zeta.
  set (E := exp a + (fp64_get_biased_exponent (fp a) - 1023)) in *.
  assert (He : efp64_full_exponent a = E).
  { unfold efp64_full_exponent, Int64.add. rewrite fp64_get_exponent_biased.
    apply signed_in_range. unfold Int64.in_range, Int64.INT64_MIN, Int64.INT64_MAX. lia. }
  assert (He' : efp64_full_exponent (efp64_scale_power2 a power) = E + power).
  { unfold efp64_full_exponent, efp64_scale_power2, Int64.add. cbn [fp exp].
    rewrite fp64_get_exponent_biased, signed_add_l.
    replace (exp a + power + (fp64_get_biased_exponent (fp a) - 1023))
      with (E + power) by (unfold E; lia).
    apply signed_in_range. unfold Int64.in_range, Int64.INT64_MIN, Int64.INT64_MAX. lia. }
  rewrite He, He'. unfold efp64_scale_power2. cbn [fp].
  destruct (Z.leb_spec E (-1023)); [lia|].
  destruct (Z.leb_spec 1024 E); [lia|].
  destruct (Z.leb_spec (E + power) (-1023)); [lia|].
  destruct (Z.leb_spec 1024 (E + power)); [lia|].
  unfold IEEE.mul.
  rewrite of_bits_pack by (unfold fp64_fields; lia).
  rewrite of_fields_normal by lia.
  rewrite of_bits_power2 by lia.
  rewrite SFmul_power2_top by (rewrite ?Z2Pos.id by lia; lia).
  destruct (of_bits_to_bits_normal (fp64_get_sign (fp a) =? 1)
              (Z.to_pos (fp64_get_fraction (fp a) + 2 ^ 52))
              (E + 1023 - 1075 + power)) as (Hb & _);
    [rewrite Z2Pos.id by lia; lia | lia |].
  rewrite Hb, Z2Pos.id by lia.
  f_equal; [|lia|lia].
  destruct (Z.eqb_spec (fp64_get_sign (fp a)) 1) as [E1 | E1]; cbn [Z.b2z]; lia.
Qed.

Lemma efp64_scale_power2_to_fp64_witness :
  let a := {| fp := 4613937818241073152; exp := 64 |} in
  efp64_to_fp64 (efp64_scale_power2 a 958)
  = IEEE.mul (efp64_to_fp64 a) (fp64_power2 958).
Proof.
  intros a. apply (efp64_scale_power2_to_fp64 a 958); by_evaluation.
Defined.

(** ** The loop of the logarithm ends *)

Lemma log2_loop_done (k : nat) (st : log2_state) :
  Z.shiftr (log_val st) 63 <> 0 -> log2_loop k st = st.
Proof.
  intros H. destruct k; [reflexivity|]. cbn [log2_loop].
  destruct (Z.eqb_spec (Z.shiftr (log_val st) 63) 0); [contradiction | reflexivity].
Qed.

Lemma log2_loop_more (k n : nat) (st : log2_state) :
  Z.shiftr (log_val (log2_loop k st)) 63 <> 0 ->
  log2_loop (k + n) st = log2_loop k st.
Proof.
  revert st. induction k as [|k IH]; intros st H.
  - cbn [log2_loop Nat.add] in *. apply log2_loop_done, H.
  - cbn [log2_loop Nat.add] in *.
    destruct (Z.eqb_spec (Z.shiftr (log_val st) 63) 0); [|reflexivity].
    apply IH, H.
Qed.

(** X19: the normalization loop of [efp64_log2d] ends: on the path that
    reaches it (a full exponent outside the range of a double) [log_val]
    starts at 1022 or more, so that its most significant bit is set
    after at most 54 rounds, whatever the doubles [dlog] and
    [log_weight] are; more rounds change nothing. *)
Theorem efp64_log2d_loop_ends (e : Z) (dl lw : fp64_t) (n : nat) :
  Int64.in_range e ->
  fp64_exponent_below e || fp64_exponent_above e = true ->
  let e' := if e <? 0 then Int64.neg (Int64.add e 1) else e in
  let st := {| log_val := Int64.unsigned e'; dlog := dl; log_weight := lw |} in
  Z.shiftr (log_val (log2_loop 54 st)) 63 = 1
  /\ log2_loop (54 + n) st = log2_loop 54 st.
Proof.
  intros Hr Hout e' st.
  assert (He : 1022 <= e' < 2 ^ 63).
  { unfold e'. unfold Int64.in_range, Int64.INT64_MIN, Int64.INT64_MAX in Hr.
    apply orb_true_iff in Hout.
    unfold fp64_exponent_below, fp64_exponent_above in Hout.
    change (- FP64_BIAS) with (-1023) in Hout.
    change (Int64.signed FP64_EXP_MASK - FP64_BIAS) with 1024 in Hout.
    rewrite Z.geb_leb in Hout.
    destruct (Z.ltb_spec e 0).
    - assert (e <= -1023) by (destruct Hout as [H1 | H1]; [apply Z.leb_le in H1 | apply Z.leb_le in H1]; lia).
      unfold Int64.neg, Int64.add.
      rewrite (signed_in_range (e + 1))
        by (unfold Int64.in_range, Int64.INT64_MIN, Int64.INT64_MAX; lia).
      rewrite signed_in_range
        by (unfold Int64.in_range, Int64.INT64_MIN, Int64.INT64_MAX; lia).
      lia.
    - assert (1024 <= e) by (destruct Hout as [H1 | H1]; [apply Z.leb_le in H1 | apply Z.leb_le in H1]; lia).
      lia. }
  assert (Hlv : log_val st = e').
  { unfold st. cbn [log_val]. apply unsigned_in_range. lia. }
  assert (Hb : 2 ^ 63 <= log_val (log2_loop 54 st) < 2 ^ 64).
  { apply log2_loop_normalizes; rewrite Hlv; [lia|].
    change (Z.of_nat 54) with 54. lia. }
  assert (Hs : Z.shiftr (log_val (log2_loop 54 st)) 63 = 1).
  { rewrite Z.shiftr_div_pow2 by lia.
    symmetry. apply Z.div_unique with (r := log_val (log2_loop 54 st) - 2 ^ 63); lia. }
  split; [exact Hs|].
  apply log2_loop_more. rewrite Hs. discriminate.
Qed.

Lemma efp64_log2d_loop_ends_witness :
  let e := 5000 in
  let e' := if e <? 0 then Int64.neg (Int64.add e 1) else e in
  let st := {| log_val := Int64.unsigned e'; dlog := IEEE.half; log_weight := IEEE.one |} in
  Z.shiftr (log_val (log2_loop 54 st)) 63 = 1
  /\ log2_loop (54 + 10) st = log2_loop 54 st.
Proof.
  apply (efp64_log2d_loop_ends 5000 IEEE.half IEEE.one 10); by_evaluation.
Defined.

(** ** Shifting the exponent of a double *)

(** X20: [fp64_shift_exponent] adds the shift to the exponent field and
    keeps the sign and the fraction, as long as the new biased exponent
    is positive (overflow is not watched: 2047 and beyond are written as
    they come); when it is not, the result is [+0.0], whatever the sign.
    Two shifts that do not underflow compose into one. *)
Theorem fp64_shift_exponent_fields (x : fp64_t) (j k : Z) :
  - 2 ^ 61 <= j <= 2 ^ 61 -> - 2 ^ 61 <= k <= 2 ^ 61 ->
  let be := fp64_get_biased_exponent x in
  (be + j <= 0 -> fp64_shift_exponent x j = IEEE.zero)
  /\ (0 < be + j <= 2047 ->
      fp64_shift_exponent x j =
      fp64_pack (fp64_get_sign x) (be + j) (fp64_get_fraction x))
  /\ (0 < be + j <= 2047 -> 0 < be + j + k <= 2047 ->
      fp64_shift_exponent (fp64_shift_exponent x j) k
      = fp64_shift_exponent x (j + k)).
Proof.
  intros Hj Hk be.
  destruct (fp64_fields_of x) as (Hs & Hbe & Hf). fold be in Hbe.
  assert (Hgen : forall (y : fp64_t) (i : Z),
            - 2 ^ 62 <= i <= 2 ^ 62 ->
            (fp64_get_biased_exponent y + i <= 0 -> fp64_shift_exponent y i = IEEE.zero)
            /\ (0 < fp64_get_biased_exponent y + i <= 2047 ->
                fp64_shift_exponent y i =
                fp64_pack (fp64_get_sign y) (fp64_get_biased_exponent y + i)
                  (fp64_get_fraction y))).
  { intros y i Hi.
    destruct (fp64_fields_of y) as (_ & Hby & _).
    unfold fp64_shift_exponent. rewrite fp64_get_exponent_biased.
    unfold Int64.add.
    rewrite signed_in_range
      by (unfold Int64.in_range, Int64.INT64_MIN, Int64.INT64_MAX; lia).
    unfold fp64_exponent_below. change (- FP64_BIAS) with (-1023).
    split; intros H.
    - destruct (Z.leb_spec (fp64_get_biased_exponent y - 1023 + i) (-1023));
        [reflexivity | lia].
    - destruct (Z.leb_spec (fp64_get_biased_exponent y - 1023 + i) (-1023)); [lia|].
      rewrite fp64_replace_exponent_fields by lia. f_equal. lia. }
  destruct (Hgen x j ltac:(lia)) as (H1 & H2). fold be in H1, H2.
  split; [exact H1|]. split; [exact H2|].
  intros Hbj Hbjk.
  destruct (Hgen x (j + k) ltac:(lia)) as (_ & H3). fold be in H3.
  rewrite (H2 Hbj), H3 by lia.
  assert (Hfl : fp64_fields (fp64_get_sign x) (be + j) (fp64_get_fraction x)).
  { unfold fp64_fields. lia. }
  destruct (Hgen (fp64_pack (fp64_get_sign x) (be + j) (fp64_get_fraction x)) k
              ltac:(lia)) as (_ & H4).
  rewrite fp64_get_biased_exponent_pack, fp64_get_sign_pack, fp64_get_fraction_pack
    in H4 by exact Hfl.
  rewrite H4 by lia. f_equal. lia.
Qed.

Lemma fp64_shift_exponent_fields_witness :
  let x := IEEE.minus_one in
  let be := fp64_get_biased_exponent x in
  (be + 5 <= 0 -> fp64_shift_exponent x 5 = IEEE.zero)
  /\ (0 < be + 5 <= 2047 ->
      fp64_shift_exponent x 5 =
      fp64_pack (fp64_get_sign x) (be + 5) (fp64_get_fraction x))
  /\ (0 < be + 5 <= 2047 -> 0 < be + 5 + 3 <= 2047 ->
      fp64_shift_exponent (fp64_shift_exponent x 5) 3
      = fp64_shift_exponent x (5 + 3)).
Proof.
  apply (fp64_shift_exponent_fields IEEE.minus_one 5 3); lia.
Defined.

(** ** The reductions of the class *)

(** X21: [product_reduce_x1] is safe: on an initial value and operands
    that are canonical or the canonical zero, no accumulator is ever a
    NaN or an infinity, and a non-zero result is canonical. *)
Theorem product_reduce_x1_no_overflow (ival : efp64_t) (data : list efp64_t) :
  efp64_canonical_or_zero ival -> Forall efp64_canonical_or_zero data ->
  Forall (fun r => efp64_is_valid r = true) (mul_seq_x1_products data (ival, 0))
  /\ (efp64_is_zero (EFP64.product_reduce_x1 ival data) = false ->
      efp64_canonical (EFP64.product_reduce_x1 ival data)).
Proof.
  intros Hi Hd. split.
  - apply mul_seq_x1_products_valid; [|exact Hd].
    destruct (efp64_operand_cases ival Hi) as (_ & Hw).
    unfold mul_seq_x1_inv. cbn [fst snd]. split; [by_evaluation|].
    destruct Hw as [Hz | Hw].
    + left. rewrite Hz. exact I.
    + right. exact Hw.
  - intros Hz. unfold EFP64.product_reduce_x1 in *.
    apply efp64_canonicalize_canonical.
    rewrite <- efp64_canonicalize_is_zero. exact Hz.
Qed.

Lemma product_reduce_x1_no_overflow_witness :
  let a := {| fp := 4613937818241073152; exp := 64 |} in
  Forall (fun r => efp64_is_valid r = true) (mul_seq_x1_products [a; a] (a, 0))
  /\ (efp64_is_zero (EFP64.product_reduce_x1 a [a; a]) = false ->
      efp64_canonical (EFP64.product_reduce_x1 a [a; a])).
Proof.
  intros a.
  assert (Ha : efp64_canonical a) by exact efp64_three_canonical.
  apply (product_reduce_x1_no_overflow a [a; a]).
  - right; exact Ha.
  - constructor; [right; exact Ha|].
    constructor; [right; exact Ha | constructor].
Defined.

(** ** I/O support: powers of ten and digits *)

Lemma signed_mod (a : Z) : Int64.signed a mod 2 ^ 64 = a mod 2 ^ 64.
Proof.
  unfold Int64.signed, Int64.modulus, Int64.half_modulus.
  pose proof (Z.div_mod (a + 2 ^ 63) (2 ^ 64) ltac:(lia)) as D.
  set (q := (a + 2 ^ 63) / 2 ^ 64) in *.
  replace ((a + 2 ^ 63) mod 2 ^ 64 - 2 ^ 63) with (a + (- q) * 2 ^ 64) by lia.
  apply Z.mod_add. lia.
Qed.

Lemma signed_eq_mod (a b : Z) :
  a mod 2 ^ 64 = b mod 2 ^ 64 -> Int64.signed a = Int64.signed b.
Proof.
  intros H. unfold Int64.signed, Int64.modulus, Int64.half_modulus.
  rewrite <- (Zplus_mod_idemp_l a), <- (Zplus_mod_idemp_l b), H. reflexivity.
Qed.

Lemma p10_loop_spec (e : positive) (r w : Z) :
  p10_loop e r w = Int64.signed (r * w ^ Z.pos e).
Proof.
  revert r w. induction e as [e IH | e IH |]; intros r w; cbn [p10_loop].
  - rewrite IH. apply signed_eq_mod. unfold int64_mul.
    rewrite Z.mul_mod, signed_mod by lia.
    rewrite <- (Z.mod_pow_l (Int64.signed (w * w))), signed_mod, Z.mod_pow_l.
    rewrite <- Z.mul_mod by lia.
    f_equal. rewrite Pos2Z.inj_xI, Z.pow_add_r, Z.pow_mul_r, Z.pow_2_r by lia.
    ring.
  - rewrite IH. apply signed_eq_mod. unfold int64_mul.
    rewrite Z.mul_mod by lia.
    rewrite <- (Z.mod_pow_l (Int64.signed (w * w))), signed_mod, Z.mod_pow_l.
    rewrite <- Z.mul_mod by lia.
    f_equal. rewrite Pos2Z.inj_xO, Z.pow_mul_r, Z.pow_2_r by lia.
    reflexivity.
  - unfold int64_mul. rewrite Z.pow_1_r. reflexivity.
Qed.

(** X22: [p10] returns 0 for a negative exponent and, for the others,
    [10^exp] as a [long long]: exactly up to [10^18], wrapped around
    beyond. *)
Theorem p10_power (exp : Z) :
  (exp < 0 -> p10 exp = 0)
  /\ (0 <= exp -> p10 exp = Int64.signed (10 ^ exp))
  /\ (0 <= exp <= 18 -> p10 exp = 10 ^ exp).
Proof.
  assert (H : 0 <= exp -> p10 exp = Int64.signed (10 ^ exp)).
  { intros He. destruct exp as [|e|e]; [reflexivity | | lia].
    unfold p10. rewrite p10_loop_spec. f_equal. lia. }
  split; [|split].
  - intros He. destruct exp; try lia. reflexivity.
  - exact H.
  - intros He. rewrite H by lia. apply signed_in_range.
    assert (0 < 10 ^ exp) by (apply Z.pow_pos_nonneg; lia).
    assert (10 ^ exp <= 10 ^ 18) by (apply Z.pow_le_mono_r; lia).
    unfold Int64.in_range, Int64.INT64_MIN, Int64.INT64_MAX. lia.
Qed.

Lemma digits_of_zero (k : nat) : digits_of k 0 = repeat char_0 k.
Proof.
  induction k as [|k IH]; [reflexivity|].
  cbn [digits_of]. change (0 / 10) with 0. rewrite IH.
  change (char_0 + 0 mod 10) with char_0. symmetry. apply repeat_cons.
Qed.

Lemma digits_of_length (k : nat) (val : Z) : length (digits_of k val) = k.
Proof.
  revert val. induction k as [|k IH]; intros val; [reflexivity|].
  cbn [digits_of]. rewrite length_app, IH. cbn. lia.
Qed.

Lemma digits_of_range (k : nat) (val : Z) :
  Forall (fun c => char_0 <= c <= char_0 + 9) (digits_of k val).
Proof.
  revert val. induction k as [|k IH]; intros val; [constructor|].
  cbn [digits_of]. apply Forall_app. split; [apply IH|].
  constructor; [|constructor].
  pose proof (Z.mod_pos_bound val 10 ltac:(lia)). lia.
Qed.

Lemma decimal_value_app (s : list Z) (c : Z) :
  decimal_value (s ++ [c]) = decimal_value s * 10 + (c - char_0).
Proof. unfold decimal_value. rewrite fold_left_app. reflexivity. Qed.

Lemma decimal_value_digits_of (k : nat) (val : Z) :
  decimal_value (digits_of k val) = val mod 10 ^ Z.of_nat k.
Proof.
  revert val. induction k as [|k IH]; intros val.
  - cbn. rewrite Z.mod_1_r. reflexivity.
  - cbn [digits_of]. rewrite decimal_value_app, IH.
    rewrite Nat2Z.inj_succ, Z.pow_succ_r by lia.
    assert (Hp : 0 < 10 ^ Z.of_nat k) by (apply Z.pow_pos_nonneg; lia).
    rewrite Z.rem_mul_r by lia.
    lia.
Qed.

Lemma store_last (k : nat) (tail : list Z) (c : Z) :
  store (repeat char_0 (S k) ++ tail) k c = repeat char_0 k ++ c :: tail.
Proof.
  unfold store.
  replace (repeat char_0 (S k)) with (repeat char_0 k ++ [char_0])
    by (symmetry; apply (repeat_cons k char_0)).
  rewrite <- app_assoc.
  rewrite firstn_app, skipn_app, repeat_length.
  rewrite firstn_all2 by (rewrite repeat_length; lia).
  rewrite skipn_all2 by (rewrite repeat_length; lia).
  replace (k - k)%nat with 0%nat by lia.
  replace (S k - k)%nat with 1%nat by lia.
  cbn. rewrite app_nil_r. reflexivity.
Qed.

Lemma rj_digits_fits (fuel k : nat) (val : Z) (tail : list Z) :
  0 <= val < 10 ^ Z.of_nat k -> val < 10 ^ (Z.of_nat fuel - 1) ->
  rj_digits fuel (repeat char_0 k ++ tail) (Z.of_nat k - 1) val
  = Some (digits_of k val ++ tail).
Proof.
  revert k val tail. induction fuel as [|fuel IH]; intros k val tail Hv Hf.
  - cbn in Hf. lia.
  - cbn [rj_digits]. destruct (Z.eqb_spec val 0) as [E | E].
    + subst val. rewrite digits_of_zero. reflexivity.
    + destruct k as [|k]; [cbn in Hv; lia|].
      destruct (Z.ltb_spec (Z.of_nat (S k) - 1) 0); [lia|].
      replace (Z.to_nat (Z.of_nat (S k) - 1)) with k by lia.
      rewrite store_last.
      rewrite Z.rem_mod_nonneg, Z.quot_div_nonneg by lia.
      replace (Z.of_nat (S k) - 1 - 1) with (Z.of_nat k - 1) by lia.
      destruct fuel as [|fuel']; [cbn in Hf; lia|].
      rewrite IH.
      * cbn [digits_of]. rewrite <- app_assoc. reflexivity.
      * rewrite Nat2Z.inj_succ, Z.pow_succ_r in Hv by lia.
        split; [apply Z.div_pos; lia|].
        apply Z.div_lt_upper_bound; lia.
      * replace (Z.of_nat (S (S fuel')) - 1) with (Z.succ (Z.of_nat (S fuel') - 1)) in Hf by lia.
        rewrite Z.pow_succ_r in Hf by lia.
        apply Z.div_lt_upper_bound; lia.
Qed.

Lemma rj_digits_overflow (fuel k : nat) (val : Z) (sbuf : list Z) :
  10 ^ Z.of_nat k <= val -> (k < fuel)%nat ->
  rj_digits fuel sbuf (Z.of_nat k - 1) val = None.
Proof.
  revert fuel val sbuf. induction k as [|k IH]; intros fuel val sbuf Hv Hf.
  - destruct fuel as [|fuel]; [lia|]. cbn [rj_digits]. cbn in Hv.
    destruct (Z.eqb_spec val 0); [lia|]. reflexivity.
  - destruct fuel as [|fuel]; [lia|]. cbn [rj_digits].
    assert (Hp : 0 < 10 ^ Z.of_nat k) by (apply Z.pow_pos_nonneg; lia).
    rewrite Nat2Z.inj_succ, Z.pow_succ_r in Hv by lia.
    destruct (Z.eqb_spec val 0); [lia|].
    destruct (Z.ltb_spec (Z.of_nat (S k) - 1) 0); [reflexivity|].
    replace (Z.of_nat (S k) - 1 - 1) with (Z.of_nat k - 1) by lia.
    apply IH; [|lia].
    rewrite Z.quot_div_nonneg by lia.
    apply Z.div_le_lower_bound; lia.
Qed.

(** X23: [rj_string] writes [val], when it has at most [len] digits,
    right-justified in [len] digit characters padded with ['0'] and
    followed by the terminator: read back in base ten, the characters
    give [val]; a [val] that is not positive is written as zeros.  The
    function does not check that [val] fits: when it has more than [len]
    digits the loop writes below [sbuf[0]], and there is no defined
    result. *)
Theorem rj_string_digits (val len : Z) :
  0 <= len -> val < 2 ^ 63 ->
  let digits := digits_of (Z.to_nat len) (Z.max 0 val) in
  (val < 10 ^ len ->
   rj_string val len = Some (digits ++ [0])
   /\ Z.of_nat (length digits) = len
   /\ Forall (fun c => char_0 <= c <= char_0 + 9) digits
   /\ decimal_value digits = Z.max 0 val)
  /\ (10 ^ len <= val -> rj_string val len = None).
Proof.
  intros Hl Hb digits.
  assert (Hp : 0 < 10 ^ len) by (apply Z.pow_pos_nonneg; lia).
  assert (H19 : 2 ^ 63 < 10 ^ 19) by (vm_compute; reflexivity).
  split.
  - intros Hv. split; [|split; [|split]].
    + unfold rj_string. destruct (Z.ltb_spec len 0); [lia|].
      destruct (Z.leb_spec val 0).
      * unfold digits. rewrite Z.max_l by lia. rewrite digits_of_zero. reflexivity.
      * unfold digits. rewrite Z.max_r by lia.
        replace (len - 1) with (Z.of_nat (Z.to_nat len) - 1) by lia.
        apply rj_digits_fits.
        -- rewrite Z2Nat.id by lia. lia.
        -- change (Z.of_nat 20 - 1) with 19. lia.
    + unfold digits. rewrite digits_of_length. lia.
    + apply digits_of_range.
    + unfold digits. rewrite decimal_value_digits_of, Z2Nat.id by lia.
      apply Z.mod_small. lia.
  - intros Hv. unfold rj_string. destruct (Z.ltb_spec len 0); [lia|].
    destruct (Z.leb_spec val 0); [lia|].
    replace (len - 1) with (Z.of_nat (Z.to_nat len) - 1) by lia.
    apply rj_digits_overflow.
    + rewrite Z2Nat.id by lia. exact Hv.
    + assert (len < 19); [|lia].
      destruct (Z.lt_ge_cases len 19) as [H1 | H1]; [exact H1|].
      assert (10 ^ 19 <= 10 ^ len) by (apply Z.pow_le_mono_r; lia). lia.
Qed.

Lemma rj_string_digits_witness :
  let digits := digits_of (Z.to_nat 5) (Z.max 0 1234) in
  (1234 < 10 ^ 5 ->
   rj_string 1234 5 = Some (digits ++ [0])
   /\ Z.of_nat (length digits) = 5
   /\ Forall (fun c => char_0 <= c <= char_0 + 9) digits
   /\ decimal_value digits = Z.max 0 1234)
  /\ (10 ^ 5 <= 1234 -> rj_string 1234 5 = None).
Proof. apply (rj_string_digits 1234 5); by_evaluation. Defined.

(** ** Conversion to integers *)

(** The double of a non-zero integer below [2^53]: normal, and exact. *)
Lemma of_Z_normal (z : Z) :
  0 < Z.abs z < 2 ^ 53 ->
  exists m e,
    IEEE.of_bits (IEEE.of_Z z) = S754_finite (z <? 0) m e
    /\ 2 ^ 52 <= Z.pos m < 2 ^ 53 /\ - 52 <= e <= 0
    /\ Z.pos m = Z.abs z * 2 ^ (- e)
    /\ IEEE.of_Z z = fp64_pack (Z.b2z (z <? 0)) (e + 1075) (Z.pos m - 2 ^ 52).
Proof.
  intros Hz. unfold IEEE.of_Z.
  assert (H : forall (s : bool) (p : positive),
            Z.pos p < 2 ^ 53 ->
            exists m e,
              IEEE.of_bits (IEEE.to_bits (binary_round IEEE.prec IEEE.emax s p 0))
              = S754_finite s m e
              /\ 2 ^ 52 <= Z.pos m < 2 ^ 53 /\ - 52 <= e <= 0
              /\ Z.pos m = Z.pos p * 2 ^ (- e)
              /\ IEEE.to_bits (binary_round IEEE.prec IEEE.emax s p 0)
                 = fp64_pack (Z.b2z s) (e + 1075) (Z.pos m - 2 ^ 52)).
  { intros s p Hp.
    pose proof (digits2_pos_spec p) as Hs.
    assert (Hd : Z.pos (digits2_pos p) <= 53).
    { destruct (Z.le_gt_cases (Z.pos (digits2_pos p)) 53) as [H|H]; [exact H|].
      assert (2 ^ 53 <= 2 ^ (Z.pos (digits2_pos p) - 1)) by (apply Z.pow_le_mono_r; lia).
      lia. }
    destruct (binary_round_normal s p 0 (Z.pos (digits2_pos p)) eq_refl)
      as (m' & e' & E & Hm' & _ & Hex); try lia.
    destruct (Hex Hd) as (Hx1 & Hx2).
    exists m', e'. rewrite E.
    destruct (of_bits_to_bits_normal s m' e' Hm') as (Hb & Ho); [lia|].
    rewrite Ho, Hb. repeat split; try lia.
    rewrite Hx1. f_equal. f_equal. lia. }
  destruct z as [|p|p]; [cbn in Hz; lia| |].
  - cbn [binary_normalize]. apply (H false p). cbn in Hz. lia.
  - cbn [binary_normalize]. apply (H true p). cbn in Hz. lia.
Qed.

Lemma to_fp64_from_fp64_normal (s be f : Z) :
  0 <= s < 2 -> 0 < be < 2047 -> 0 <= f < 2 ^ 52 ->
  efp64_to_fp64 (efp64_from_fp64 (fp64_pack s be f)) = fp64_pack s be f
  /\ fp64_get_sign (fp (efp64_from_fp64 (fp64_pack s be f))) = s
  /\ efp64_canonical (efp64_from_fp64 (fp64_pack s be f)).
Proof.
  intros Hs Hbe Hf.
  assert (Hfl : fp64_fields s be f) by (unfold fp64_fields; lia).
  set (x := {| exp := 0; fp := fp64_pack s be f |}).
  assert (Hz : efp64_is_zero x = false).
  { rewrite efp64_is_zero_fields. unfold x; cbn [fp].
    rewrite fp64_get_biased_exponent_pack by assumption.
    destruct (Z.eqb_spec be 0); [lia | reflexivity]. }
  assert (Hz' : efp64_is_zero (efp64_canonicalize x) = false)
    by (rewrite efp64_canonicalize_is_zero; exact Hz).
  assert (He : efp64_full_exponent x = be - 1023).
  { unfold efp64_full_exponent, Int64.add, x; cbn [fp exp].
    rewrite fp64_get_exponent_biased, fp64_get_biased_exponent_pack by assumption.
    apply signed_in_range. unfold Int64.in_range, Int64.INT64_MIN, Int64.INT64_MAX. lia. }
  pose proof (lo_part_range (efp64_full_exponent x)) as Hlo.
  change EXP_MODULUS with 64 in Hlo.
  assert (Hsg : fp64_get_sign (fp (efp64_canonicalize x)) = s).
  { rewrite (efp64_canonicalize_nonzero x Hz). cbn [fp]. unfold x at 1 3; cbn [fp].
    rewrite (fp64_get_sign_pack s be f Hfl), (fp64_get_fraction_pack s be f Hfl).
    apply fp64_get_sign_pack. unfold fp64_fields. lia. }
  assert (Hfr : fp64_get_fraction (fp (efp64_canonicalize x)) = f).
  { rewrite (efp64_canonicalize_nonzero x Hz). cbn [fp]. unfold x at 1 3; cbn [fp].
    rewrite (fp64_get_sign_pack s be f Hfl), (fp64_get_fraction_pack s be f Hfl).
    apply fp64_get_fraction_pack. unfold fp64_fields. lia. }
  unfold efp64_from_fp64. fold x.
  split; [|split; [exact Hsg | apply efp64_canonicalize_canonical, Hz]].
  rewrite (efp64_to_fp64_nonzero _ Hz'). cbv zeta.
  rewrite (efp64_canonicalize_full_exponent x Hz), He, Hsg, Hfr.
  destruct (Z.leb_spec (be - 1023) (-1023)); [lia|].
  destruct (Z.leb_spec 1024 (be - 1023)); [lia|].
  f_equal. lia.
Qed.

Lemma fp64_trunc_integer (s : bool) (m : positive) (e n : Z) (d : fp64_t) :
  IEEE.of_bits d = S754_finite s m e -> e <= 0 -> Z.pos m = n * 2 ^ (- e) ->
  fp64_trunc d = Some (cond_Zopp s n).
Proof.
  intros Hd He Hm. unfold fp64_trunc. rewrite Hd.
  assert (Hp : 0 < 2 ^ (- e)) by (apply Z.pow_pos_nonneg; lia).
  destruct (Z.leb_spec 0 e).
  - replace e with 0 in * by lia. cbn in Hm. do 2 f_equal. cbn. lia.
  - rewrite Hm, Z.div_mul by lia. reflexivity.
Qed.

Lemma leb_zero_canonical_positive (a : efp64_t) :
  efp64_canonical a -> fp64_get_sign (fp a) = 0 ->
  IEEE.leb (fp a) IEEE.zero = false.
Proof.
  intros Ha Hs. unfold IEEE.leb.
  rewrite (efp64_canonical_of_bits a Ha), Hs. reflexivity.
Qed.

Lemma fp64_to_unsigned_integer (m : positive) (e n : Z) (d : fp64_t) :
  IEEE.of_bits d = S754_finite false m e -> e <= 0 -> Z.pos m = n * 2 ^ (- e) ->
  0 <= n <= UINT_MAX ->
  fp64_to_unsigned d = Some n.
Proof.
  intros Hd He Hm Hn. unfold fp64_to_unsigned.
  rewrite (fp64_trunc_integer false m e n d Hd He Hm). cbn [cond_Zopp].
  destruct (Z.leb_spec 0 n); [|lia].
  destruct (Z.leb_spec n UINT_MAX); [reflexivity | lia].
Qed.

(** X24: an [unsigned] survives the conversion to an extended value and
    back through [efp64_to_unsigned], and so does an [int] that is not
    negative through [efp64_to_int]. *)
Theorem efp64_integer_round_trip (n : Z) :
  (0 <= n <= UINT_MAX ->
   efp64_to_unsigned (efp64_from_fp64 (IEEE.of_Z n)) = Some n)
  /\ (0 <= n <= INT_MAX -> efp64_to_int (EFP64.of_int n) = Some n).
Proof.
  assert (H0 : efp64_to_unsigned (efp64_from_fp64 (IEEE.of_Z 0)) = Some 0
               /\ efp64_to_int (EFP64.of_int 0) = Some 0)
    by (split; vm_compute; reflexivity).
  assert (Hpos : 0 < n <= UINT_MAX ->
            exists m e,
              IEEE.of_bits (IEEE.of_Z n) = S754_finite false m e
              /\ 2 ^ 52 <= Z.pos m < 2 ^ 53 /\ - 52 <= e <= 0
              /\ Z.pos m = n * 2 ^ (- e)
              /\ efp64_to_fp64 (efp64_from_fp64 (IEEE.of_Z n)) = IEEE.of_Z n
              /\ IEEE.leb (fp (efp64_from_fp64 (IEEE.of_Z n))) IEEE.zero = false).
  { intros Hn. unfold UINT_MAX in Hn.
    destruct (of_Z_normal n) as (m & e & Ho & Hm & He & Hmn & Hpk); [lia|].
    destruct (Z.ltb_spec n 0); [lia|]. cbn [Z.b2z] in Hpk.
    rewrite Z.abs_eq in Hmn by lia.
    destruct (to_fp64_from_fp64_normal 0 (e + 1075) (Z.pos m - 2 ^ 52))
      as (Hrt & Hsg & Hc); try lia.
    rewrite <- Hpk in Hrt, Hsg, Hc.
    exists m, e. repeat split; try assumption; try lia.
    apply leb_zero_canonical_positive; assumption. }
  split; intros Hn.
  - destruct (Z.eq_dec n 0) as [-> | Hnz]; [apply H0|].
    destruct Hpos as (m & e & Ho & Hm & He & Hmn & Hrt & Hl); [lia|].
    unfold efp64_to_unsigned. rewrite Hl, Hrt. cbv zeta.
    assert (Hg : IEEE.gtb (IEEE.of_Z n) (IEEE.of_Z UINT_MAX) = false).
    { unfold IEEE.gtb, IEEE.ltb. rewrite Ho.
      replace (IEEE.of_bits (IEEE.of_Z UINT_MAX))
        with (S754_finite false 9007199252643840 (-21)) by (vm_compute; reflexivity).
      unfold SFltb. cbn [SFcompare]. rewrite compare_cont_Z.
      unfold UINT_MAX in Hn.
      destruct (Z.compare_spec (-21) e) as [E | E | E]; [| |reflexivity].
      - subst e. change (- -21) with 21 in Hmn.
        destruct (Z.compare_spec 9007199252643840 (Z.pos m)); try reflexivity. lia.
      - assert (2 ^ (- e) <= 2 ^ 20) by (apply Z.pow_le_mono_r; lia).
        assert (0 < 2 ^ (- e)) by (apply Z.pow_pos_nonneg; lia).
        nia. }
    rewrite Hg. apply (fp64_to_unsigned_integer m e); try assumption; lia.
  - destruct (Z.eq_dec n 0) as [-> | Hnz]; [apply H0|].
    unfold INT_MAX in Hn.
    destruct Hpos as (m & e & Ho & Hm & He & Hmn & Hrt & Hl);
      [unfold UINT_MAX; lia|].
    unfold efp64_to_int, EFP64.of_int. rewrite Hrt. cbv zeta.
    unfold IEEE.geb, IEEE.leb. rewrite Ho.
    replace (IEEE.of_bits (IEEE.of_Z INT_MAX))
      with (S754_finite false 9007199250546688 (-22)) by (vm_compute; reflexivity).
    replace (IEEE.of_bits (IEEE.of_Z INT_MIN))
      with (S754_finite true 4503599627370496 (-21)) by (vm_compute; reflexivity).
    unfold SFleb. cbn [SFcompare]. rewrite compare_cont_Z.
    destruct (Z.compare_spec (-22) e) as [E | E | E].
    + subst e. change (- -22) with 22 in Hmn.
      destruct (Z.compare_spec 9007199250546688 (Z.pos m)) as [E1 | E1 | E1].
      * replace n with 2147483647 by lia. reflexivity.
      * lia.
      * rewrite (fp64_to_unsigned_integer m (-22) n); try assumption;
          try (unfold UINT_MAX; lia).
        cbn [option_map]. f_equal. unfold int32_signed.
        rewrite Z.mod_small by lia. lia.
    + assert (2 ^ (- e) <= 2 ^ 21) by (apply Z.pow_le_mono_r; lia).
      assert (0 < 2 ^ (- e)) by (apply Z.pow_pos_nonneg; lia).
      nia.
    + rewrite (fp64_to_unsigned_integer m e n); try assumption;
        try (unfold UINT_MAX; lia).
      cbn [option_map]. f_equal. unfold int32_signed.
      rewrite Z.mod_small by lia. lia.
Qed.



(** ** Powers *)

Lemma zero_quick_down_canonicalize_id (s : bool) (E : Z) :
  efp64_quick_down_canonicalize {| fp := IEEE.to_bits (S754_zero s); exp := E |}
  = {| fp := IEEE.to_bits (S754_zero s); exp := E |}.
Proof.
  unfold efp64_quick_down_canonicalize. cbn [fp exp].
  destruct s; eval_cond; reflexivity.
Qed.

Lemma efp64_regular_cases (a : efp64_t) :
  efp64_regular a -> efp64_is_zero a = true \/ efp64_canonical a.
Proof.
  intros (Hm & [Hz | Hw]).
  - left. unfold efp64_is_zero, IEEE.eqb.
    destruct (IEEE.of_bits (fp a)) as [s|s| |s m e]; cbn [SF_is_zero] in Hz;
      try contradiction.
    destruct s; reflexivity.
  - right. apply efp64_canonical_window_iff. split; assumption.
Qed.

Lemma efp64_regular_valid (a : efp64_t) :
  efp64_regular a -> efp64_is_valid a = true.
Proof.
  intros (_ & H). unfold efp64_is_valid, IEEE.isnan, IEEE.isinf.
  destruct (IEEE.of_bits (fp a)) as [s|s| |s m e];
    cbn [SF_is_zero SF_window] in H; try tauto; reflexivity.
Qed.

Lemma efp64_canonicalize_regular (a : efp64_t) :
  efp64_regular (efp64_canonicalize a).
Proof.
  destruct (efp64_is_zero a) eqn:Hz.
  - unfold efp64_canonicalize. rewrite Hz.
    split; [vm_compute; reflexivity | left; exact I].
  - pose proof (efp64_canonicalize_canonical a Hz) as Hc.
    apply efp64_canonical_window_iff in Hc. destruct Hc as (Hw & Hm).
    split; [exact Hm | right; exact Hw].
Qed.

Lemma efp64_mul_regular (a b : efp64_t) :
  efp64_regular a -> efp64_regular b -> efp64_regular (efp64_mul a b).
Proof.
  intros (Hma & Hxa) (Hmb & Hxb).
  pose proof (add_exp_mod _ _ Hma Hmb) as Hm.
  unfold efp64_mul, efp64_quick_mul, IEEE.mul.
  assert (Hzero : SF_is_zero (SFmul IEEE.prec IEEE.emax (IEEE.of_bits (fp a))
                                (IEEE.of_bits (fp b))) ->
                  efp64_regular
                    (efp64_quick_down_canonicalize
                       {| exp := Int64.add (exp a) (exp b);
                          fp := IEEE.to_bits (SFmul IEEE.prec IEEE.emax
                                  (IEEE.of_bits (fp a)) (IEEE.of_bits (fp b))) |})).
  { intros Hz.
    destruct (SFmul IEEE.prec IEEE.emax (IEEE.of_bits (fp a)) (IEEE.of_bits (fp b)))
      as [s|s| |s m e]; cbn [SF_is_zero] in Hz; try tauto.
    rewrite zero_quick_down_canonicalize_id.
    split; [exact Hm|]. left. cbn [fp].
    destruct (SF_is_zero_to_bits (S754_zero s) I) as (Ho & _). rewrite Ho. exact I. }
  destruct Hxa as [Za | Wa]; [apply Hzero, SFmul_zero; try tauto;
                               destruct Hxb as [Zb | Wb]; [left; exact Zb |
                                 right; apply (SF_window_weaken 0 64); [exact Wb | lia | lia]]|].
  destruct Hxb as [Zb | Wb]; [apply Hzero, SFmul_zero; try tauto;
                               right; apply (SF_window_weaken 0 64); [exact Wa | lia | lia]|].
  assert (Hc : efp64_canonical
                 (efp64_quick_down_canonicalize
                    {| fp := IEEE.to_bits (SFmul IEEE.prec IEEE.emax
                               (IEEE.of_bits (fp a)) (IEEE.of_bits (fp b)));
                       exp := Int64.add (exp a) (exp b) |})).
  { apply efp64_quick_down_canonicalize_window; [|exact Hm].
    apply (SFmul_window 64); [assumption | assumption | lia]. }
  apply efp64_canonical_window_iff in Hc. destruct Hc as (Hw & Hm').
  split; [exact Hm' | right; exact Hw].
Qed.

Lemma xpe_loop_regular (e : positive) (power result : efp64_t) :
  efp64_regular power -> efp64_regular result ->
  efp64_regular (xpe_loop e power result).
Proof.
  revert power result. induction e as [e IH | e IH |]; intros power result Hp Hr;
    cbn [xpe_loop].
  - apply IH; apply efp64_mul_regular; assumption.
  - apply IH; [apply efp64_mul_regular|]; assumption.
  - apply efp64_mul_regular; assumption.
Qed.

(** X26: [xpe] has a result for every exponent but [INT64_MIN], for
    which its loop does not end; the result is valid, and it is a zero or
    canonical, whatever the base is (a NaN or an infinity included); the
    power of a zero base is the canonical zero and a non-zero base to the
    power 0 gives 1. *)
Theorem xpe_regular (x : fp64_t) (exp : Z) :
  (Int64.INT64_MIN < exp <= Int64.INT64_MAX ->
   exists r, xpe x exp = Some r
             /\ efp64_is_valid r = true
             /\ (efp64_is_zero r = true \/ efp64_canonical r))
  /\ (IEEE.eqb x IEEE.zero = true -> xpe x exp = Some efp64_zero)
  /\ (IEEE.eqb x IEEE.zero = false ->
      xpe x 0 = Some (efp64_from_fp64 IEEE.one)
      /\ xpe x Int64.INT64_MIN = None).
Proof.
  split; [|split].
  - intros He. unfold Int64.INT64_MIN, Int64.INT64_MAX in He. unfold xpe.
    destruct (IEEE.eqb x IEEE.zero).
    { exists efp64_zero. split; [reflexivity|].
      split; [vm_compute; reflexivity | left; vm_compute; reflexivity]. }
    assert (H : forall (p : Z) (y : fp64_t), 0 <= p ->
              exists r,
                match p with
                | 0 => Some (efp64_from_fp64 IEEE.one)
                | Z.pos e => Some (xpe_loop e (efp64_from_fp64 y) (efp64_from_fp64 IEEE.one))
                | Z.neg _ => None
                end = Some r
                /\ efp64_is_valid r = true
                /\ (efp64_is_zero r = true \/ efp64_canonical r)).
    { intros p y Hp.
      assert (H1 : efp64_regular (efp64_from_fp64 IEEE.one))
        by apply efp64_canonicalize_regular.
      destruct p as [|e|e]; [| |lia].
      - eexists. split; [reflexivity|].
        split; [apply efp64_regular_valid | apply efp64_regular_cases]; exact H1.
      - eexists. split; [reflexivity|].
        assert (Hr : efp64_regular
                       (xpe_loop e (efp64_from_fp64 y) (efp64_from_fp64 IEEE.one))).
        { apply xpe_loop_regular; [apply efp64_canonicalize_regular | exact H1]. }
        split; [apply efp64_regular_valid | apply efp64_regular_cases]; exact Hr. }
    destruct (Z.ltb_spec exp 0).
    + apply H. unfold Int64.neg.
      rewrite signed_in_range
        by (unfold Int64.in_range, Int64.INT64_MIN, Int64.INT64_MAX; lia).
      lia.
    + apply H. lia.
  - intros Hz. unfold xpe. rewrite Hz. reflexivity.
  - intros Hz. unfold xpe. rewrite Hz. split; reflexivity.
Qed.

Lemma to_bits_power2 (p : Z) :
  - 1022 <= p <= 1023 ->
  IEEE.to_bits (S754_finite false 4503599627370496 (p - 52)) = fp64_power2 p.
Proof.
  intros Hp.
  destruct (of_bits_to_bits_normal false 4503599627370496 (p - 52)) as (Hb & _);
    [lia | lia |].
  rewrite Hb, fp64_power2_pack by lia. cbn [Z.b2z]. f_equal; lia.
Qed.

Lemma mul_power2 (p q : Z) :
  - 1022 <= p <= 1023 -> - 1022 <= q <= 1023 -> - 1022 <= p + q <= 1022 ->
  IEEE.mul (fp64_power2 p) (fp64_power2 q) = fp64_power2 (p + q).
Proof.
  intros Hp Hq Hpq. unfold IEEE.mul.
  rewrite !of_bits_power2 by lia.
  rewrite SFmul_power2 by lia.
  replace (p - 52 + q) with (p + q - 52) by lia.
  apply to_bits_power2. lia.
Qed.

Lemma efp64_mul_power2 (m n : Z) :
  Z.abs m < 2 ^ 61 -> Z.abs n < 2 ^ 61 ->
  efp64_mul (efp64_power2 m) (efp64_power2 n) = efp64_power2 (m + n).
Proof.
  intros Hm Hn. unfold efp64_power2. change EXP_MODULUS with 64.
  pose proof (Z.mod_pos_bound m 64 ltac:(lia)) as Ha.
  pose proof (Z.mod_pos_bound n 64 ltac:(lia)) as Hb.
  set (a := m mod 64) in *. set (b := n mod 64) in *.
  unfold efp64_mul, efp64_quick_mul. cbn [fp exp].
  rewrite mul_power2 by lia.
  unfold Int64.add at 1.
  rewrite signed_in_range
    by (unfold Int64.in_range, Int64.INT64_MIN, Int64.INT64_MAX; lia).
  assert (Hmod : (m + n) mod 64 = (a + b) mod 64).
  { unfold a, b. rewrite <- Z.add_mod by lia. reflexivity. }
  unfold efp64_quick_down_canonicalize. cbn [fp exp].
  rewrite <- (to_bits_power2 (a + b)) by lia.
  rewrite (geb_fabs_high 0 128) by (cbn [SF_window]; lia).
  replace (a + b - 52 + 52) with (a + b) by lia.
  rewrite (to_bits_power2 (a + b)) by lia.
  destruct (Z.leb_spec 64 (a + b)).
  - change EXP_MODULUS with 64. rewrite mul_power2 by lia.
    assert (E : (a + b) mod 64 = a + b - 64).
    { symmetry. apply (Z.mod_unique_pos _ _ 1); lia. }
    rewrite Hmod, E. unfold Int64.add.
    rewrite signed_in_range
      by (unfold Int64.in_range, Int64.INT64_MIN, Int64.INT64_MAX; lia).
    f_equal; try lia; f_equal; lia.
  - rewrite Hmod, Z.mod_small by lia. f_equal. lia.
Qed.

Lemma xpe_loop_power2 (e : positive) (q r : Z) :
  Z.abs r + Z.abs q * Z.pos e < 2 ^ 60 ->
  xpe_loop e (efp64_power2 q) (efp64_power2 r) = efp64_power2 (r + q * Z.pos e).
Proof.
  revert q r. induction e as [e IH | e IH |]; intros q r Hb; cbn [xpe_loop].
  - rewrite !efp64_mul_power2 by nia. rewrite IH by nia. f_equal. lia.
  - rewrite efp64_mul_power2 by nia. rewrite IH by nia. f_equal. lia.
  - rewrite efp64_mul_power2 by nia. f_equal. lia.
Qed.

(** X27: the powers of [2.0] are exact: [xpe(2.0, k)] is the canonical
    value [2^k], bit for bit, for every exponent of magnitude below
    [2^60], negative ones included. *)
Theorem xpe_two (k : Z) :
  - 2 ^ 60 < k < 2 ^ 60 ->
  xpe IEEE.two k = Some (efp64_power2 k).
Proof.
  intros Hk. unfold xpe.
  replace (IEEE.eqb IEEE.two IEEE.zero) with false by (vm_compute; reflexivity).
  assert (H1 : efp64_from_fp64 IEEE.one = efp64_power2 0) by (vm_compute; reflexivity).
  assert (H2 : efp64_from_fp64 IEEE.two = efp64_power2 1) by (vm_compute; reflexivity).
  assert (Hh : efp64_from_fp64 (IEEE.div IEEE.one IEEE.two) = efp64_power2 (-1))
    by (vm_compute; reflexivity).
  destruct (Z.ltb_spec k 0).
  - unfold Int64.neg.
    rewrite signed_in_range
      by (unfold Int64.in_range, Int64.INT64_MIN, Int64.INT64_MAX; lia).
    destruct k as [|p|p]; try lia.
    change (- Z.neg p) with (Z.pos p).
    rewrite H1, Hh, xpe_loop_power2 by lia. reflexivity.
  - destruct k as [|p|p]; try lia.
    + rewrite H1. reflexivity.
    + rewrite H1, H2, xpe_loop_power2 by lia. reflexivity.
Qed.

Lemma xpe_two_witness : xpe IEEE.two (-1000) = Some (efp64_power2 (-1000)).
Proof. apply (xpe_two (-1000)). lia. Defined.

(** ** Products in the range of a double *)

(** In the normal range, rounding does not depend on the exponent. *)
Lemma shr_fexp_shift (m e K : Z) (l : location) :
  - 1074 <= e + Zdigits2 m - 53 -> - 1074 <= e + K + Zdigits2 m - 53 ->
  shr_fexp IEEE.prec IEEE.emax m (e + K) l =
  (fst (shr_fexp IEEE.prec IEEE.emax m e l),
   snd (shr_fexp IEEE.prec IEEE.emax m e l) + K).
Proof.
  intros H1 H2. unfold shr_fexp. rewrite !fexp_normal by lia.
  replace (Zdigits2 m + (e + K) - 53 - (e + K)) with (Zdigits2 m - 53) by lia.
  replace (Zdigits2 m + e - 53 - e) with (Zdigits2 m - 53) by lia.
  destruct (Zdigits2 m - 53) as [|p|p]; cbn [shr fst snd]; f_equal; lia.
Qed.

Lemma binary_round_aux_shift (s : bool) (m e K : Z) (l : location) (d : Z)
      (r : spec_float) :
  0 < m -> Zdigits2 m = d -> 53 <= d ->
  - 1074 <= e + d - 53 -> e + d <= 1023 ->
  - 1074 <= e + K + d - 53 -> e + K + d <= 1023 ->
  binary_round_aux IEEE.prec IEEE.emax s m e l = r ->
  binary_round_aux IEEE.prec IEEE.emax s m (e + K) l =
  match r with
  | S754_finite s' m' e' => S754_finite s' m' (e' + K)
  | _ => r
  end.
Proof.
  intros Hm Hd Hd53 He1 He2 Hk1 Hk2 Hr.
  destruct (binary_round_aux_normal s m e l d Hm Hd Hd53 He1 He2)
    as (m' & e' & E & Hm' & Hc & _).
  rewrite E in Hr. subst r.
  assert (He' : e' <= e + d - 52) by (destruct Hc as [H | [H | H]]; lia).
  destruct (shr_fexp_normal m e l d Hm Hd Hd53 He1) as (mrs & E1 & Hq & _).
  unfold binary_round_aux in E |- *.
  rewrite shr_fexp_shift by (rewrite Hd; lia).
  rewrite E1 in E |- *. cbn [fst snd].
  set (q := m / 2 ^ (d - 53)) in *.
  assert (Hqr : 2 ^ 52 <= q < 2 ^ 53).
  { pose proof (Zdigits2_spec m Hm) as Hs. rewrite Hd in Hs.
    assert (Hp : 0 < 2 ^ (d - 53)) by (apply Z.pow_pos_nonneg; lia).
    replace (d - 1) with (52 + (d - 53)) in Hs by lia.
    replace d with (53 + (d - 53)) in Hs at 2 by lia.
    rewrite !Z.pow_add_r in Hs by lia.
    unfold q. split.
    - apply Z.div_le_lower_bound; lia.
    - apply Z.div_lt_upper_bound; lia. }
  rewrite Hq in E |- *.
  set (m1 := round_nearest_even q (loc_of_shr_record mrs)) in *.
  assert (Hm1 : m1 = q \/ m1 = q + 1) by apply round_nearest_even_cases.
  assert (Hd1 : 53 <= Zdigits2 m1 <= 54).
  { destruct (Z.eq_dec m1 (2 ^ 53)) as [-> | Hne].
    - change (Zdigits2 (2 ^ 53)) with 54. lia.
    - rewrite (Zdigits2_unique m1 53) by (cbn; lia). lia. }
  rewrite shr_fexp_shift by lia.
  destruct (shr_fexp IEEE.prec IEEE.emax m1 (e + d - 53) loc_Exact) as (mrs2, e2).
  cbn [fst snd].
  destruct (shr_m mrs2) as [|p|p]; try discriminate E.
  unfold IEEE.emax, IEEE.prec in *.
  destruct (Z.leb_spec e2 (1024 - 53)); [|discriminate E].
  injection E as -> ->.
  destruct (Z.leb_spec (e' + K) (1024 - 53)); [reflexivity | lia].
Qed.

Lemma to_fp64_of_finite (s : bool) (m : positive) (e X : Z) :
  2 ^ 52 <= Z.pos m < 2 ^ 53 -> - 1022 <= e + 52 <= 1023 ->
  - 1022 <= X + e + 52 <= 1023 ->
  efp64_to_fp64 {| fp := IEEE.to_bits (S754_finite s m e); exp := X |}
  = IEEE.to_bits (S754_finite s m (X + e)).
Proof.
  intros Hm He HX.
  destruct (of_bits_to_bits_normal s m e Hm) as (Hb & _); [lia|].
  destruct (of_bits_to_bits_normal s m (X + e) Hm) as (Hb' & _); [lia|].
  assert (Hfl : fp64_fields (Z.b2z s) (e + 1075) (Z.pos m - 2 ^ 52))
    by (unfold fp64_fields; destruct s; cbn [Z.b2z]; lia).
  set (x := {| fp := IEEE.to_bits (S754_finite s m e); exp := X |}).
  assert (Hz : efp64_is_zero x = false).
  { rewrite efp64_is_zero_fields. unfold x; cbn [fp].
    rewrite Hb, fp64_get_biased_exponent_pack by assumption.
    destruct (Z.eqb_spec (e + 1075) 0); [lia | reflexivity]. }
  rewrite (efp64_to_fp64_nonzero x Hz). cbv zeta.
  assert (Hfe : efp64_full_exponent x = X + e + 52).
  { unfold efp64_full_exponent, Int64.add, x; cbn [fp exp].
    rewrite fp64_get_exponent_biased, Hb, fp64_get_biased_exponent_pack by assumption.
    replace (X + (e + 1075 - 1023)) with (X + e + 52) by lia.
    apply signed_in_range. unfold Int64.in_range, Int64.INT64_MIN, Int64.INT64_MAX. lia. }
  rewrite Hfe. unfold x; cbn [fp].
  rewrite Hb, fp64_get_sign_pack, fp64_get_fraction_pack by assumption.
  destruct (Z.leb_spec (X + e + 52) (-1023)); [lia|].
  destruct (Z.leb_spec 1024 (X + e + 52)); [lia|].
  rewrite Hb'. f_equal. lia.
Qed.

Lemma efp64_canonical_finite (a : efp64_t) :
  fp64_wf (fp a) -> efp64_canonical a ->
  exists s m e,
    IEEE.of_bits (fp a) = S754_finite s m e
    /\ fp a = IEEE.to_bits (S754_finite s m e)
    /\ 2 ^ 52 <= Z.pos m < 2 ^ 53 /\ 0 <= e + 52 < 64
    /\ fp64_get_exponent (fp a) = e + 52.
Proof.
  intros Hwf Ha.
  pose proof (efp64_canonical_fields a Ha) as Hbe.
  destruct (fp64_fields_of (fp a)) as (_ & _ & Hf).
  pose proof (efp64_canonical_of_bits a Ha) as Ho.
  eexists _, _, _. split; [exact Ho|]. split.
  - rewrite <- Ho. symmetry. apply to_bits_of_bits; [exact Hwf|].
    apply efp64_canonical_not_nan, Ha.
  - rewrite Z2Pos.id by lia. rewrite fp64_get_exponent_biased. lia.
Qed.

(** X28: in the range of a double the extended product is the native
    one: when two canonical values and their product have the full
    exponents of normal doubles, [efp64_mul] followed by the conversion to
    a double gives, bit for bit, the IEEE product of the two doubles the
    values convert to. *)
Theorem efp64_mul_native (a b : efp64_t) :
  efp64_wf a -> efp64_wf b -> efp64_canonical a -> efp64_canonical b ->
  efp64_fits_fp64 a -> efp64_fits_fp64 b ->
  - 1022 <= (exp a + fp64_get_exponent (fp a)) + (exp b + fp64_get_exponent (fp b))
          <= 1021 ->
  efp64_to_fp64 (efp64_mul a b) = IEEE.mul (efp64_to_fp64 a) (efp64_to_fp64 b).
Proof.
  intros (Hwa & _) (Hwb & _) Ha Hb Fa Fb Hab.
  unfold efp64_fits_fp64 in Fa, Fb.
  destruct (efp64_canonical_finite a Hwa Ha)
    as (sa & ma & ea & Hoa & Hba & Hma & Hea & Hxa).
  destruct (efp64_canonical_finite b Hwb Hb)
    as (sb & mb & eb & Hob & Hbb & Hmb & Heb & Hxb).
  rewrite Hxa in Fa, Hab. rewrite Hxb in Fb, Hab.
  destruct a as [fa Xa], b as [fb Xb]. cbn [fp exp] in *. subst fa fb.
  (* the two doubles *)
  rewrite (to_fp64_of_finite sa ma ea Xa), (to_fp64_of_finite sb mb eb Xb) by lia.
  unfold IEEE.mul at 1.
  destruct (of_bits_to_bits_normal sa ma (Xa + ea) Hma) as (_ & Ho1); [lia|].
  destruct (of_bits_to_bits_normal sb mb (Xb + eb) Hmb) as (_ & Ho2); [lia|].
  rewrite Ho1, Ho2. cbn [SFmul].
  (* the product of the significands *)
  unfold efp64_mul, efp64_quick_mul, IEEE.mul. cbn [fp exp].
  rewrite Hoa, Hob. cbn [SFmul].
  rewrite Pos2Z.inj_mul.
  set (M := Z.pos ma * Z.pos mb).
  assert (HM : 2 ^ 104 <= M <= (2 ^ 53 - 1) * (2 ^ 53 - 1)) by (unfold M; nia).
  assert (Hd : exists d, Zdigits2 M = d /\ 105 <= d <= 106
                         /\ (d = 106 -> M / 2 ^ (d - 53) < 2 ^ 53 - 1)).
  { destruct (Z.lt_ge_cases M (2 ^ 105)) as [Hlt | Hge].
    - exists 105. split; [apply Zdigits2_unique; lia|]. split; lia.
    - exists 106. split; [apply Zdigits2_unique; lia|]. split; [lia|].
      intros _. apply Z.div_lt_upper_bound; lia. }
  destruct Hd as (d & Hd & Hdr & Hnc).
  destruct (binary_round_aux_normal (xorb sa sb) M (ea + eb) loc_Exact d)
    as (m' & e' & E & Hm' & Hc & _); try lia.
  assert (He' : ea + eb + 104 <= e' + 52 <= ea + eb + 106 /\ e' + 52 < 128).
  { destruct Hc as [(_ & Hc) | [(_ & Hc) | (Hc' & _ & Hc)]]; lia. }
  pose proof (binary_round_aux_shift (xorb sa sb) M (ea + eb) (Xa + Xb) loc_Exact d
                _ ltac:(lia) Hd ltac:(lia) ltac:(lia) ltac:(lia) ltac:(lia) ltac:(lia) E)
    as Es.
  cbv beta iota in Es.
  replace (Xa + ea + (Xb + eb)) with (ea + eb + (Xa + Xb)) by lia.
  rewrite E, Es.
  assert (HX : Int64.add Xa Xb = Xa + Xb).
  { unfold Int64.add. apply signed_in_range.
    unfold Int64.in_range, Int64.INT64_MIN, Int64.INT64_MAX. lia. }
  rewrite HX.
  (* the quick canonicalization *)
  assert (Hw : SF_window 0 128 (S754_finite (xorb sa sb) m' e'))
    by (cbn [SF_window]; lia).
  unfold efp64_quick_down_canonicalize. cbn [fp exp].
  rewrite (geb_fabs_high 0 128 _ Hw) by lia.
  destruct (Z.leb_spec 64 (e' + 52)).
  - unfold IEEE.mul.
    destruct (of_bits_to_bits_normal (xorb sa sb) m' e' Hm') as (_ & Ho); [lia|].
    rewrite Ho, of_bits_power2_m64.
    change (-116) with (-64 - 52). rewrite SFmul_power2 by lia.
    assert (HX' : Int64.add (Xa + Xb) EXP_MODULUS = Xa + Xb + 64).
    { unfold Int64.add. change EXP_MODULUS with 64. apply signed_in_range.
      unfold Int64.in_range, Int64.INT64_MIN, Int64.INT64_MAX. lia. }
    rewrite HX', to_fp64_of_finite by lia.
    do 2 f_equal. lia.
  - rewrite to_fp64_of_finite by lia.
    do 2 f_equal. lia.
Qed.

Lemma efp64_mul_native_witness :
  let a := {| fp := 4613937818241073152; exp := 64 |} in
  let b := {| fp := IEEE.minus_one; exp := -128 |} in
  efp64_to_fp64 (efp64_mul a b) = IEEE.mul (efp64_to_fp64 a) (efp64_to_fp64 b).
Proof.
  intros a b.
  assert (Ha : efp64_canonical a) by exact efp64_three_canonical.
  assert (Hb : efp64_canonical b) by by_evaluation.
  apply (efp64_mul_native a b); try assumption; by_evaluation.
Defined.

(** ** Quotients in the range of a double *)

Lemma SFdiv_normal (sa sb : bool) (ma mb : positive) (ea eb : Z) :
  2 ^ 52 <= Z.pos ma < 2 ^ 53 -> 2 ^ 52 <= Z.pos mb < 2 ^ 53 ->
  - 1021 <= ea - eb ->
  SFdiv IEEE.prec IEEE.emax (S754_finite sa ma ea) (S754_finite sb mb eb) =
  binary_round_aux IEEE.prec IEEE.emax (xorb sa sb)
    (fst (Z.div_eucl (Z.pos ma * 2 ^ 53) (Z.pos mb))) (ea - eb - 53)
    (new_location (Z.pos mb) (snd (Z.div_eucl (Z.pos ma * 2 ^ 53) (Z.pos mb)))).
Proof.
  intros Hma Hmb He. cbn [SFdiv]. unfold SFdiv_core_binary.
  replace (Zdigits2 (Z.pos ma)) with 53 by (symmetry; apply Zdigits2_unique; lia).
  replace (Zdigits2 (Z.pos mb)) with 53 by (symmetry; apply Zdigits2_unique; lia).
  rewrite fexp_normal by lia.
  replace (Z.min (53 + ea - (53 + eb) - 53) (ea - eb)) with (ea - eb - 53) by lia.
  replace (ea - eb - (ea - eb - 53)) with 53 by lia.
  rewrite Z.shiftl_mul_pow2 by lia.
  destruct (Z.div_eucl (Z.pos ma * 2 ^ 53) (Z.pos mb)) as [q r]. reflexivity.
Qed.

(** X29: in the range of a double the extended quotient is the native
    one: when two canonical values and their quotient have the full
    exponents of normal doubles, [efp64_div] followed by the conversion to
    a double gives, bit for bit, the IEEE quotient of the two doubles the
    values convert to. *)
Theorem efp64_div_native (a b : efp64_t) :
  efp64_wf a -> efp64_wf b -> efp64_canonical a -> efp64_canonical b ->
  efp64_fits_fp64 a -> efp64_fits_fp64 b ->
  - 1021 <= (exp a + fp64_get_exponent (fp a)) - (exp b + fp64_get_exponent (fp b))
          <= 1022 ->
  efp64_to_fp64 (efp64_div a b) = IEEE.div (efp64_to_fp64 a) (efp64_to_fp64 b).
Proof.
  intros (Hwa & _) (Hwb & _) Ha Hb Fa Fb Hab.
  unfold efp64_fits_fp64 in Fa, Fb.
  destruct (efp64_canonical_finite a Hwa Ha)
    as (sa & ma & ea & Hoa & Hba & Hma & Hea & Hxa).
  destruct (efp64_canonical_finite b Hwb Hb)
    as (sb & mb & eb & Hob & Hbb & Hmb & Heb & Hxb).
  rewrite Hxa in Fa, Hab. rewrite Hxb in Fb, Hab.
  destruct a as [fa Xa], b as [fb Xb]. cbn [fp exp] in *. subst fa fb.
  (* the two doubles *)
  rewrite (to_fp64_of_finite sa ma ea Xa), (to_fp64_of_finite sb mb eb Xb) by lia.
  unfold IEEE.div at 1.
  destruct (of_bits_to_bits_normal sa ma (Xa + ea) Hma) as (_ & Ho1); [lia|].
  destruct (of_bits_to_bits_normal sb mb (Xb + eb) Hmb) as (_ & Ho2); [lia|].
  rewrite Ho1, Ho2, SFdiv_normal by lia.
  (* the quotient of the significands *)
  unfold efp64_div, IEEE.div. cbn [fp exp].
  rewrite Hoa, Hob, SFdiv_normal by lia.
  pose proof (Z_div_mod (Z.pos ma * 2 ^ 53) (Z.pos mb) ltac:(lia)) as Hdm.
  pose proof (SFdiv_window (S754_finite sa ma ea) (S754_finite sb mb eb)
                ltac:(cbn [SF_window]; lia) ltac:(cbn [SF_window]; lia)) as Hw.
  rewrite SFdiv_normal in Hw by lia.
  remember (Z.div_eucl (Z.pos ma * 2 ^ 53) (Z.pos mb)) as qr eqn:Eqr.
  destruct qr as [q r]. clear Eqr.
  destruct Hdm as (Hq & Hr). cbn [fst snd] in *.
  assert (Hq1 : 2 ^ 52 <= q) by nia.
  assert (Hq2 : q <= 2 ^ 54 - 2) by nia.
  assert (Hd : exists d, Zdigits2 q = d /\ 53 <= d <= 54).
  { destruct (Z.lt_ge_cases q (2 ^ 53)) as [Hlt | Hge].
    - exists 53. split; [apply Zdigits2_unique; lia | lia].
    - exists 54. split; [apply Zdigits2_unique; lia | lia]. }
  destruct Hd as (d & Hd & Hdr).
  destruct (binary_round_aux_normal (xorb sa sb) q (ea - eb - 53)
              (new_location (Z.pos mb) r) d)
    as (m' & e' & E & Hm' & Hc & _); try lia.
  rewrite E in Hw.
  assert (He' : ea - eb - 1 <= e' + 52 <= ea - eb + 1)
    by (destruct Hc as [(_ & Hc) | [(_ & Hc) | (_ & _ & Hc)]]; lia).
  pose proof (binary_round_aux_shift (xorb sa sb) q (ea - eb - 53) (Xa - Xb)
                (new_location (Z.pos mb) r) d
                _ ltac:(lia) Hd ltac:(lia) ltac:(lia) ltac:(lia) ltac:(lia) ltac:(lia) E)
    as Es.
  cbv beta iota in Es.
  replace (Xa + ea - (Xb + eb) - 53) with (ea - eb - 53 + (Xa - Xb)) by lia.
  rewrite E, Es.
  assert (HX : Int64.sub Xa Xb = Xa - Xb).
  { unfold Int64.sub. apply signed_in_range.
    unfold Int64.in_range, Int64.INT64_MIN, Int64.INT64_MAX. lia. }
  rewrite HX.
  (* the quick canonicalization *)
  unfold efp64_quick_up_canonicalize. cbn [fp exp].
  rewrite (ltb_fabs_one (-64) 64 _ Hw) by lia.
  cbn [SF_window] in Hw.
  destruct (Z.ltb_spec (e' + 52) 0).
  - unfold IEEE.mul.
    destruct (of_bits_to_bits_normal (xorb sa sb) m' e' Hm') as (_ & Ho); [lia|].
    rewrite Ho, of_bits_power2_64.
    change 12 with (64 - 52). rewrite SFmul_power2 by lia.
    assert (HX' : Int64.sub (Xa - Xb) EXP_MODULUS = Xa - Xb - 64).
    { unfold Int64.sub. change EXP_MODULUS with 64. apply signed_in_range.
      unfold Int64.in_range, Int64.INT64_MIN, Int64.INT64_MAX. lia. }
    rewrite HX', to_fp64_of_finite by lia.
    do 2 f_equal. lia.
  - rewrite to_fp64_of_finite by lia.
    do 2 f_equal. lia.
Qed.

Lemma efp64_div_native_witness :
  let a := {| fp := 4613937818241073152; exp := 64 |} in
  let b := {| fp := IEEE.minus_one; exp := -128 |} in
  efp64_to_fp64 (efp64_div a b) = IEEE.div (efp64_to_fp64 a) (efp64_to_fp64 b).
Proof.
  intros a b.
  assert (Ha : efp64_canonical a) by exact efp64_three_canonical.
  assert (Hb : efp64_canonical b) by by_evaluation.
  apply (efp64_div_native a b); try assumption; by_evaluation.
Defined.

(** ** Bit fields of a float *)

Lemma int32_signed_in_range (z : Z) :
  - 2 ^ 31 <= z < 2 ^ 31 -> Int32.signed z = z.
Proof.
  intros H. unfold Int32.signed. rewrite Z.mod_small by lia. lia.
Qed.

Lemma int32_unsigned_in_range (z : Z) :
  0 <= z < 2 ^ 32 -> Int32.unsigned z = z.
Proof. intros H. apply Z.mod_small. exact H. Qed.

Lemma fp32_assemble_pack (s be f : Z) :
  0 <= s < 2 -> 0 <= be < 256 -> 0 <= f < 2 ^ 23 ->
  fp32_assemble s (be - 127) f = fp32_pack s be f.
Proof.
  intros Hs Hbe Hf. unfold fp32_assemble, fp32_from_bits, Int32.add, FP32_BIAS,
    FP32_EXP_OFFSET, FP32_SIGN_OFFSET.
  replace (be - 127 + 127) with be by lia.
  rewrite int32_signed_in_range by lia.
  rewrite !Z.shiftl_mul_pow2 by lia.
  rewrite (int32_unsigned_in_range (be * 2 ^ 23)) by lia.
  rewrite (int32_unsigned_in_range (f + _)) by lia.
  rewrite (int32_unsigned_in_range (s * 2 ^ 31)) by lia.
  unfold fp32_pack. rewrite int32_unsigned_in_range by lia. lia.
Qed.

Lemma fp32_get_pack (s be f : Z) :
  0 <= s < 2 -> 0 <= be < 256 -> 0 <= f < 2 ^ 23 ->
  fp32_get_sign (fp32_pack s be f) = s
  /\ fp32_get_biased_exponent (fp32_pack s be f) = be
  /\ fp32_get_exponent (fp32_pack s be f) = be - 127
  /\ fp32_get_fraction (fp32_pack s be f) = f.
Proof.
  intros Hs Hbe Hf.
  assert (Hb : fp32_get_biased_exponent (fp32_pack s be f) = be).
  { unfold fp32_get_biased_exponent, fp32_get_bits, FP32_EXP_OFFSET, FP32_EXP_MASK.
    change 255 with (Z.ones 8).
    rewrite Z.land_ones, Z.shiftr_div_pow2 by lia. unfold fp32_pack.
    replace (s * 2 ^ 31 + be * 2 ^ 23 + f) with (f + (s * 2 ^ 8 + be) * 2 ^ 23) by lia.
    rewrite Z.div_add, Z.div_small, Z.add_0_l by lia.
    rewrite Z.add_comm, Z.mod_add by lia. apply Z.mod_small. lia. }
  split; [|split; [exact Hb | split]].
  - unfold fp32_get_sign, fp32_get_bits, FP32_SIGN_OFFSET.
    change 1 with (Z.ones 1) at 1.
    rewrite Z.land_ones, Z.shiftr_div_pow2 by lia. unfold fp32_pack.
    replace (s * 2 ^ 31 + be * 2 ^ 23 + f) with ((be * 2 ^ 23 + f) + s * 2 ^ 31) by lia.
    rewrite Z.div_add, Z.div_small, Z.add_0_l by lia. apply Z.mod_small. lia.
  - unfold fp32_get_exponent. rewrite Hb. unfold Int32.sub, FP32_BIAS.
    rewrite (int32_signed_in_range be) by lia.
    apply int32_signed_in_range. lia.
  - unfold fp32_get_fraction, fp32_get_bits.
    change (Int32.unsigned (Int32.sub (Z.shiftl 1 FP32_EXP_OFFSET) 1)) with (Z.ones 23).
    rewrite Z.land_ones by lia. unfold fp32_pack.
    replace (s * 2 ^ 31 + be * 2 ^ 23 + f) with (f + (s * 2 ^ 8 + be) * 2 ^ 23) by lia.
    rewrite Z.mod_add by lia. apply Z.mod_small. lia.
Qed.

Lemma fp32_land_exp_clear_mask (s be f : Z) :
  0 <= s < 2 -> 0 <= be < 256 -> 0 <= f < 2 ^ 23 ->
  Z.land (fp32_pack s be f) fp32_exp_clear_mask = fp32_pack s 0 f.
Proof.
  intros Hs Hbe Hf. unfold fp32_pack.
  change fp32_exp_clear_mask with ((1 * 2 ^ 8 + 0) * 2 ^ 23 + (2 ^ 23 - 1)).
  replace (s * 2 ^ 31 + be * 2 ^ 23 + f) with ((s * 2 ^ 8 + be) * 2 ^ 23 + f) by lia.
  rewrite land_concat by lia.
  rewrite land_concat by lia.
  change (2 ^ 23 - 1) with (Z.ones 23).
  rewrite Z.land_0_r, Z.land_ones, (Z.mod_small f) by lia.
  assert (Z.land s 1 = s) as -> by (assert (s = 0 \/ s = 1) as [-> | ->] by lia; reflexivity).
  lia.
Qed.

Lemma fp32_replace_exponent_pack (s be f e : Z) :
  0 <= s < 2 -> 0 <= be < 256 -> 0 <= f < 2 ^ 23 -> 0 <= e + 127 < 256 ->
  fp32_replace_exponent (fp32_pack s be f) e = fp32_pack s (e + 127) f.
Proof.
  intros Hs Hbe Hf He. unfold fp32_replace_exponent, fp32_get_bits, fp32_from_bits.
  rewrite fp32_land_exp_clear_mask by assumption.
  unfold Int32.add, FP32_BIAS, FP32_EXP_OFFSET.
  rewrite int32_signed_in_range by lia.
  rewrite Z.shiftl_mul_pow2 by lia.
  rewrite (int32_unsigned_in_range (e + 127)) by lia.
  rewrite (int32_unsigned_in_range ((e + 127) * 2 ^ 23)) by lia.
  unfold fp32_pack. rewrite int32_unsigned_in_range by lia. lia.
Qed.

(** X30: the single-precision accessors invert [fp32_assemble];
    [fp32_replace_exponent] and [fp32_zero_exponent] change the exponent
    field alone; [fp32_shift_exponent] moves the exponent, and gives
    [+0.0] when the new exponent is that of a zero or below. *)
Theorem fp32_fields (s be f e : Z) :
  0 <= s < 2 -> 0 <= be < 256 -> 0 <= f < 2 ^ 23 -> - 2 ^ 30 <= e < 129 ->
  let x := fp32_assemble s (be - 127) f in
  fp32_get_sign x = s
  /\ fp32_get_biased_exponent x = be
  /\ fp32_get_exponent x = be - 127
  /\ fp32_get_fraction x = f
  /\ (- 127 <= e -> fp32_replace_exponent x e = fp32_assemble s e f)
  /\ fp32_zero_exponent x = fp32_assemble s 0 f
  /\ fp32_shift_exponent x (e - (be - 127))
     = if e <=? - 127 then 0 else fp32_assemble s e f.
Proof.
  intros Hs Hbe Hf He x. unfold x.
  rewrite fp32_assemble_pack by assumption.
  destruct (fp32_get_pack s be f Hs Hbe Hf) as (H1 & H2 & H3 & H4).
  split; [exact H1|]. split; [exact H2|]. split; [exact H3|]. split; [exact H4|].
  assert (Hrep : - 127 <= e ->
                 fp32_replace_exponent (fp32_pack s be f) e = fp32_assemble s e f).
  { intros He'. rewrite fp32_replace_exponent_pack by lia.
    replace e with (e + 127 - 127) at 2 by lia.
    symmetry. apply fp32_assemble_pack; lia. }
  split; [exact Hrep|]. split.
  - replace (fp32_assemble s 0 f) with (fp32_pack s 127 f)
      by (symmetry; apply (fp32_assemble_pack s 127 f); lia).
    unfold fp32_zero_exponent, fp32_get_bits, fp32_from_bits.
    rewrite fp32_land_exp_clear_mask by assumption.
    change (Int32.unsigned (Z.shiftl FP32_BIAS FP32_EXP_OFFSET)) with (127 * 2 ^ 23).
    unfold fp32_pack. rewrite int32_unsigned_in_range by lia. lia.
  - unfold fp32_shift_exponent. rewrite H3. unfold Int32.add.
    replace (be - 127 + (e - (be - 127))) with e by lia.
    rewrite int32_signed_in_range by lia.
    unfold fp32_exponent_below. change (- FP32_BIAS) with (- 127).
    destruct (Z.leb_spec e (- 127)); [reflexivity|].
    apply Hrep. lia.
Qed.

Lemma fp32_fields_witness :
  let x := fp32_assemble 1 (130 - 127) 4194304 in
  fp32_get_sign x = 1
  /\ fp32_get_biased_exponent x = 130
  /\ fp32_get_exponent x = 130 - 127
  /\ fp32_get_fraction x = 4194304
  /\ (- 127 <= 10 -> fp32_replace_exponent x 10 = fp32_assemble 1 10 4194304)
  /\ fp32_zero_exponent x = fp32_assemble 1 0 4194304
  /\ fp32_shift_exponent x (10 - (130 - 127))
     = if 10 <=? - 127 then 0 else fp32_assemble 1 10 4194304.
Proof. apply (fp32_fields 1 130 4194304 10); by_evaluation. Defined.

(** ** Square roots in the range of a double *)

Lemma SFsqrt_normal (m : positive) (e : Z) :
  2 ^ 52 <= Z.pos m < 2 ^ 53 -> - 1074 <= e ->
  SFsqrt IEEE.prec IEEE.emax (S754_finite false m e) =
  let m' := Z.pos m * 2 ^ (e - 2 * (e / 2) + 52) in
  binary_round_aux IEEE.prec IEEE.emax false
    (fst (Z.sqrtrem m')) (e / 2 - 26)
    (if snd (Z.sqrtrem m') =? 0 then loc_Exact
     else loc_Inexact (if snd (Z.sqrtrem m') <=? fst (Z.sqrtrem m') then Lt else Gt)).
Proof.
  intros Hm He. cbn [SFsqrt]. unfold SFsqrt_core_binary.
  replace (Zdigits2 (Z.pos m)) with 53 by (symmetry; apply Zdigits2_unique; lia).
  rewrite !Z.div2_div.
  replace ((53 + e + 1) / 2) with (e / 2 + 27)
    by (replace (53 + e + 1) with (e + 27 * 2) by lia; rewrite Z.div_add by lia; reflexivity).
  pose proof (Z.div_mod e 2 ltac:(lia)) as D.
  pose proof (Z.mod_pos_bound e 2 ltac:(lia)) as B.
  rewrite fexp_normal by lia.
  replace (Z.min (e / 2 + 27 - 53) (e / 2)) with (e / 2 - 26) by lia.
  replace (e - 2 * (e / 2 - 26)) with (e - 2 * (e / 2) + 52) by lia.
  destruct (e - 2 * (e / 2) + 52) as [|p|p] eqn:Es; try lia.
  rewrite Z.shiftl_mul_pow2 by lia.
  cbv zeta. destruct (Z.sqrtrem (Z.pos m * 2 ^ Z.pos p)) as [q r]. reflexivity.
Qed.

Lemma to_fp64_canonicalize_any (a : efp64_t) :
  efp64_to_fp64 (efp64_canonicalize a) = efp64_to_fp64 a.
Proof.
  destruct (efp64_is_zero a) eqn:Hz.
  - assert (E : efp64_canonicalize a = efp64_zero)
      by (unfold efp64_canonicalize; rewrite Hz; reflexivity).
    rewrite E. unfold efp64_to_fp64 at 2. rewrite Hz. vm_compute; reflexivity.
  - assert (Hz' : efp64_is_zero (efp64_canonicalize a) = false)
      by (rewrite efp64_canonicalize_is_zero; exact Hz).
    rewrite (efp64_to_fp64_nonzero _ Hz'), (efp64_to_fp64_nonzero _ Hz).
    rewrite (efp64_canonicalize_full_exponent a Hz).
    rewrite (efp64_canonicalize_nonzero a Hz). cbn [fp exp].
    pose proof (lo_part_range (efp64_full_exponent a)) as Hlo.
    change EXP_MODULUS with 64 in Hlo.
    destruct (fp64_fields_of (fp a)) as (Hs & _ & Hf).
    rewrite fp64_get_sign_pack, fp64_get_fraction_pack
      by (unfold fp64_fields; lia).
    reflexivity.
Qed.

(** X4: in the range of a double the extended square root is the native
    one: for a canonical positive value whose full exponent is that of a
    normal double, [efp64_sqrt] followed by the conversion to a double
    gives, bit for bit, the IEEE square root of the double the value
    converts to. *)
Theorem efp64_sqrt_native (a : efp64_t) :
  efp64_wf a -> efp64_canonical a -> efp64_fits_fp64 a ->
  IEEE.ltb (fp a) IEEE.zero = false ->
  efp64_to_fp64 (efp64_sqrt a) = IEEE.sqrt (efp64_to_fp64 a).
Proof.
  intros (Hwa & _) Ha Fa Hpos.
  unfold efp64_fits_fp64 in Fa.
  pose proof (efp64_canonical_nonzero a Ha) as Hnz.
  destruct Ha as (Hc1 & Hmod). pose proof (conj Hc1 Hmod) as Ha.
  destruct (efp64_canonical_finite a Hwa Ha)
    as (sa & ma & ea & Hoa & Hba & Hma & Hea & Hxa).
  rewrite Hxa in Fa.
  assert (Hs : sa = false).
  { unfold IEEE.ltb in Hpos. rewrite Hoa in Hpos.
    change (IEEE.of_bits IEEE.zero) with (S754_zero false) in Hpos.
    rewrite ltb_zero_finite in Hpos. exact Hpos. }
  subst sa.
  unfold efp64_sqrt. rewrite Hnz, Hpos. cbn [orb].
  rewrite to_fp64_canonicalize_any.
  destruct a as [fa Xa]. cbn [fp exp] in *. subst fa.
  change EXP_MODULUS with 64 in Hmod.
  pose proof (Z.div_mod Xa 64 ltac:(lia)) as DX. rewrite Hmod in DX.
  set (c := Xa / 64) in *.
  assert (HK : Z.quot Xa 2 = 32 * c).
  { replace Xa with (32 * c * 2) by lia. apply Z.quot_mul. lia. }
  rewrite HK.
  (* the double *)
  rewrite (to_fp64_of_finite false ma ea Xa) by lia.
  unfold IEEE.sqrt.
  destruct (of_bits_to_bits_normal false ma (Xa + ea) Hma) as (_ & Ho1); [lia|].
  destruct (of_bits_to_bits_normal false ma ea Hma) as (_ & Ho0); [lia|].
  rewrite Ho1, Ho0, !SFsqrt_normal by lia. cbv zeta.
  assert (Hdiv : (Xa + ea) / 2 = ea / 2 + 32 * c).
  { replace (Xa + ea) with (ea + 32 * c * 2) by lia. apply Z.div_add. lia. }
  rewrite Hdiv.
  replace (Xa + ea - 2 * (ea / 2 + 32 * c) + 52) with (ea - 2 * (ea / 2) + 52) by lia.
  pose proof (Z.div_mod ea 2 ltac:(lia)) as D.
  pose proof (Z.mod_pos_bound ea 2 ltac:(lia)) as B.
  set (s := ea - 2 * (ea / 2) + 52) in *.
  assert (Hsr : 52 <= s <= 53) by (unfold s; lia).
  set (M := Z.pos ma * 2 ^ s).
  assert (HM : 2 ^ 104 <= M < 2 ^ 106).
  { unfold M. assert (s = 52 \/ s = 53) as [-> | ->] by lia; lia. }
  pose proof (Z.sqrtrem_spec M ltac:(lia)) as Hsq.
  destruct (Z.sqrtrem M) as [q r]. cbn [fst snd].
  destruct Hsq as (Hq & Hr).
  assert (Hqr : 2 ^ 52 <= q < 2 ^ 53) by nia.
  assert (Hd : Zdigits2 q = 53) by (apply Zdigits2_unique; lia).
  set (l := if r =? 0 then loc_Exact else loc_Inexact (if r <=? q then Lt else Gt)).
  destruct (binary_round_aux_normal false q (ea / 2 - 26) l 53)
    as (m' & e' & E & Hm' & Hc & _); try lia.
  assert (He' : ea / 2 - 26 <= e' <= ea / 2 - 25)
    by (destruct Hc as [(_ & Hc) | [(_ & Hc) | (_ & _ & Hc)]]; lia).
  pose proof (binary_round_aux_shift false q (ea / 2 - 26) (32 * c) l 53
                _ ltac:(lia) Hd ltac:(lia) ltac:(lia) ltac:(lia) ltac:(lia) ltac:(lia) E)
    as Es.
  cbv beta iota in Es.
  replace (ea / 2 + 32 * c - 26) with (ea / 2 - 26 + 32 * c) by lia.
  rewrite E, Es.
  rewrite to_fp64_of_finite by lia.
  do 2 f_equal. lia.
Qed.

Lemma efp64_sqrt_native_witness :
  let a := {| fp := 4613937818241073152; exp := 64 |} in
  efp64_to_fp64 (efp64_sqrt a) = IEEE.sqrt (efp64_to_fp64 a).
Proof.
  intros a.
  assert (Ha : efp64_canonical a) by exact efp64_three_canonical.
  apply (efp64_sqrt_native a); try assumption; by_evaluation.
Defined.

(** ** Sums in the range of a double *)

Lemma SFfma_power2 (sx sz : bool) (mx mz : positive) (ex ez delta : Z) :
  IEEE.SFfma (S754_finite sx mx ex)
    (S754_finite false 4503599627370496 (delta - 52)) (S754_finite sz mz ez) =
  SFadd IEEE.prec IEEE.emax (S754_finite sx mx (ex + delta)) (S754_finite sz mz ez).
Proof.
  unfold IEEE.SFfma. cbn [IEEE.exact_mul]. rewrite xorb_false_r.
  assert (Hm : Z.pos (mx * 4503599627370496) = Z.pos mx * 2 ^ 52) by reflexivity.
  cbn [SFadd]. cbv zeta.
  set (ep := ex + (delta - 52)). set (e' := Z.min ep ez).
  set (e0 := Z.min (ex + delta) ez).
  destruct (shl_align_spec (mx * 4503599627370496) ep e') as (H1 & _).
  destruct (shl_align_spec mz ez e') as (H2 & _).
  destruct (shl_align_spec mx (ex + delta) e0) as (H3 & _).
  destruct (shl_align_spec mz ez e0) as (H4 & _).
  rewrite H1, H2, H3, H4, Hm.
  replace e' with (e0 - (e0 - e')) at 3 by lia.
  rewrite <- (binary_normalize_scaled _ e0 (e0 - e')) by lia.
  f_equal.
  rewrite Z.mul_add_distr_r, !cond_Zopp_mul. f_equal; f_equal.
  - rewrite <- !Z.mul_assoc, <- !Z.pow_add_r by lia. do 2 f_equal. lia.
  - rewrite <- !Z.mul_assoc, <- !Z.pow_add_r by lia. do 2 f_equal. lia.
Qed.

Lemma binary_round_shift (s : bool) (m : positive) (e K d : Z) (r : spec_float) :
  Z.pos (digits2_pos m) = d ->
  - 1074 <= e + d - 53 -> e + d <= 1023 ->
  - 1074 <= e + K + d - 53 -> e + K + d <= 1023 ->
  binary_round IEEE.prec IEEE.emax s m e = r ->
  binary_round IEEE.prec IEEE.emax s m (e + K) = SF_shift K r.
Proof.
  intros Hd H1 H2 H3 H4 Hr. unfold binary_round in *.
  rewrite Hd in *. rewrite fexp_normal in * by lia.
  pose proof (digits2_pos_spec m) as Hs. rewrite Hd in Hs.
  unfold shl_align in *.
  replace (d + (e + K) - 53 - (e + K)) with (d - 53) by lia.
  replace (d + e - 53 - e) with (d - 53) in Hr by lia.
  destruct (d - 53) as [|p|p] eqn:Ed.
  - apply (binary_round_aux_shift s (Z.pos m) e K loc_Exact d); try lia; assumption.
  - apply (binary_round_aux_shift s (Z.pos m) e K loc_Exact d); try lia; assumption.
  - replace (d + (e + K) - 53) with (d + e - 53 + K) by lia.
    assert (Hz : Z.pos (Pos.iter xO m p) = Z.pos m * 2 ^ Z.pos p) by apply iter_xO_Z.
    assert (Hp : 0 < 2 ^ Z.pos p) by (apply Z.pow_pos_nonneg; lia).
    assert (Hdz : Zdigits2 (Z.pos (Pos.iter xO m p)) = 53).
    { rewrite Hz, Zdigits2_shift by lia. cbn [Zdigits2]. lia. }
    apply (binary_round_aux_shift s _ (d + e - 53) K loc_Exact 53);
      try lia; try assumption.
Qed.

Lemma binary_normalize_shift (S e K d : Z) (sz : bool) (r : spec_float) :
  (S <> 0 ->
   Zdigits2 (Z.abs S) = d
   /\ - 1074 <= e + d - 53 /\ e + d <= 1023
   /\ - 1074 <= e + K + d - 53 /\ e + K + d <= 1023) ->
  binary_normalize IEEE.prec IEEE.emax S e sz = r ->
  binary_normalize IEEE.prec IEEE.emax S (e + K) sz = SF_shift K r.
Proof.
  intros H Hr. destruct S as [|p|p]; cbn [binary_normalize] in *.
  - subst r. reflexivity.
  - destruct (H ltac:(lia)) as (Hd & H1 & H2 & H3 & H4).
    apply (binary_round_shift false p e K d); try assumption.
  - destruct (H ltac:(lia)) as (Hd & H1 & H2 & H3 & H4).
    apply (binary_round_shift true p e K d); try assumption.
Qed.

Lemma SFadd_finite_eq (sx sz : bool) (mx mz : positive) (ex ez : Z) :
  SFadd IEEE.prec IEEE.emax (S754_finite sx mx ex) (S754_finite sz mz ez) =
  binary_normalize IEEE.prec IEEE.emax
    (cond_Zopp sx (Z.pos mx * 2 ^ (ex - Z.min ex ez))
     + cond_Zopp sz (Z.pos mz * 2 ^ (ez - Z.min ex ez)))
    (Z.min ex ez) false.
Proof.
  cbn [SFadd]. cbv zeta.
  destruct (shl_align_spec mx ex (Z.min ex ez)) as (HA & _).
  destruct (shl_align_spec mz ez (Z.min ex ez)) as (HB & _).
  rewrite HA, HB.
  replace (Z.max 0 (ex - Z.min ex ez)) with (ex - Z.min ex ez) by lia.
  replace (Z.max 0 (ez - Z.min ex ez)) with (ez - Z.min ex ez) by lia.
  reflexivity.
Qed.

Lemma SFadd_shift (sx sz : bool) (mx mz : positive) (ex ez K : Z) (r : spec_float) :
  2 ^ 52 <= Z.pos mx < 2 ^ 53 -> 2 ^ 52 <= Z.pos mz < 2 ^ 53 ->
  - 1022 <= Z.min ex ez -> Z.max ex ez <= 900 ->
  SFadd IEEE.prec IEEE.emax (S754_finite sx mx ex) (S754_finite sz mz ez) = r ->
  match r with S754_finite _ _ e' => - 1073 <= e' + K <= 970 | _ => True end ->
  SFadd IEEE.prec IEEE.emax (S754_finite sx mx (ex + K)) (S754_finite sz mz (ez + K))
  = SF_shift K r.
Proof.
  intros Hmx Hmz Hlo Hhi Hr Hre.
  rewrite SFadd_finite_eq in Hr |- *.
  rewrite Z.add_min_distr_r.
  set (e0 := Z.min ex ez) in *.
  replace (ex + K - (e0 + K)) with (ex - e0) by lia.
  replace (ez + K - (e0 + K)) with (ez - e0) by lia.
  set (A := Z.pos mx * 2 ^ (ex - e0)) in *.
  set (B := Z.pos mz * 2 ^ (ez - e0)) in *.
  set (S := cond_Zopp sx A + cond_Zopp sz B) in *.
  apply (binary_normalize_shift S e0 K (Zdigits2 (Z.abs S))); [|exact Hr].
  intros Hnz. split; [reflexivity|].
  set (W := 2 ^ (Z.max ex ez - e0)).
  assert (HW : 0 < W) by (apply Z.pow_pos_nonneg; lia).
  assert (Ha : 0 < 2 ^ (ex - e0) <= W)
    by (split; [apply Z.pow_pos_nonneg | apply Z.pow_le_mono_r]; lia).
  assert (Hb : 0 < 2 ^ (ez - e0) <= W)
    by (split; [apply Z.pow_pos_nonneg | apply Z.pow_le_mono_r]; lia).
  assert (HA : 0 < A < 2 ^ 53 * W) by (unfold A; nia).
  assert (HB : 0 < B < 2 ^ 53 * W) by (unfold B; nia).
  assert (HS : 0 < Z.abs S < 2 ^ (54 + (Z.max ex ez - e0))).
  { rewrite Z.pow_add_r by lia. fold W. unfold S in *.
    destruct sx, sz; cbn [cond_Zopp] in *; lia. }
  pose proof (Zdigits2_spec (Z.abs S) ltac:(lia)) as Hs.
  pose proof (Zdigits2_pos (Z.abs S) ltac:(lia)) as Hdp.
  set (d := Zdigits2 (Z.abs S)) in *.
  assert (Hd : d - 1 < 54 + (Z.max ex ez - e0)) by (apply pow2_lt_inv; lia).
  assert (H1 : - 1074 <= e0 + d - 53) by lia.
  assert (H2 : e0 + d <= 1023) by lia.
  split; [exact H1|]. split; [exact H2|].
  assert (Hex : match r with
                | S754_finite _ _ e' => e' = e0 + d - 53 \/ e' = e0 + d - 52
                | _ => False
                end).
  { destruct S as [|p|p]; [lia | |]; cbn [binary_normalize] in Hr.
    - destruct (binary_round_normal false p e0 d eq_refl H1 H2)
        as (m' & e' & E & _ & Hc & _).
      rewrite E in Hr. subst r. exact Hc.
    - destruct (binary_round_normal true p e0 d eq_refl H1 H2)
        as (m' & e' & E & _ & Hc & _).
      rewrite E in Hr. subst r. exact Hc. }
  destruct r as [s|s| |s m' e']; try contradiction. lia.
Qed.

Lemma SFadd_cases (sx sz : bool) (mx mz : positive) (ex ez : Z) :
  2 ^ 52 <= Z.pos mx < 2 ^ 53 -> 2 ^ 52 <= Z.pos mz < 2 ^ 53 ->
  - 1022 <= Z.min ex ez -> Z.max ex ez <= 900 ->
  (SFadd IEEE.prec IEEE.emax (S754_finite sx mx ex) (S754_finite sz mz ez)
   = S754_zero false
   /\ forall K,
        SFadd IEEE.prec IEEE.emax (S754_finite sx mx (ex + K)) (S754_finite sz mz (ez + K))
        = S754_zero false)
  \/ (exists s m' e',
        SFadd IEEE.prec IEEE.emax (S754_finite sx mx ex) (S754_finite sz mz ez)
        = S754_finite s m' e'
        /\ 2 ^ 52 <= Z.pos m' < 2 ^ 53
        /\ forall K, - 1073 <= e' + K <= 970 ->
             SFadd IEEE.prec IEEE.emax
               (S754_finite sx mx (ex + K)) (S754_finite sz mz (ez + K))
             = S754_finite s m' (e' + K)).
Proof.
  intros Hmx Hmz Hlo Hhi.
  assert (Hsh : forall K r,
            SFadd IEEE.prec IEEE.emax (S754_finite sx mx ex) (S754_finite sz mz ez) = r ->
            match r with S754_finite _ _ e' => - 1073 <= e' + K <= 970 | _ => True end ->
            SFadd IEEE.prec IEEE.emax
              (S754_finite sx mx (ex + K)) (S754_finite sz mz (ez + K))
            = SF_shift K r)
    by (intros K r; apply SFadd_shift; assumption).
  pose proof (SFadd_finite_eq sx sz mx mz ex ez) as Heq.
  set (e0 := Z.min ex ez) in *.
  set (S := cond_Zopp sx (Z.pos mx * 2 ^ (ex - e0))
            + cond_Zopp sz (Z.pos mz * 2 ^ (ez - e0))) in *.
  destruct (Z.eq_dec S 0) as [E0 | Hnz].
  - left. rewrite E0 in Heq. cbn [binary_normalize] in Heq.
    split; [exact Heq|]. intros K.
    rewrite (Hsh K _ Heq I). reflexivity.
  - right.
    set (W := 2 ^ (Z.max ex ez - e0)).
    assert (HW : 0 < W) by (apply Z.pow_pos_nonneg; lia).
    assert (Ha : 0 < 2 ^ (ex - e0) <= W)
      by (split; [apply Z.pow_pos_nonneg | apply Z.pow_le_mono_r]; lia).
    assert (Hb : 0 < 2 ^ (ez - e0) <= W)
      by (split; [apply Z.pow_pos_nonneg | apply Z.pow_le_mono_r]; lia).
    assert (HS : 0 < Z.abs S < 2 ^ (54 + (Z.max ex ez - e0))).
    { rewrite Z.pow_add_r by lia. fold W. unfold S in *.
      destruct sx, sz; cbn [cond_Zopp] in *; nia. }
    pose proof (Zdigits2_spec (Z.abs S) ltac:(lia)) as Hs.
    pose proof (Zdigits2_pos (Z.abs S) ltac:(lia)) as Hdp.
    set (d := Zdigits2 (Z.abs S)) in *.
    assert (Hd : d - 1 < 54 + (Z.max ex ez - e0)) by (apply pow2_lt_inv; lia).
    assert (Hfin : exists s m' e',
              binary_normalize IEEE.prec IEEE.emax S e0 false = S754_finite s m' e'
              /\ 2 ^ 52 <= Z.pos m' < 2 ^ 53).
    { destruct S as [|p|p]; [lia | |]; cbn [binary_normalize].
      - destruct (binary_round_normal false p e0 d eq_refl)
          as (m' & e' & E & Hm' & _); try lia. eauto.
      - destruct (binary_round_normal true p e0 d eq_refl)
          as (m' & e' & E & Hm' & _); try lia. eauto. }
    destruct Hfin as (s & m' & e' & E & Hm').
    rewrite E in Heq.
    exists s, m', e'. split; [exact Heq|]. split; [exact Hm'|].
    intros K HK. rewrite (Hsh K _ Heq HK). reflexivity.
Qed.

Lemma finite_record_facts (s : bool) (m : positive) (e X : Z) :
  2 ^ 52 <= Z.pos m < 2 ^ 53 -> - 1022 <= e + 52 <= 1023 ->
  Z.abs X <= 2 ^ 62 ->
  efp64_is_zero {| fp := IEEE.to_bits (S754_finite s m e); exp := X |} = false
  /\ efp64_full_exponent {| fp := IEEE.to_bits (S754_finite s m e); exp := X |}
     = X + e + 52.
Proof.
  intros Hm He HX.
  destruct (of_bits_to_bits_normal s m e Hm) as (Hb & _); [lia|].
  assert (Hfl : fp64_fields (Z.b2z s) (e + 1075) (Z.pos m - 2 ^ 52))
    by (unfold fp64_fields; destruct s; cbn [Z.b2z]; lia).
  split.
  - rewrite efp64_is_zero_fields. cbn [fp].
    rewrite Hb, fp64_get_biased_exponent_pack by assumption.
    destruct (Z.eqb_spec (e + 1075) 0); [lia | reflexivity].
  - unfold efp64_full_exponent, Int64.add; cbn [fp exp].
    rewrite fp64_get_exponent_biased, Hb, fp64_get_biased_exponent_pack by assumption.
    replace (X + (e + 1075 - 1023)) with (X + e + 52) by lia.
    apply signed_in_range. unfold Int64.in_range, Int64.INT64_MIN, Int64.INT64_MAX. lia.
Qed.

(** The quick canonicalization keeps the value. *)
Lemma quick_canonicalize_value (s : bool) (m : positive) (e X : Z) :
  2 ^ 52 <= Z.pos m < 2 ^ 53 -> - 64 <= e + 52 < 128 -> Z.abs X <= 2 ^ 61 ->
  let r := efp64_quick_canonicalize
             {| fp := IEEE.to_bits (S754_finite s m e); exp := X |} in
  efp64_is_zero r = false
  /\ efp64_full_exponent r = X + e + 52
  /\ (- 1022 <= X + e + 52 <= 1023 ->
      efp64_to_fp64 r = IEEE.to_bits (S754_finite s m (X + e))).
Proof.
  intros Hm He HX r. unfold r, efp64_quick_canonicalize. cbn [fp exp].
  assert (Hw : SF_window (-64) 128 (S754_finite s m e)) by (cbn [SF_window]; lia).
  rewrite (ltb_fabs_one (-64) 128 _ Hw) by lia.
  rewrite (geb_fabs_high (-64) 128 _ Hw) by lia.
  destruct (of_bits_to_bits_normal s m e Hm) as (_ & Ho); [lia|].
  destruct (Z.ltb_spec (e + 52) 0).
  - unfold IEEE.mul. rewrite Ho, of_bits_power2_64.
    change 12 with (64 - 52). rewrite SFmul_power2 by lia.
    assert (HX' : Int64.sub X EXP_MODULUS = X - 64).
    { unfold Int64.sub. change EXP_MODULUS with 64. apply signed_in_range.
      unfold Int64.in_range, Int64.INT64_MIN, Int64.INT64_MAX. lia. }
    rewrite HX'.
    destruct (finite_record_facts s m (e + 64) (X - 64)) as (H1 & H2); try lia.
    split; [exact H1|]. split; [rewrite H2; lia|].
    intros HR. rewrite to_fp64_of_finite by lia. do 2 f_equal. lia.
  - destruct (Z.leb_spec 64 (e + 52)).
    + unfold IEEE.mul. rewrite Ho, of_bits_power2_m64.
      change (-116) with (-64 - 52). rewrite SFmul_power2 by lia.
      assert (HX' : Int64.add X EXP_MODULUS = X + 64).
      { unfold Int64.add. change EXP_MODULUS with 64. apply signed_in_range.
        unfold Int64.in_range, Int64.INT64_MIN, Int64.INT64_MAX. lia. }
      rewrite HX'.
      destruct (finite_record_facts s m (e + -64) (X + 64)) as (H1 & H2); try lia.
      split; [exact H1|]. split; [rewrite H2; lia|].
      intros HR. rewrite to_fp64_of_finite by lia. do 2 f_equal. lia.
    + destruct (finite_record_facts s m e X) as (H1 & H2); try lia.
      split; [exact H1|]. split; [exact H2|].
      intros HR. apply to_fp64_of_finite; lia.
Qed.

Lemma add_core_native (sl sh : bool) (ml mh : positive) (el eh Xl Xh : Z) :
  2 ^ 52 <= Z.pos ml < 2 ^ 53 -> 2 ^ 52 <= Z.pos mh < 2 ^ 53 ->
  0 <= el + 52 < 64 -> 0 <= eh + 52 < 64 ->
  Xl mod 64 = 0 -> Xh mod 64 = 0 -> Xl <= Xh -> - 1022 <= Xl - Xh ->
  Z.abs Xl <= 2 ^ 61 -> Z.abs Xh <= 2 ^ 61 ->
  let r := efp64_quick_canonicalize
             {| fp := IEEE.fma (IEEE.to_bits (S754_finite sl ml el))
                        (fp64_power2 (Int64.sub Xl Xh))
                        (IEEE.to_bits (S754_finite sh mh eh));
                exp := Xh |} in
  efp64_is_zero r = true \/ - 1021 <= efp64_full_exponent r <= 1022 ->
  efp64_to_fp64 r
  = IEEE.to_bits (SFadd IEEE.prec IEEE.emax
                    (S754_finite sl ml (Xl + el)) (S754_finite sh mh (Xh + eh))).
Proof.
  intros Hml Hmh Hel Heh Ml Mh Hle Hd HXl HXh r.
  set (delta := Xl - Xh).
  assert (HS : Int64.sub Xl Xh = delta).
  { unfold Int64.sub. apply signed_in_range.
    unfold Int64.in_range, Int64.INT64_MIN, Int64.INT64_MAX. lia. }
  assert (Hdelta : delta = 0 \/ - 960 <= delta <= - 64).
  { pose proof (Z.div_mod Xl 64 ltac:(lia)). pose proof (Z.div_mod Xh 64 ltac:(lia)).
    unfold delta. lia. }
  destruct (of_bits_to_bits_normal sl ml el Hml) as (_ & Hol); [lia|].
  destruct (of_bits_to_bits_normal sh mh eh Hmh) as (_ & Hoh); [lia|].
  assert (Hwl : SF_window 0 64 (S754_finite sl ml el)) by (cbn [SF_window]; lia).
  assert (Hwh : SF_window 0 64 (S754_finite sh mh eh)) by (cbn [SF_window]; lia).
  assert (Hwin : SF_is_zero (SFadd IEEE.prec IEEE.emax
                               (S754_finite sl ml (el + delta)) (S754_finite sh mh eh))
                 \/ SF_window (-53) 67
                      (SFadd IEEE.prec IEEE.emax
                         (S754_finite sl ml (el + delta)) (S754_finite sh mh eh))).
  { destruct Hdelta as [E0 | Hneg].
    - rewrite E0, Z.add_0_r.
      destruct (SFadd_window _ _ Hwl Hwh) as [Hz | Hw]; [left; exact Hz|].
      right. destruct (SFadd _ _ _ _); cbn [SF_window] in *; try contradiction. lia.
    - right. rewrite <- SFfma_power2. apply SFfma_window; try assumption. lia. }
  unfold r, IEEE.fma. rewrite HS, Hol, Hoh, of_bits_power2, SFfma_power2 by lia.
  replace (Xl + el) with (el + delta + Xh) by (unfold delta; lia).
  replace (Xh + eh) with (eh + Xh) by lia.
  destruct (SFadd_cases sl sh ml mh (el + delta) eh Hml Hmh)
    as [(E0 & EK) | (s & m' & e' & E & Hm' & EK)]; try lia.
  - rewrite E0, EK. intros _.
    unfold efp64_to_fp64. rewrite zero_quick_canonicalize. reflexivity.
  - rewrite E in Hwin |- *.
    destruct Hwin as [Hz | (_ & Hw)]; [contradiction|].
    destruct (quick_canonicalize_value s m' e' Xh Hm') as (H1 & H2 & H3); try lia.
    rewrite H1, H2. intros [Hc | Hr]; [discriminate|].
    rewrite H3, EK by lia. do 2 f_equal. lia.
Qed.

(** X3: in the range of a double the extended sum is the native one: two
    canonical values that fit a double, with exponents close enough for
    the alignment factor to be a normal double, add to the value whose
    double is the sum of their doubles, as long as the result is zero or
    fits a double with room for one carry. *)
Theorem efp64_add_native (a b : efp64_t) :
  efp64_wf a -> efp64_wf b -> efp64_canonical a -> efp64_canonical b ->
  efp64_fits_fp64 a -> efp64_fits_fp64 b ->
  Z.abs (exp a - exp b) <= 1022 ->
  efp64_is_zero (efp64_add a b) = true
  \/ - 1021 <= efp64_full_exponent (efp64_add a b) <= 1022 ->
  efp64_to_fp64 (efp64_add a b) = fp64_add (efp64_to_fp64 a) (efp64_to_fp64 b).
Proof.
  intros (Hwa & _) (Hwb & _) Ha Hb Fa Fb Hab.
  unfold efp64_fits_fp64 in Fa, Fb.
  destruct (efp64_canonical_finite a Hwa Ha)
    as (sa & ma & ea & Hoa & Hba & Hma & Hea & Hxa).
  destruct (efp64_canonical_finite b Hwb Hb)
    as (sb & mb & eb & Hob & Hbb & Hmb & Heb & Hxb).
  rewrite Hxa in Fa. rewrite Hxb in Fb.
  destruct Ha as (_ & Ma), Hb as (_ & Mb). change EXP_MODULUS with 64 in Ma, Mb.
  destruct a as [fa Xa], b as [fb Xb]. cbn [fp exp] in *. subst fa fb.
  unfold fp64_add.
  rewrite (to_fp64_of_finite sa ma ea Xa), (to_fp64_of_finite sb mb eb Xb) by lia.
  destruct (of_bits_to_bits_normal sa ma (Xa + ea) Hma) as (_ & Ho1); [lia|].
  destruct (of_bits_to_bits_normal sb mb (Xb + eb) Hmb) as (_ & Ho2); [lia|].
  rewrite Ho1, Ho2.
  unfold efp64_add. cbn [fp exp].
  destruct (Z.gtb_spec Xa Xb) as [Hgt | Hle].
  - intros Hr. rewrite SFadd_comm.
    apply (add_core_native sb sa mb ma eb ea Xb Xa); try assumption; lia.
  - intros Hr.
    apply (add_core_native sa sb ma mb ea eb Xa Xb); try assumption; lia.
Qed.

Lemma efp64_add_native_witness :
  let a := {| fp := 4613937818241073152; exp := 64 |} in
  let b := {| fp := IEEE.minus_one; exp := 0 |} in
  efp64_to_fp64 (efp64_add a b) = fp64_add (efp64_to_fp64 a) (efp64_to_fp64 b).
Proof.
  intros a b.
  assert (Ha : efp64_canonical a) by exact efp64_three_canonical.
  assert (Hb : efp64_canonical b) by by_evaluation.
  apply (efp64_add_native a b); try assumption;
    try (right; by_evaluation); by_evaluation.
Defined.
